(** * music-game-backend: the lobby and round engine of [app.py]

    A shallow embedding of [src/app.py] and the properties of its
    specification.

    Conventions of the embedding.
    - Python [str] values are [string]s; a character is a code point in
      the Latin-1 range (0..255), which is what [ascii] holds.
    - Python [int] values are [Z].
    - A JSON request field read with [data.get(k)] is an [option string]:
      [None] when the key is missing or null. The exception is the
      [guess] of [submit_guess], which is stored as it comes and read
      again by [run_game]: it is a [Json] value, of any JSON type.
    - The module-level dicts [lobbies] and [user_socket_map] are [gmap]s.
      A lobby dict is a heap object ([heap w !!! l]): [run_game] keeps its
      reference to the dict after [leave_lobby] has deleted the code.
    - [socketio.sleep] is the only point where the scheduler yields; the
      code between two sleeps is one atomic segment ([resume]).
    - Everything observable (emits, room joins, sleeps, HTTP responses)
      is appended to the world's [log].
    - [session] in a socket handler is read as the session of the
      browser that owns the socket.
    - The routes [get_random_song] and [serve_audio] write no state and
      are left out; [get_lobby] writes none either and is a function of
      the world, outside [route]. *)

From Stdlib Require Import ZArith QArith Ascii String DecimalString Floats.
From stdpp Require Import gmap strings list fin_maps.

Local Open Scope Z_scope.
Local Open Scope string_scope.
Local Open Scope list_scope.

(** ** Part I. The embedding *)

(** *** Text: [str.lower], [str.strip] and the regular expression of
    [clean_title] *)

Module Text.

(** [Py_UNICODE_ISSPACE] on Latin-1: it decides both [\s] of [re] and
    what [str.strip()] removes. *)
Definition is_space (c : ascii) : bool :=
  let n := nat_of_ascii c in
  ((9 <=? n)%nat && (n <=? 13)%nat) || ((28 <=? n)%nat && (n <=? 32)%nat)
  || (n =? 133)%nat || (n =? 160)%nat.

(** [str.lower] on one Latin-1 code point: A-Z and the accented capitals
    U+00C0..U+00DE (U+00D7 is the multiplication sign) move up by 32. *)
Definition lower_char (c : ascii) : ascii :=
  let n := nat_of_ascii c in
  if ((65 <=? n)%nat && (n <=? 90)%nat)
     || ((192 <=? n)%nat && (n <=? 222)%nat && negb (n =? 215)%nat)
  then ascii_of_nat (n + 32) else c.

Fixpoint lower (s : string) : string :=
  match s with
  | EmptyString => EmptyString
  | String c r => String (lower_char c) (lower r)
  end.

Fixpoint lstrip (s : string) : string :=
  match s with
  | String c r => if is_space c then lstrip r else s
  | EmptyString => EmptyString
  end.

Fixpoint rstrip (s : string) : string :=
  match s with
  | EmptyString => EmptyString
  | String c r =>
      match rstrip r with
      | EmptyString => if is_space c then EmptyString else String c EmptyString
      | r' => String c r'
      end
  end.

Definition strip (s : string) : string := rstrip (lstrip s).

(** The pattern [\s*\([^)]*\)] tried at the start of [s]: the number of
    characters it consumes, or [None] when it does not match here.
    [\s*] is greedy, but giving whitespace back never helps (the next
    character would be whitespace, not an opening parenthesis), and
    [[^)]*] must run up to the first closing parenthesis. *)
Fixpoint upto_close (s : string) : option nat :=
  match s with
  | EmptyString => None
  | String c r =>
      if Ascii.eqb c ")" then Some 1%nat else S <$> upto_close r
  end.

Fixpoint match_paren (s : string) : option nat :=
  match s with
  | EmptyString => None
  | String c r =>
      if is_space c then S <$> match_paren r
      else if Ascii.eqb c "(" then S <$> upto_close r
      else None
  end.

(** [re.sub(pattern, '', s)]: scan left to right; [skip] counts the
    characters still covered by the match found last. *)
Fixpoint sub_from (skip : nat) (s : string) : string :=
  match s with
  | EmptyString => EmptyString
  | String c r =>
      match skip with
      | S k => sub_from k r
      | O =>
          match match_paren s with
          | Some n => sub_from (pred n) r
          | None => String c (sub_from 0 r)
          end
      end
  end.

Definition re_sub_parens (s : string) : string := sub_from 0 s.

End Text.

(** [clean_title], lines 29-37. *)
Definition clean_title (title : string) : string :=
  let title := Text.re_sub_parens title in
  Text.lower (Text.strip title).

(** *** [difflib.SequenceMatcher] as [is_close_match] uses it

    [SequenceMatcher(None, a, b)]: no junk predicate, [autojunk] left at
    its default.  Indices are [nat]; a block [(i, j, k)] says
    [a[i:i+k] == b[j:j+k]]. *)

Module Difflib.

Section SequenceMatcher.
Context {A : Type} `{EqDecision A}.
Variables a b : list A.

(** [__chain_b]: [b2j[x]] lists the positions of [x] in [b], ascending. *)
Fixpoint indices_from (j : nat) (l : list A) (x : A) : list nat :=
  match l with
  | [] => []
  | y :: r =>
      if decide (y = x) then j :: indices_from (S j) r x
      else indices_from (S j) r x
  end.

(** With [len(b) >= 200] an element found more than [n // 100 + 1] times
    is "popular" and loses its [b2j] entry. It is not junk. *)
Definition popular (x : A) : bool :=
  (200 <=? length b)%nat
  && (length b / 100 + 1 <? length (indices_from 0 b x))%nat.

Definition b2j (x : A) : list nat :=
  if popular x then [] else indices_from 0 b x.

(** [j2len.get(j-1, 0)] *)
Definition j2len_prev (j2len : gmap nat nat) (j : nat) : nat :=
  match j with
  | O => O
  | S j' => default O (j2len !! j')
  end.

(** The inner [for j in b2j.get(a[i], nothing)] of [find_longest_match];
    [best] is [(besti, bestj, bestsize)]. *)
Fixpoint row_loop (i blo bhi : nat) (j2len : gmap nat nat) (js : list nat)
    (newj2len : gmap nat nat) (best : nat * nat * nat)
    : gmap nat nat * (nat * nat * nat) :=
  match js with
  | [] => (newj2len, best)
  | j :: js' =>
      if (j <? blo)%nat then row_loop i blo bhi j2len js' newj2len best
      else if (bhi <=? j)%nat then (newj2len, best)
      else
        let k := (j2len_prev j2len j + 1)%nat in
        let newj2len := <[j := k]> newj2len in
        let best :=
          if (best.2 <? k)%nat then ((i + 1 - k)%nat, (j + 1 - k)%nat, k)
          else best in
        row_loop i blo bhi j2len js' newj2len best
  end.

(** The outer [for i in range(alo, ahi)], [n] rows still to do. *)
Fixpoint scan (n i blo bhi : nat) (j2len : gmap nat nat)
    (best : nat * nat * nat) : nat * nat * nat :=
  match n with
  | O => best
  | S n' =>
      let row := from_option b2j [] (a !! i) in
      let '(newj2len, best') := row_loop i blo bhi j2len row ∅ best in
      scan n' (S i) blo bhi newj2len best'
  end.

Definition same_at (i j : nat) : bool :=
  match a !! i, b !! j with
  | Some x, Some y => bool_decide (x = y)
  | _, _ => false
  end.

(** First [while]: grow the match to the left. *)
Fixpoint extend_left (alo blo besti bestj bestsize : nat) {struct besti}
    : nat * nat * nat :=
  match besti, bestj with
  | S i', S j' =>
      if (alo <? besti)%nat && (blo <? bestj)%nat && same_at i' j'
      then extend_left alo blo i' j' (S bestsize)
      else (besti, bestj, bestsize)
  | _, _ => (besti, bestj, bestsize)
  end.

(** Second [while]: grow it to the right. Each turn moves
    [besti + bestsize] one step towards [ahi], so [ahi] turns are enough
    ([extend_right_exits]). *)
Fixpoint extend_right (fuel ahi bhi besti bestj bestsize : nat) : nat :=
  match fuel with
  | O => bestsize
  | S fuel' =>
      if (besti + bestsize <? ahi)%nat && (bestj + bestsize <? bhi)%nat
         && same_at (besti + bestsize) (bestj + bestsize)
      then extend_right fuel' ahi bhi besti bestj (S bestsize)
      else bestsize
  end.

(** [find_longest_match(alo, ahi, blo, bhi)]. The two last loops of the
    source extend over junk only, and [bjunk] is empty here. *)
Definition find_longest_match (alo ahi blo bhi : nat) : nat * nat * nat :=
  let best := scan (ahi - alo) alo blo bhi ∅ (alo, blo, O) in
  let '(besti, bestj, bestsize) :=
    extend_left alo blo best.1.1 best.1.2 best.2 in
  (besti, bestj, extend_right ahi ahi bhi besti bestj bestsize).

(** The work list of [get_matching_blocks]: [queue.pop()] takes the entry
    appended last, here the head. [None]: out of fuel. *)
Fixpoint blocks_loop (fuel : nat) (queue : list (nat * nat * nat * nat))
    (matching_blocks : list (nat * nat * nat))
    : option (list (nat * nat * nat)) :=
  match fuel with
  | O => None
  | S fuel' =>
      match queue with
      | [] => Some matching_blocks
      | (alo, ahi, blo, bhi) :: queue =>
          let '(i, j, k) := find_longest_match alo ahi blo bhi in
          if (k =? 0)%nat then blocks_loop fuel' queue matching_blocks
          else
            let queue :=
              if (alo <? i)%nat && (blo <? j)%nat
              then (alo, i, blo, j) :: queue else queue in
            let queue :=
              if (i + k <? ahi)%nat && (j + k <? bhi)%nat
              then ((i + k)%nat, ahi, (j + k)%nat, bhi) :: queue else queue in
            blocks_loop fuel' queue (matching_blocks ++ [(i, j, k)])
      end
  end.

(** [get_matching_blocks] before it sorts and merges adjacent blocks,
    which [ratio] does not see: it only adds up the sizes. The fuel is
    never used up ([blocks_loop_terminates]). *)
Definition get_matching_blocks : list (nat * nat * nat) :=
  default [] (blocks_loop (2 * length a + 2) [(O, length a, O, length b)] []).

Definition matches : nat := sum_list (snd <$> get_matching_blocks).

(** [_calculate_ratio(matches, length)]. CPython evaluates
    [2.0 * matches / length] in binary64; this is the exact quotient, of
    which that is the rounding. *)
Definition calculate_ratio (matches length : nat) : Q :=
  if (length =? 0)%nat then 1%Q
  else (Z.of_nat (2 * matches) # Pos.of_nat length)%Q.

Definition ratio : Q := calculate_ratio matches (length a + length b).

(** The same quotient computed as CPython does, in binary64. *)
Definition ratio_binary64 : float :=
  if (length a + length b =? 0)%nat then 1%float
  else (2 * PrimFloat.of_uint63 (Uint63.of_Z (Z.of_nat matches))
        / PrimFloat.of_uint63 (Uint63.of_Z (Z.of_nat (length a + length b))))%float.

End SequenceMatcher.

End Difflib.

(** [is_close_match] with its default [threshold=0.7], lines 39-47. The
    comparison is exact: [ratio] is a quotient of two integers below
    [2 * len], and [7/10] differs from the binary64 constant [0.7] by
    less than [5e-17], so both comparisons agree for all texts shorter
    than [10^15] characters. *)
Definition is_close_match (guess correct_song : string) : bool :=
  let guess_clean := clean_title guess in
  let correct_clean := clean_title correct_song in
  let ratio := Difflib.ratio (list_ascii_of_string guess_clean)
                             (list_ascii_of_string correct_clean) in
  Qle_bool (7 # 10) ratio.

(** The binary64 evaluation of the same test, for comparison on concrete
    inputs. *)
Definition is_close_match_binary64 (guess correct_song : string) : bool :=
  PrimFloat.leb 0x1.6666666666666p-1%float
    (Difflib.ratio_binary64 (list_ascii_of_string (clean_title guess))
                            (list_ascii_of_string (clean_title correct_song))).

(** *** Data model: the dicts of [app.py] *)

(** What [request.get_json()] finds under a key: [json.loads] gives
    [None], [bool], [int], [float], [str], [list] or [dict]. A missing
    key reads as [JNull], as [data.get] returns [None] for it. *)
#[warnings="-register-all"]
Inductive Json :=
| JNull
| JBool (b : bool)
| JInt (n : Z)
| JFloat (x : float)
| JStr (s : string)
| JArr (items : list Json)
| JObj (fields : list (string * Json)).

(** Python truth of such a value: [None], [False], zero of either kind,
    [''], [[]] and [{}] are false. *)
Definition truthy_json (v : Json) : bool :=
  match v with
  | JNull => false
  | JBool b => b
  | JInt n => negb (n =? 0)%Z
  | JFloat x => negb (PrimFloat.eqb x 0%float)
  | JStr s => negb (String.eqb s "")
  | JArr items => match items with [] => false | _ :: _ => true end
  | JObj fields => match fields with [] => false | _ :: _ => true end
  end.

(** [str] is the one type of these that has a method [lower]. *)
Definition is_text (v : Json) : bool :=
  match v with
  | JStr _ => true
  | _ => false
  end.

(** An entry of [lobby['players']]. *)
Record Player := {
  id : string;
  is_host : bool;
  score : Z
}.

(** A value of [lobby['guesses']]. *)
Record GuessRecord := {
  guess : Json;
  submitted : bool
}.

(** [song_data], also [lobby['current_song']]. *)
Record Song := {
  song : string;
  artist : string;
  audio_url : string
}.

(** [lobby['status']]: the code writes ['waiting'] and ['playing'] only. *)
Inductive Status := waiting | playing.

(** A lobby dict. [create_lobby] makes it without the key ['guesses'];
    [run_game] adds it. Its keys are what [session.get('user_id')]
    returned, [None] included. *)
Record Lobby := {
  players : list Player;
  status : Status;
  round : Z;
  max_rounds : Z;
  current_song : option Song;
  guesses : option (gmap (option string) GuessRecord)
}.

#[global] Instance Lobby_inhabited : Inhabited Lobby :=
  populate {| players := []; status := waiting; round := 0; max_rounds := 10;
              current_song := None; guesses := None |}.

(** The Flask session of one browser: the keys ['user_id'] and ['score']. *)
Record Session := {
  user_id : option string;
  session_score : option Z
}.

Definition empty_session : Session :=
  {| user_id := None; session_score := None |}.

(** A value of [guess_results]. *)
Record GuessResult := {
  result_guess : Json;
  correct : bool
}.

(** Events of [socketio.emit], with their payload. *)
Inductive Payload :=
| player_joined (player_id : string)
| player_left (player_id : string)
| game_started
| round_started (round duration : Z) (song_data : Song)
| round_started_error (round duration : Z) (error : string)
| player_guessed (player_id : option string)
| round_ended_personal (round : Z) (correct_answer : string)
    (guess_result : GuessResult)
| round_transition (next_round : option Z) (duration : Z)
| game_ended (winner : option string) (final_players : list Player).

(** The [room=] of an emit: a lobby code, or one socket id. *)
Inductive Room := lobby_room (code : string) | socket_room (sid : string).

(** The exceptions that escape: [lobby['guesses']] on a dict without
    the key, and [.lower()] on a value that is not a [str]. *)
Inductive Exn := KeyError (key : string) | AttributeError (name : string).

(** What a route returns: the JSON body with its status. The [message]
    of [validate_guess] is a function of [correct] and is left out. *)
Inductive Response :=
| lobby_ok (code : string) (is_host : bool)
| success_ok
| guess_ok
| validate_ok (correct : bool) (score : Z)
| reset_ok (score : Z)
| session_ok (user_id : string)
| error (status : Z) (message : string).

Inductive Outcome := Return (r : Response) | Raise (e : Exn).

Inductive Effect :=
| Emit (p : Payload) (room : Room)
| JoinRoom (sid room : string)
| LeaveRoom (sid room : string)
| Sleep (seconds : Z)
| Respond (client : nat) (o : Outcome).

(** What one request to the Deezer chart returns: any exception of the
    [try] block, or the three fields read from [track_data], each a
    text or missing. *)
Inductive Fetch :=
| fetch_error
| fetch_track (title artist_name preview : option string).

(** A call of [run_game] between two of its steps. [l] is the lobby dict
    it holds. *)
Inductive Task :=
| spawned (lobby_code : string)
| sleeping_retry (lobby_code : string) (l : nat) (retry_count : nat)
| sleeping_skip (lobby_code : string) (l : nat)
| sleeping_round (lobby_code : string) (l : nat) (song_data : Song)
| sleeping_transition (lobby_code : string) (l : nat)
| returned (l : option nat)
| crashed (l : nat) (e : Exn).

Record World := {
  heap : gmap nat Lobby;
  next_loc : nat;
  lobbies : gmap string nat;
  user_socket_map : gmap string string;
  sessions : gmap nat Session;
  tasks : list Task;
  log : list Effect
}.

Definition init : World :=
  {| heap := ∅; next_loc := O; lobbies := ∅; user_socket_map := ∅;
     sessions := ∅; tasks := []; log := [] |}.

Definition set_lobby (l : nat) (lobby : Lobby) (w : World) : World :=
  {| heap := <[l := lobby]> (heap w); next_loc := next_loc w;
     lobbies := lobbies w; user_socket_map := user_socket_map w;
     sessions := sessions w; tasks := tasks w; log := log w |}.

Definition set_lobbies (m : gmap string nat) (w : World) : World :=
  {| heap := heap w; next_loc := next_loc w; lobbies := m;
     user_socket_map := user_socket_map w; sessions := sessions w;
     tasks := tasks w; log := log w |}.

Definition set_user_socket_map (m : gmap string string) (w : World) : World :=
  {| heap := heap w; next_loc := next_loc w; lobbies := lobbies w;
     user_socket_map := m; sessions := sessions w; tasks := tasks w;
     log := log w |}.

Definition set_sessions (m : gmap nat Session) (w : World) : World :=
  {| heap := heap w; next_loc := next_loc w; lobbies := lobbies w;
     user_socket_map := user_socket_map w; sessions := m; tasks := tasks w;
     log := log w |}.

Definition set_tasks (ts : list Task) (w : World) : World :=
  {| heap := heap w; next_loc := next_loc w; lobbies := lobbies w;
     user_socket_map := user_socket_map w; sessions := sessions w;
     tasks := ts; log := log w |}.

Definition perform (e : Effect) (w : World) : World :=
  {| heap := heap w; next_loc := next_loc w; lobbies := lobbies w;
     user_socket_map := user_socket_map w; sessions := sessions w;
     tasks := tasks w; log := log w ++ [e] |}.

(** A new dict, bound to [code] in [lobbies]. *)
Definition new_lobby (code : string) (lobby : Lobby) (w : World) : World :=
  {| heap := <[next_loc w := lobby]> (heap w); next_loc := S (next_loc w);
     lobbies := <[code := next_loc w]> (lobbies w);
     user_socket_map := user_socket_map w; sessions := sessions w;
     tasks := tasks w; log := log w |}.

Definition set_players (ps : list Player) (lobby : Lobby) : Lobby :=
  {| players := ps; status := status lobby; round := round lobby;
     max_rounds := max_rounds lobby; current_song := current_song lobby;
     guesses := guesses lobby |}.

Definition set_status (s : Status) (lobby : Lobby) : Lobby :=
  {| players := players lobby; status := s; round := round lobby;
     max_rounds := max_rounds lobby; current_song := current_song lobby;
     guesses := guesses lobby |}.

Definition set_round (r : Z) (lobby : Lobby) : Lobby :=
  {| players := players lobby; status := status lobby; round := r;
     max_rounds := max_rounds lobby; current_song := current_song lobby;
     guesses := guesses lobby |}.

Definition set_current_song (s : option Song) (lobby : Lobby) : Lobby :=
  {| players := players lobby; status := status lobby; round := round lobby;
     max_rounds := max_rounds lobby; current_song := s;
     guesses := guesses lobby |}.

Definition set_guesses (g : gmap (option string) GuessRecord) (lobby : Lobby)
    : Lobby :=
  {| players := players lobby; status := status lobby; round := round lobby;
     max_rounds := max_rounds lobby; current_song := current_song lobby;
     guesses := Some g |}.

(** Python truth of an optional text: neither [None] nor [''] . *)
Definition truthy (s : option string) : bool :=
  match s with
  | Some (String _ _) => true
  | _ => false
  end.

(** *** Random draws

    The caller supplies what [random] returns, as natural numbers. *)

(** [str(random.randint(10000, 99999))] *)
Definition randint_str (draw : N) : string :=
  NilEmpty.string_of_uint (N.to_uint (10000 + draw mod 90000)).

Definition digit (n : N) : ascii := ascii_of_N (48 + n mod 10).

(** [''.join(random.choices(string.digits, k=6))] *)
Definition random_code (draw : N) : string :=
  String (digit (draw / 100000)) (String (digit (draw / 10000))
  (String (digit (draw / 1000)) (String (digit (draw / 100))
  (String (digit (draw / 10)) (String (digit draw) EmptyString))))).

(** [generate_lobby_code], lines 23-27: the first code drawn that is not
    a key of [lobbies]. [None]: every draw supplied was taken, the
    [while True] is still running. *)
Fixpoint generate_lobby_code (draws : list N) (lobbies : gmap string nat)
    : option string :=
  match draws with
  | [] => None
  | d :: draws =>
      let code := random_code d in
      match lobbies !! code with
      | None => Some code
      | Some _ => generate_lobby_code draws lobbies
      end
  end.

(** [if 'user_id' not in session: session['user_id'] = str(randint(..))],
    then [session['user_id']]. *)
Definition ensure_user_id (draw : N) (s : Session) : string * Session :=
  match user_id s with
  | Some uid => (uid, s)
  | None =>
      let uid := randint_str draw in
      (uid, {| user_id := Some uid; session_score := session_score s |})
  end.

(** *** The HTTP routes

    A route takes the session and the world and gives back its outcome
    with both updated. *)

(** [create_lobby], lines 49-71. *)
Definition create_lobby (uid_draw : N) (code_draws : list N)
    (s : Session) (w : World) : option (Outcome * Session * World) :=
  let '(uid, s) := ensure_user_id uid_draw s in
  lobby_code ← generate_lobby_code code_draws (lobbies w);
  let lobby :=
    {| players := [ {| id := uid; is_host := true; score := 0 |} ];
       status := waiting; round := 0; max_rounds := 10;
       current_song := None; guesses := None |} in
  Some (Return (lobby_ok lobby_code true), s, new_lobby lobby_code lobby w).

(** [join_lobby], lines 74-114. *)
Definition join_lobby (code : option string) (uid_draw : N)
    (s : Session) (w : World) : Outcome * Session * World :=
  match (if truthy code then code ≫= λ c, pair c <$> lobbies w !! c else None) with
  | None => (Return (error 404 "Invalid lobby code"), s, w)
  | Some (lobby_code, l) =>
      let '(uid, s) := ensure_user_id uid_draw s in
      let lobby := heap w !!! l in
      if existsb (λ p, bool_decide (id p = uid)) (players lobby) then
        (Return (lobby_ok lobby_code
           (existsb (λ p, bool_decide (id p = uid) && is_host p) (players lobby))),
         s, w)
      else if (8 <=? length (players lobby))%nat then
        (Return (error 400 "Lobby is full"), s, w)
      else
        let lobby :=
          set_players
            (players lobby ++ [ {| id := uid; is_host := false; score := 0 |} ])
            lobby in
        let w := set_lobby l lobby w in
        let w := perform (Emit (player_joined uid) (lobby_room lobby_code)) w in
        (Return (lobby_ok lobby_code false), s, w)
  end.

(** [lobby['players'][0]['is_host'] = True] *)
Definition promote_first (ps : list Player) : list Player :=
  match ps with
  | [] => []
  | p :: ps => {| id := id p; is_host := true; score := score p |} :: ps
  end.

(** [leave_lobby], lines 116-150. *)
Definition leave_lobby (code : option string) (s : Session) (w : World)
    : Outcome * Session * World :=
  match (if truthy code then code ≫= λ c, pair c <$> lobbies w !! c else None) with
  | None => (Return (error 404 "Invalid lobby code"), s, w)
  | Some (lobby_code, l) =>
      match user_id s with
      | None => (Return (error 400 "Not in a lobby"), s, w)
      | Some player_id =>
          let lobby := heap w !!! l in
          let ps :=
            filter (λ p, id p ≠ player_id) (players lobby) in
          let w := set_lobby l (set_players ps lobby) w in
          let w := set_user_socket_map (delete player_id (user_socket_map w)) w in
          match ps with
          | [] =>
              (Return success_ok, s, set_lobbies (delete lobby_code (lobbies w)) w)
          | _ :: _ =>
              let ps := if existsb is_host ps then ps else promote_first ps in
              let w := set_lobby l (set_players ps (heap w !!! l)) w in
              let w := perform (Emit (player_left player_id) (lobby_room lobby_code)) w in
              (Return success_ok, s, w)
          end
      end
  end.

(** [start_game], lines 258-282. *)
Definition start_game (code : option string) (s : Session) (w : World)
    : Outcome * Session * World :=
  match (if truthy code then code ≫= λ c, pair c <$> lobbies w !! c else None) with
  | None => (Return (error 404 "Invalid lobby code"), s, w)
  | Some (lobby_code, l) =>
      match (if truthy (user_id s) then user_id s else None) with
      | None => (Return (error 400 "User not identified"), s, w)
      | Some uid =>
          let lobby := heap w !!! l in
          if negb (existsb (λ p, bool_decide (id p = uid) && is_host p)
                           (players lobby))
          then (Return (error 403 "Only host can start the game"), s, w)
          else
            let w := set_lobby l (set_status playing lobby) w in
            let w := perform (Emit game_started (lobby_room lobby_code)) w in
            let w := set_tasks (tasks w ++ [spawned lobby_code]) w in
            (Return success_ok, s, w)
      end
  end.

(** [submit_guess], lines 359-386. The body reads [lobby_code], not
    [code]. The guess is tested for truth only (line 365) and stored as
    it is, whatever its JSON type. *)
Definition submit_guess (guess : Json) (lobby_code : option string)
    (s : Session) (w : World) : Outcome * Session * World :=
  match (if truthy_json guess && truthy lobby_code
         then c ← lobby_code; pair c <$> lobbies w !! c
         else None) with
  | None => (Return (error 400 "Invalid request"), s, w)
  | Some (lobby_code, l) =>
      let lobby := heap w !!! l in
      let uid := user_id s in
      match guesses lobby with
      | None => (Raise (KeyError "guesses"), s, w)
      | Some g =>
          if from_option submitted false (g !! uid) then
            (Return (error 400 "You have already made a guess this round"), s, w)
          else
            let g := <[uid := {| guess := guess; submitted := true |}]> g in
            let w := set_lobby l (set_guesses g lobby) w in
            let w := perform (Emit (player_guessed uid) (lobby_room lobby_code)) w in
            (Return guess_ok, s, w)
      end
  end.

(** [validate_guess], lines 322-348. *)
Definition validate_guess (guess correct_song : option string)
    (s : Session) (w : World) : Outcome * Session * World :=
  match (if truthy guess && truthy correct_song
         then g ← guess; c ← correct_song; Some (g, c) else None) with
  | None => (Return (error 400 "Missing guess or song data"), s, w)
  | Some (guess, correct_song) =>
      let is_correct := is_close_match guess correct_song in
      let score := default 0 (session_score s) in
      let score := if is_correct then score + 1 else score in
      (Return (validate_ok is_correct score),
       {| user_id := user_id s; session_score := Some score |}, w)
  end.

(** [reset_score], lines 350-353. *)
Definition reset_score (s : Session) (w : World) : Outcome * Session * World :=
  (Return (reset_ok 0), {| user_id := user_id s; session_score := Some 0 |}, w).

(** [init_session], lines 389-393. *)
Definition init_session (uid_draw : N) (s : Session) (w : World)
    : Outcome * Session * World :=
  let '(uid, s) := ensure_user_id uid_draw s in
  (Return (session_ok uid), s, w).

(** [get_lobby], lines 395-399: the 404, or the dict that is handed to
    [jsonify]; what [jsonify] makes of the dict is outside the model. *)
Definition get_lobby (lobby_code : string) (w : World) : Lobby + Response :=
  match lobbies w !! lobby_code with
  | None => inr (error 404 "Lobby not found")
  | Some l => inl (heap w !!! l)
  end.

(** *** The socket handlers

    [session] in a socket handler is read as the browser's session. *)

(** [on_join], lines 284-291. *)
Definition on_join (sid lobby_code : string) (s : Session) (w : World) : World :=
  let w := perform (JoinRoom sid lobby_code) w in
  match (if truthy (user_id s) then user_id s else None) with
  | Some uid => set_user_socket_map (<[uid := sid]> (user_socket_map w)) w
  | None => w
  end.

(** [on_leave], lines 293-300. *)
Definition on_leave (sid lobby_code : string) (s : Session) (w : World) : World :=
  let w := perform (LeaveRoom sid lobby_code) w in
  match (if truthy (user_id s) then user_id s else None) with
  | Some uid => set_user_socket_map (delete uid (user_socket_map w)) w
  | None => w
  end.

(** *** [run_game], lines 153-256

    The function is cut at its [socketio.sleep] calls: [resume] runs one
    task from where it stands to its next sleep, or to its return. *)

(** The [try] body of lines 170-186: [song_data], or [None] for any
    exception, [ValueError("Incomplete track data received")] included. *)
Definition fetch_song (f : Fetch) : option Song :=
  match f with
  | fetch_track (Some title) (Some name) (Some preview) =>
      if truthy (Some title) && truthy (Some name) && truthy (Some preview)
      then Some {| song := title; artist := name; audio_url := preview |}
      else None
  | _ => None
  end.

(** Lines 203-214: the round opens. *)
Definition open_round (lobby_code : string) (l : nat) (song_data : Song)
    (w : World) : World * Task :=
  let lobby := heap w !!! l in
  let w := set_lobby l (set_current_song (Some song_data) lobby) w in
  let w := perform (Emit (round_started (round lobby) 30 song_data)
                         (lobby_room lobby_code)) w in
  (perform (Sleep 30) w, sleeping_round lobby_code l song_data).

(** Lines 193-199: no song, the round is skipped. *)
Definition skip_round (lobby_code : string) (l : nat) (w : World)
    : World * Task :=
  let lobby := heap w !!! l in
  let w := perform (Emit (round_started_error (round lobby) 30
                            "Failed to fetch song data. Skipping round.")
                         (lobby_room lobby_code)) w in
  (perform (Sleep 5) w, sleeping_skip lobby_code l).

(** The inner [while not song_data and retry_count < max_retries], from
    its test, [song_data] being [None]; [f] is what the request of this
    turn returns. *)
Definition retry_loop (lobby_code : string) (l : nat) (retry_count : nat)
    (f : Fetch) (w : World) : World * Task :=
  if (retry_count <? 3)%nat then
    match fetch_song f with
    | Some song_data => open_round lobby_code l song_data w
    | None =>
        (perform (Sleep 1) w, sleeping_retry lobby_code l (retry_count + 1))
    end
  else skip_round lobby_code l w.

(** Line 162: one fresh record per player now in the list. *)
Definition fresh_guesses (ps : list Player) : gmap (option string) GuessRecord :=
  foldl (λ g p, <[Some (id p) := {| guess := JNull; submitted := false |}]> g)
        ∅ ps.

(** Lines 218-227, one player: the player after scoring, and the entry
    of [guess_results]. *)

(** [lobby['guesses'].get(player['id'], {}).get('guess')] *)
Definition player_guess_of (g : gmap (option string) GuessRecord) (p : Player)
    : Json :=
  from_option guess JNull (g !! Some (id p)).

(** Line 221 evaluates [player_guess.lower()] when [player_guess] is
    true: on anything but a [str] that raises [AttributeError]. *)
Definition lower_raises (player_guess : Json) : bool :=
  truthy_json player_guess && negb (is_text player_guess).

(** The value of the test of line 221 when it does not raise. *)
Definition is_correct (player_guess : Json) (title : string) : bool :=
  truthy_json player_guess
  && match player_guess with
     | JStr s => bool_decide (Text.lower s = Text.lower title)
     | _ => false
     end.

Definition score_player (g : gmap (option string) GuessRecord) (title : string)
    (p : Player) : Player :=
  if is_correct (player_guess_of g p) title
  then {| id := id p; is_host := is_host p; score := score p + 1 |}
  else p.

Definition guess_result_of (g : gmap (option string) GuessRecord)
    (title : string) (p : Player) : GuessResult :=
  {| result_guess := player_guess_of g p;
     correct := is_correct (player_guess_of g p) title |}.

Definition build_guess_results (g : gmap (option string) GuessRecord)
    (title : string) (ps : list Player) : gmap string GuessResult :=
  foldl (λ results p, <[id p := guess_result_of g title p]> results) ∅ ps.

(** Lines 230-238: the personal results, to the players with an entry in
    [user_socket_map]. *)
Definition personal_emits (usm : gmap string string) (round : Z)
    (title : string) (guess_results : gmap string GuessResult)
    (ps : list Player) : list Effect :=
  omap (λ p,
          let uid := id p in
          let personal_result :=
            round_ended_personal round title
              (default {| result_guess := JNull; correct := false |}
                       (guess_results !! uid)) in
          (λ sid, Emit personal_result (socket_room sid)) <$> usm !! uid)
       ps.

(** The [for] of lines 218-227 over the player list: the players as the
    loop leaves them, and the exception that ended it, if one did. The
    scores are written in place, so the players before the one at which
    the loop died keep what they were given. Line 219 reads
    [lobby['guesses']] at every turn. *)
Fixpoint score_players (guesses : option (gmap (option string) GuessRecord))
    (title : string) (ps : list Player) : list Player * option Exn :=
  match ps with
  | [] => ([], None)
  | p :: rest =>
      match guesses with
      | None => (p :: rest, Some (KeyError "guesses"))
      | Some g =>
          if lower_raises (player_guess_of g p)
          then (p :: rest, Some (AttributeError "lower"))
          else
            let '(rest, raised) := score_players guesses title rest in
            (score_player g title p :: rest, raised)
      end
  end.

(** Lines 216-245: after the 30 seconds. An exception of the scoring
    loop ends the call: nothing is emitted any more. *)
Definition close_round (lobby_code : string) (l : nat) (song_data : Song)
    (w : World) : World * Task :=
  let lobby := heap w !!! l in
  let title := song song_data in
  let '(ps, raised) := score_players (guesses lobby) title (players lobby) in
  let w := set_lobby l (set_players ps lobby) w in
  match raised with
  | Some e => (w, crashed l e)
  | None =>
      let guess_results :=
        build_guess_results (default ∅ (guesses lobby)) title (players lobby) in
      let w := foldl (λ w e, perform e w) w
                 (personal_emits (user_socket_map w) (round lobby) title
                                 guess_results ps) in
      let w := perform (Emit (round_transition
                                (if (round lobby <? 10)%Z then Some (round lobby + 1)
                                 else None) 5)
                             (lobby_room lobby_code)) w in
      (perform (Sleep 5) w, sleeping_transition lobby_code l)
  end.

(** Lines 250-255: the scan for the winner. *)
Fixpoint winner_scan (ps : list Player) (winner : option string)
    (highest_score : Z) : option string :=
  match ps with
  | [] => winner
  | p :: ps =>
      if (highest_score <? score p)%Z then winner_scan ps (Some (id p)) (score p)
      else winner_scan ps winner highest_score
  end.

Definition winner_of (ps : list Player) : option string :=
  winner_scan ps None (-1).

(** Lines 249-256: after the loop. *)
Definition end_game (lobby_code : string) (l : nat) (w : World) : World * Task :=
  let lobby := heap w !!! l in
  let w := perform (Emit (game_ended (winner_of (players lobby)) (players lobby))
                         (lobby_room lobby_code)) w in
  (w, returned (Some l)).

(** The outer [while lobby['round'] <= max_rounds], from its test;
    [max_rounds] is the local constant 10 of line 158. *)
Definition loop_head (lobby_code : string) (l : nat) (f : Fetch) (w : World)
    : World * Task :=
  let lobby := heap w !!! l in
  if (round lobby <=? 10)%Z then
    let w := set_lobby l (set_guesses (fresh_guesses (players lobby)) lobby) w in
    retry_loop lobby_code l 0 f w
  else end_game lobby_code l w.

(** [lobby['round'] += 1] *)
Definition next_round (l : nat) (w : World) : World :=
  let lobby := heap w !!! l in
  set_lobby l (set_round (round lobby + 1) lobby) w.

(** One task runs to its next sleep. *)
Definition resume (f : Fetch) (t : Task) (w : World) : World * Task :=
  match t with
  | spawned lobby_code =>
      match lobbies w !! lobby_code with
      | None => (w, returned None)
      | Some l =>
          let w := set_lobby l (set_round 1 (heap w !!! l)) w in
          loop_head lobby_code l f w
      end
  | sleeping_retry lobby_code l retry_count =>
      retry_loop lobby_code l retry_count f w
  | sleeping_skip lobby_code l => loop_head lobby_code l f (next_round l w)
  | sleeping_round lobby_code l song_data => close_round lobby_code l song_data w
  | sleeping_transition lobby_code l =>
      loop_head lobby_code l f (next_round l w)
  | returned _ | crashed _ _ => (w, t)
  end.

(** *** The whole server

    Requests, socket events and task wake-ups come in some order; each
    runs to its end before the next starts. *)

Inductive Request :=
| create_lobby_req (uid_draw : N) (code_draws : list N)
| join_lobby_req (code : option string) (uid_draw : N)
| leave_lobby_req (code : option string)
| start_game_req (code : option string)
| submit_guess_req (guess : Json) (lobby_code : option string)
| validate_guess_req (guess song : option string)
| reset_score_req
| init_session_req (uid_draw : N).

Inductive Event :=
| http (client : nat) (r : Request)
| socket_join (client : nat) (sid lobby_code : string)
| socket_leave (client : nat) (sid lobby_code : string)
| wake (task : nat) (f : Fetch).

Definition session_of (w : World) (client : nat) : Session :=
  default empty_session (sessions w !! client).

Definition route (r : Request) (s : Session) (w : World)
    : option (Outcome * Session * World) :=
  match r with
  | create_lobby_req uid_draw code_draws => create_lobby uid_draw code_draws s w
  | join_lobby_req code uid_draw => Some (join_lobby code uid_draw s w)
  | leave_lobby_req code => Some (leave_lobby code s w)
  | start_game_req code => Some (start_game code s w)
  | submit_guess_req guess lobby_code => Some (submit_guess guess lobby_code s w)
  | validate_guess_req guess song => Some (validate_guess guess song s w)
  | reset_score_req => Some (reset_score s w)
  | init_session_req uid_draw => Some (init_session uid_draw s w)
  end.

Definition step (e : Event) (w : World) : World :=
  match e with
  | http client r =>
      match route r (session_of w client) w with
      | Some (o, s, w) =>
          perform (Respond client o)
                  (set_sessions (<[client := s]> (sessions w)) w)
      | None => w
      end
  | socket_join client sid lobby_code =>
      on_join sid lobby_code (session_of w client) w
  | socket_leave client sid lobby_code =>
      on_leave sid lobby_code (session_of w client) w
  | wake i f =>
      match tasks w !! i with
      | Some t =>
          let '(w, t) := resume f t w in
          set_tasks (<[i := t]> (tasks w)) w
      | None => w
      end
  end.

Definition exec (w : World) (es : list Event) : World :=
  foldl (λ w e, step e w) w es.

(** ** Part II. The vocabulary of the properties *)

(** *** Example runs of the server *)

(** The lobby of the examples: browser 0 creates it and gets the code
    001234; browser 1 has a session of its own and is not a member. *)
Definition one_lobby : World :=
  exec init [ http 0 (create_lobby_req 5 [1234%N]);
              http 1 (init_session_req 7) ].

(** A round under way in a lobby of two players: the second has sent the
    title in capitals, the host a wrong guess. *)
Definition round_under_way : World :=
  exec init [ http 0 (create_lobby_req 5 [1234%N]);
              http 1 (join_lobby_req (Some "001234") 7);
              http 0 (start_game_req (Some "001234"));
              wake 0 (fetch_track (Some "Hello") (Some "Adele") (Some "http://x"));
              http 1 (submit_guess_req (JStr "HELLO") (Some "001234"));
              http 0 (submit_guess_req (JStr "Hallo") (Some "001234")) ].

(** The same round with other guesses: the host has sent a number, the
    second player the title. *)
Definition number_for_a_guess : World :=
  exec init [ http 0 (create_lobby_req 5 [1234%N]);
              http 1 (join_lobby_req (Some "001234") 7);
              http 0 (start_game_req (Some "001234"));
              wake 0 (fetch_track (Some "Hello") (Some "Adele") (Some "http://x"));
              http 0 (submit_guess_req (JInt 12345) (Some "001234"));
              http 1 (submit_guess_req (JStr "hello") (Some "001234")) ].

(** Three players; the host, then the player who joined first, leave. *)
Definition host_leaves : list Event :=
  [ http 0 (create_lobby_req 5 [1234%N]);
    http 1 (join_lobby_req (Some "001234") 7);
    http 2 (join_lobby_req (Some "001234") 9);
    http 0 (leave_lobby_req (Some "001234")) ].

(** A whole game of one player who never guesses: ten rounds, each with
    a song at the first attempt. *)
Definition a_song : Fetch :=
  fetch_track (Some "Hello") (Some "Adele") (Some "http://x").

Definition ten_rounds : list Event :=
  [ http 0 (create_lobby_req 5 [1234%N]);
    http 0 (start_game_req (Some "001234")) ]
  ++ replicate 20 (wake 0 a_song).

(** The host starts the game, and starts it again. *)
Definition started_once : list Event :=
  [ http 0 (create_lobby_req 5 [1234%N]);
    http 0 (start_game_req (Some "001234")) ].

Definition started_twice : list Event :=
  started_once ++ [ http 0 (start_game_req (Some "001234")) ].


(** *** The session score *)

(** The calls of a run of [validate_guess] that are judged correct. *)
Definition judged_correct (call : option string * option string) : bool :=
  match call with
  | (Some g, Some c) =>
      truthy (Some g) && truthy (Some c) && is_close_match g c
  | _ => false
  end.

(** One session sends the calls of [calls], in order. *)
Definition validate_all (calls : list (option string * option string))
    (s : Session) (w : World) : Session :=
  foldl (λ s call, (validate_guess call.1 call.2 s w).1.2) s calls.

(** *** Scoring and the winner *)

(** The guess recorded for [p] is there, is a text that is not empty
    and equals the title once both are lowered. *)
Definition guess_matches (g : gmap (option string) GuessRecord)
    (title : string) (p : Player) : Prop :=
  ∃ r s, g !! Some (id p) = Some r ∧ guess r = JStr s ∧ s ≠ ""
         ∧ Text.lower s = Text.lower title.

(** The scoring loop gets as far as the player at place [i], and past
    it: no guess that it reads up to there makes line 221 raise. *)
Definition scored_up_to (g : gmap (option string) GuessRecord)
    (ps : list Player) (i : nat) : bool :=
  forallb (λ q, negb (lower_raises (player_guess_of g q))) (take (S i) ps).

(** [p], at place [i], has the highest score of [ps], and no player
    before it has as much. *)
Definition first_max (ps : list Player) (i : nat) (p : Player) : Prop :=
  ps !! i = Some p
  ∧ (∀ j q, ps !! j = Some q → (score q ≤ score p)%Z)
  ∧ (∀ j q, (j < i)%nat → ps !! j = Some q → (score q < score p)%Z).

(** The state of the scan after the players of [pre]. *)
Definition scanned (pre : list Player) (winner : option string) (h : Z) : Prop :=
  (pre = [] ∧ winner = None ∧ h = -1)
  ∨ ∃ i p, first_max pre i p ∧ winner = Some (id p) ∧ h = score p.

(** *** Lobbies *)

(** Everything but the heap and the log is as it was. *)
Definition frame (w w' : World) : Prop :=
  next_loc w' = next_loc w ∧ lobbies w' = lobbies w
  ∧ user_socket_map w' = user_socket_map w ∧ sessions w' = sessions w
  ∧ tasks w' = tasks w.

(** How many players of the list have [is_host] set. *)
Definition hosts (ps : list Player) : nat :=
  length (filter (λ p, is_host p = true) ps).

(** What holds of every lobby dict: one host if there is a player, no
    score below 0, no id twice. *)
Definition lobby_wf (lobby : Lobby) : Prop :=
  (players lobby ≠ [] → hosts (players lobby) = 1%nat)
  ∧ Forall (λ p, (0 ≤ score p)%Z) (players lobby)
  ∧ NoDup (id <$> players lobby).

(** What holds of every state of the server: the dicts are well formed,
    a code of [lobbies] names a dict with players in it, and two codes
    never name the same dict. *)
Definition world_wf (w : World) : Prop :=
  (∀ l, lobby_wf (heap w !!! l))
  ∧ (∀ c l, lobbies w !! c = Some l →
       (l < next_loc w)%nat ∧ players (heap w !!! l) ≠ [])
  ∧ (∀ c c' l, lobbies w !! c = Some l → lobbies w !! c' = Some l → c = c').

(** The writes of [run_game] keep the number of players and [lobby_wf]. *)
Definition keeps_ok (a b : Lobby) : Prop :=
  length (players b) = length (players a) ∧ (lobby_wf a → lobby_wf b).

(** What the routes and the socket handlers do to a lobby dict that is
    there already: the round counter and [max_rounds] are not written,
    and the status is left alone or set to [playing]. *)
Definition request_writes (a b : Lobby) : Prop :=
  round b = round a ∧ max_rounds b = max_rounds a
  ∧ (status b = status a ∨ status b = playing).

(** *** Tasks and the round counter *)

(** The lobby dict a call of [run_game] holds. *)
Definition held (t : Task) : option nat :=
  match t with
  | spawned _ => None
  | sleeping_retry _ l _ | sleeping_skip _ l | sleeping_round _ l _
  | sleeping_transition _ l | crashed l _ => Some l
  | returned l => l
  end.

(** No lobby dict is held by two calls of [run_game], finished calls
    included: every lobby has been started at most once. *)
Definition exclusive (w : World) : Prop := NoDup (omap held (tasks w)).

(** [exclusive] holds all along the run of [es] from [w]. *)
Fixpoint exclusive_run (w : World) (es : list Event) : Prop :=
  exclusive w
  ∧ match es with
    | [] => True
    | e :: es => exclusive_run (step e w) es
    end.

(** The same for one lobby dict: at most one call of [run_game],
    finished calls included, holds [l]; the other dicts may be held as
    often as their hosts like. *)
Definition exclusive_at (l : nat) (w : World) : Prop :=
  (length (filter (λ t, held t = Some l) (tasks w)) ≤ 1)%nat.

Fixpoint exclusive_run_at (l : nat) (w : World) (es : list Event) : Prop :=
  exclusive_at l w
  ∧ match es with
    | [] => True
    | e :: es => exclusive_run_at l (step e w) es
    end.

(** The task is inside the loop, at one of its sleeps (or died there). *)
Definition in_loop (t : Task) : Prop :=
  match t with
  | spawned _ | returned _ => False
  | _ => True
  end.

(** Where the counter of the held dict stands, by the state of the
    task. *)
Definition task_round (t : Task) (r : Z) : Prop :=
  match t with
  | spawned _ | returned None => True
  | returned (Some _) => r = 11
  | _ => (1 ≤ r ≤ 10)%Z
  end.

(** The counters are in step with the tasks: a dict that is held has
    its counter where the task stands, a dict that no task holds has it
    at 0, and [max_rounds] is 10 everywhere. *)
Definition rounds_ok (w : World) : Prop :=
  (∀ i t l, tasks w !! i = Some t → held t = Some l →
     (l < next_loc w)%nat ∧ task_round t (round (heap w !!! l)))
  ∧ (∀ l, (∀ i t, tasks w !! i = Some t → held t ≠ Some l) →
       round (heap w !!! l) = 0)
  ∧ (∀ l, max_rounds (heap w !!! l) = 10).

(** The same for the one dict [l]. *)
Definition rounds_ok_at (l : nat) (w : World) : Prop :=
  (∀ i t, tasks w !! i = Some t → held t = Some l →
     (l < next_loc w)%nat ∧ task_round t (round (heap w !!! l)))
  ∧ ((∀ i t, tasks w !! i = Some t → held t ≠ Some l) →
       round (heap w !!! l) = 0)
  ∧ max_rounds (heap w !!! l) = 10.

(** The dict a task holds once it has run its next step. *)
Definition target (t : Task) (w : World) : option nat :=
  match t with
  | spawned lobby_code => lobbies w !! lobby_code
  | _ => held t
  end.

(** *** Matching blocks *)

(** A block that lies inside the window [alo, ahi) x [blo, bhi). *)
Definition inside (alo ahi blo bhi : nat) (m : nat * nat * nat) : Prop :=
  (alo ≤ m.1.1 ∧ m.1.1 + m.2 ≤ ahi ∧ blo ≤ m.1.2 ∧ m.1.2 + m.2 ≤ bhi)%nat.

(** The entries of [j2len] when row [i] starts: lengths of matches that
    end in row [i - 1], inside the window. *)
Definition row_ok (alo blo bhi i : nat) (j2len : gmap nat nat) : Prop :=
  ∀ j k, j2len !! j = Some k →
    (blo ≤ j ∧ j < bhi ∧ k ≤ i - alo ∧ k ≤ j + 1 - blo)%nat.

(** The windows still in the queue. *)
Definition window_ok (q : nat * nat * nat * nat) : Prop :=
  (q.1.1.1 ≤ q.1.1.2 ∧ q.1.2 ≤ q.2)%nat.

(** The elements of [a], and of [b], that the windows of the queue
    cover. *)
Definition room_a (queue : list (nat * nat * nat * nat)) : nat :=
  sum_list ((λ q, q.1.1.2 - q.1.1.1)%nat <$> queue).

Definition room_b (queue : list (nat * nat * nat * nat)) : nat :=
  sum_list ((λ q, q.2 - q.1.2)%nat <$> queue).

(** Turns of the loop still to come, at most. *)
Definition turns (queue : list (nat * nat * nat * nat)) : nat :=
  sum_list ((λ q, 2 * (q.1.1.2 - q.1.1.1) + 1)%nat <$> queue).

(** The sizes of the blocks found, added up. *)
Definition size_sum (blocks : list (nat * nat * nat)) : nat :=
  sum_list (snd <$> blocks).

(** *** Player lists from one state to the next *)

(** How a route may change a player list: not at all, by one player
    appended at score 0 under an id that is not there yet, while there
    is room, or by removing the players of one id and setting the host
    flag of the first that stays. *)
Definition players_step (before after : list Player) : Prop :=
  after = before
  ∨ ((length before < 8)%nat
     ∧ (∃ uid, (uid ∉ id <$> before)
               ∧ after = before ++ [ {| id := uid; is_host := false; score := 0 |} ]))
  ∨ (∃ pid, let ps := filter (λ p, id p ≠ pid) before in
            after = (if existsb is_host ps then ps else promote_first ps)).

(** No lobby dict has more than eight players. *)
Definition lobbies_sized (w : World) : Prop :=
  ∀ l, (l < next_loc w)%nat → (length (players (heap w !!! l)) ≤ 8)%nat.

(** Every player of [after] was in [before] with a score the same or one
    lower, or is new, under an id that was not there, at score 0. *)
Definition scores_grow (before after : list Player) : Prop :=
  ∀ p', p' ∈ after →
    (∃ p, p ∈ before ∧ id p = id p'
          ∧ (score p ≤ score p' ≤ score p + 1)%Z)
    ∨ ((id p' ∉ id <$> before) ∧ score p' = 0).

(** *** The digits of a code *)

(** One of the characters 0 to 9. *)
Definition is_digit (c : ascii) : bool :=
  (48 <=? nat_of_ascii c)%nat && (nat_of_ascii c <=? 57)%nat.

(** [str.isdigit] on ASCII text, the empty text included. *)
Fixpoint all_digits (s : string) : bool :=
  match s with
  | EmptyString => true
  | String c s => is_digit c && all_digits s
  end.

(** *** Guess records and personal results *)

(** A game of one player, in its first round. *)
Definition first_round : World := exec init (started_once ++ [wake 0 a_song]).

(** The record a round starts with. *)
Definition no_guess : GuessRecord := {| guess := JNull; submitted := false |}.

(** The keys under which a player list has a record. *)
Definition guess_keys (ps : list Player) : list (option string) :=
  (λ p, Some (id p)) <$> ps.

(** The personal emits of a player list, read off the guesses. *)
Definition own_emits (usm : gmap string string) (round : Z) (title : string)
    (g : gmap (option string) GuessRecord) (ps : list Player) : list Effect :=
  omap (λ p, (λ sid,
                Emit (round_ended_personal round title (guess_result_of g title p))
                     (socket_room sid)) <$> usm !! id p) ps.

(** *** The end of a game *)

(** The dict keeps its ['guesses'] once it has them. *)
Definition keeps_guesses (a b : Lobby) : Prop :=
  is_Some (guesses a) → is_Some (guesses b).

(** What [run_game] relies on at its sleeps inside the loop: the dict it
    holds has its ['guesses']. A call that has died has died of line
    221, not of a missing key. *)
Definition ready (w : World) (t : Task) : Prop :=
  match t with
  | spawned _ | returned _ => True
  | sleeping_retry _ l _ | sleeping_skip _ l | sleeping_round _ l _
  | sleeping_transition _ l =>
      (l < next_loc w)%nat ∧ is_Some (guesses (heap w !!! l))
  | crashed l e =>
      e = AttributeError "lower"
      ∧ (l < next_loc w)%nat ∧ is_Some (guesses (heap w !!! l))
  end.

(** Every call of [run_game] is [ready]. *)
Definition tasks_ready (w : World) : Prop :=
  ∀ i t, tasks w !! i = Some t → ready w t.

(** The request carries no guess on which line 221 would raise: if it
    is a guess that [submit_guess] takes, it is a text. *)
Definition text_guess (e : Event) : Prop :=
  match e with
  | http _ (submit_guess_req guess _) => lower_raises guess = false
  | _ => True
  end.

(** No guess on record in the dict makes line 221 raise. *)
Definition texts_in (lobby : Lobby) : Prop :=
  ∀ g k r, guesses lobby = Some g → g !! k = Some r →
    lower_raises (guess r) = false.

Definition keeps_texts (a b : Lobby) : Prop := texts_in a → texts_in b.

Definition texts_only (w : World) : Prop := ∀ l, texts_in (heap w !!! l).

(** No call of [run_game] has died. *)
Definition none_died (w : World) : Prop :=
  ∀ i t, tasks w !! i = Some t →
    match t with crashed _ _ => False | _ => True end.

(** A call of [run_game] that is over: it has returned, or died of an
    exception. *)
Definition ended (t : Task) : bool :=
  match t with
  | returned _ | crashed _ _ => true
  | _ => false
  end.

(** Wake-ups a call of [run_game] still takes, at most, by where it
    sleeps and the counter [r] of its dict: four for each round still to
    come, and what is left of the present one. *)
Definition sleeps_left (t : Task) (r : Z) : nat :=
  match t with
  | spawned _ => 41
  | sleeping_retry _ _ retry_count => (3 - retry_count) + 2 + 4 * Z.to_nat (10 - r)
  | sleeping_round _ _ _ => 2 + 4 * Z.to_nat (10 - r)
  | sleeping_skip _ _ | sleeping_transition _ _ => 1 + 4 * Z.to_nat (10 - r)
  | returned _ | crashed _ _ => 0
  end.

(** The counter of the dict the task holds. *)
Definition held_round (w : World) (t : Task) : Z :=
  from_option (λ l, round (heap w !!! l)) 0 (held t).

(** The same for task [i] of a state; a call not yet made has all 41
    before it. *)
Definition sleeps_left_of (w : World) (i : nat) : nat :=
  from_option (λ t, sleeps_left t (held_round w t)) 41%nat (tasks w !! i).

(** The event wakes task [i]. *)
Definition is_wake_of (i : nat) (e : Event) : bool :=
  match e with
  | wake j _ => bool_decide (j = i)
  | _ => false
  end.

(** How often task [i] is woken in [es]. *)
Definition wakes_of (i : nat) (es : list Event) : nat :=
  length (filter (λ e, is_wake_of i e = true) es).

(** The game of [started_once] when every request for a song fails. *)
Definition no_songs : list Event := replicate 41 (wake 0 fetch_error).

(** *** What is left of a title, and what the clients are told *)

(** A text of whitespace only. *)
Fixpoint all_space (s : string) : bool :=
  match s with
  | EmptyString => true
  | String c r => Text.is_space c && all_space r
  end.

(** No whitespace at either end. *)
Definition trimmed (s : string) : Prop :=
  ∀ c, head (list_ascii_of_string s) = Some c
       ∨ last (list_ascii_of_string s) = Some c →
       Text.is_space c = false.

(** A capital letter of Latin-1: A to Z, and U+00C0 to U+00DE but for
    the multiplication sign. *)
Definition capital (c : ascii) : bool :=
  let n := nat_of_ascii c in
  ((65 <=? n)%nat && (n <=? 90)%nat)
  || ((192 <=? n)%nat && (n <=? 222)%nat && negb (n =? 215)%nat).

(** No capital letter anywhere. *)
Definition lowered (s : string) : Prop :=
  Forall (λ c, capital c = false) (list_ascii_of_string s).

(** How [str.lower] moves one character: a capital goes up by 32, any
    other character stays. *)
Definition lowering (c d : ascii) : Prop :=
  d = if capital c then ascii_of_nat (nat_of_ascii c + 32) else c.

(** No opening parenthesis; no closing one; no whitespace at the end. *)
Definition no_open (s : string) : Prop :=
  Forall (λ c, c ≠ "("%char) (list_ascii_of_string s).

Definition no_close (s : string) : Prop :=
  Forall (λ c, c ≠ ")"%char) (list_ascii_of_string s).

Definition no_space_last (s : string) : Prop :=
  ∀ c, last (list_ascii_of_string s) = Some c → Text.is_space c = false.

(** No match of the pattern starts anywhere in [s]. *)
Fixpoint no_parens (s : string) : Prop :=
  match s with
  | EmptyString => True
  | String c r => Text.match_paren s = None ∧ no_parens r
  end.

(** What may stand in the log: a round announced is one of the ten, with
    its 30 seconds; a personal result goes to one socket; the round
    announced as next is one of the second to the tenth, after 5
    seconds; and [run_game] sleeps 1, 5 or 30 seconds. *)
Definition announced (e : Effect) : Prop :=
  match e with
  | Emit (round_started r d _) room | Emit (round_started_error r d _) room =>
      (1 ≤ r ≤ 10)%Z ∧ d = 30 ∧ ∃ code, room = lobby_room code
  | Emit (round_ended_personal r _ _) room =>
      (1 ≤ r ≤ 10)%Z ∧ ∃ sid, room = socket_room sid
  | Emit (round_transition next d) room =>
      from_option (λ n, 2 ≤ n ≤ 10)%Z True next ∧ d = 5
      ∧ ∃ code, room = lobby_room code
  | Sleep seconds => seconds = 1 ∨ seconds = 5 ∨ seconds = 30
  | _ => True
  end.

(** ** Part III. Properties *)

(** *** The single-shot validation route and its session score *)

Lemma validate_guess_score guess correct_song s w :
  default 0 (session_score (validate_guess guess correct_song s w).1.2)
  = default 0 (session_score s)
    + (if judged_correct (guess, correct_song) then 1 else 0).
Proof.
  unfold validate_guess, judged_correct.
  destruct guess as [[|a g]|], correct_song as [[|b c]|]; simpl; try lia.
  destruct (is_close_match _ _); simpl; lia.
Qed.

Lemma validate_all_score calls : ∀ s w,
  default 0 (session_score (validate_all calls s w))
  = default 0 (session_score s)
    + Z.of_nat (length (filter (λ c, judged_correct c = true) calls)).
Proof.
  induction calls as [|[g c] calls IH]; intros s w.
  - simpl. lia.
  - unfold validate_all in *. cbn [foldl]. rewrite IH.
    cbn [fst snd]. rewrite validate_guess_score.
    rewrite filter_cons. destruct (decide (judged_correct (g, c) = true)) as [E|E].
    + rewrite E. cbn [length]. lia.
    + apply not_true_is_false in E. rewrite E. lia.
Qed.

(** C10. [validate_guess] keeps a score in the session: a call with both
    fields present answers [correct] as [is_close_match] judges and a
    [score] equal to the score the session holds after the call, which
    is the one before (0 when the session has none) plus one when the
    guess was judged correct and unchanged otherwise; a call with a
    missing field answers 400 and leaves the session alone; over any run
    of calls the score grows by the number of calls judged correct; and
    [reset_score] stores and answers 0. *)
Theorem validate_guess_session_score :
  (∀ a g b c s w,
     let guess := String a g in
     let correct_song := String b c in
     let before := default 0 (session_score s) in
     let after := if is_close_match guess correct_song then before + 1 else before in
     validate_guess (Some guess) (Some correct_song) s w
     = (Return (validate_ok (is_close_match guess correct_song) after),
        {| user_id := user_id s; session_score := Some after |}, w))
  ∧ (∀ guess correct_song s w,
       truthy guess && truthy correct_song = false →
       validate_guess guess correct_song s w
       = (Return (error 400 "Missing guess or song data"), s, w))
  ∧ (∀ calls s w,
       default 0 (session_score (validate_all calls s w))
       = default 0 (session_score s)
         + Z.of_nat (length (filter (λ c, judged_correct c = true) calls)))
  ∧ (∀ s w,
       reset_score s w
       = (Return (reset_ok 0),
          {| user_id := user_id s; session_score := Some 0 |}, w)).
Proof.
  split; [|split; [|split]].
  - intros. reflexivity.
  - intros guess correct_song s w E. unfold validate_guess. by rewrite E.
  - intros. apply validate_all_score.
  - reflexivity.
Qed.

Lemma validate_guess_session_score_witness :
  validate_guess (Some "") (Some "Hello") empty_session init
  = (Return (error 400 "Missing guess or song data"), empty_session, init).
Proof.
  apply (proj1 (proj2 validate_guess_session_score)). reflexivity.
Defined.

(** *** Requests against a lobby *)

Lemma lookup_code code (w : World) l :
  truthy (Some code) = true → lobbies w !! code = Some l →
  (if truthy (Some code)
   then Some code ≫= λ c, pair c <$> lobbies w !! c else None)
  = Some (code, l).
Proof. intros -> E. simpl. by rewrite E. Qed.

(** C9. [submit_guess] on a lobby whose game has not started: the dict
    made by [create_lobby] has no key ['guesses'], and the lookup
    [lobby['guesses']] of line 371 raises [KeyError] where the claim
    wants a structured failure. Nothing is written before the raise. *)
Theorem submit_guess_before_start_raises :
  status (heap one_lobby !!! O) = waiting
  ∧ round (heap one_lobby !!! O) = 0
  ∧ lobbies one_lobby !! "001234" = Some O
  ∧ submit_guess (JStr "Hello") (Some "001234") (session_of one_lobby 0) one_lobby
    = (Raise (KeyError "guesses"), session_of one_lobby 0, one_lobby).
Proof. by vm_compute. Qed.

(** The same for every lobby in that state. *)
Lemma submit_guess_without_guesses guess code l s (w : World) :
  truthy_json guess = true → truthy (Some code) = true →
  lobbies w !! code = Some l → guesses (heap w !!! l) = None →
  submit_guess guess (Some code) s w = (Raise (KeyError "guesses"), s, w).
Proof.
  intros Hg Hc Hl Hn. unfold submit_guess. rewrite Hg, Hc. simpl.
  rewrite Hl. simpl. by rewrite Hn.
Qed.

(** C8, as the spec has it, fails: a browser with a session that is not
    a member of the lobby leaves it and is answered [{'success': True}];
    no player is removed. *)
Lemma leave_lobby_by_stranger_succeeds :
  user_id (session_of one_lobby 1) = Some "10007"
  ∧ (id <$> players (heap one_lobby !!! O)) = ["10005"]
  ∧ (leave_lobby (Some "001234") (session_of one_lobby 1) one_lobby).1.1
    = Return success_ok
  ∧ players (heap (leave_lobby (Some "001234") (session_of one_lobby 1)
                               one_lobby).2 !!! O)
    = players (heap one_lobby !!! O).
Proof. by vm_compute. Qed.

Lemma filter_id_ne_length (pid : string) (ps : list Player) :
  pid ∈ id <$> ps → NoDup (id <$> ps) →
  S (length (filter (λ p, id p ≠ pid) ps)) = length ps.
Proof.
  induction ps as [|p ps IH]; intros Hin Hnd.
  - by apply elem_of_nil in Hin.
  - rewrite fmap_cons in Hin, Hnd. apply NoDup_cons in Hnd as [Hp Hnd].
    rewrite filter_cons. destruct (decide (id p ≠ pid)) as [Hne|Heq].
    + cbn [length]. f_equal. apply IH; [|done].
      apply elem_of_cons in Hin as [->|Hin]; [done|done].
    + apply dec_stable in Heq. subst pid. cbn [length]. f_equal.
      clear IH Hin Hnd. induction ps as [|q ps IH]; [done|].
      rewrite fmap_cons in Hp. apply not_elem_of_cons in Hp as [Hq Hp].
      rewrite filter_cons.
      destruct (decide (id q ≠ id p)) as [|Hn]; [|by destruct Hn].
      cbn [length]. f_equal. by apply IH.
Qed.

Lemma promote_first_ids ps : id <$> promote_first ps = id <$> ps.
Proof. by destruct ps. Qed.

Lemma ids_filter (pid : string) (ps : list Player) :
  id <$> filter (λ p, id p ≠ pid) ps = filter (λ i, i ≠ pid) (id <$> ps).
Proof.
  induction ps as [|p ps IH]; [done|].
  rewrite fmap_cons, !filter_cons.
  destruct (decide (id p ≠ pid)); [|done].
  rewrite fmap_cons. by f_equal.
Qed.

(** What [leave_lobby] leaves in the dict it was called on. *)
Lemma leave_lobby_players code l pid s (w : World) :
  truthy (Some code) = true → lobbies w !! code = Some l →
  user_id s = Some pid →
  let ps := filter (λ p, id p ≠ pid) (players (heap w !!! l)) in
  (leave_lobby (Some code) s w).1 = (Return success_ok, s)
  ∧ players (heap (leave_lobby (Some code) s w).2 !!! l)
    = if existsb is_host ps then ps else promote_first ps.
Proof.
  intros Hc Hl Hu ps. unfold leave_lobby.
  rewrite (lookup_code _ _ _ Hc Hl), Hu. fold ps.
  destruct ps as [|p ps'] eqn:E.
  - simpl. split; [done|]. by rewrite lookup_total_insert_eq.
  - cbn [fst snd]. split; [done|].
    unfold perform, set_lobby, set_user_socket_map. cbn [heap].
    by rewrite !lookup_total_insert_eq.
Qed.

(** C8, amended. On a live code, [leave_lobby] answers 400 (Not in a
    lobby) to a session without [user_id], and changes nothing. A member
    of the lobby who leaves is answered success and exactly one player
    is removed, the one with the member's id, the ids of a lobby being
    distinct; the others stay, in their order. *)
Theorem leave_lobby_removes code l s (w : World) :
  truthy (Some code) = true → lobbies w !! code = Some l →
  match user_id s with
  | None =>
      leave_lobby (Some code) s w = (Return (error 400 "Not in a lobby"), s, w)
  | Some pid =>
      let before := players (heap w !!! l) in
      let after := players (heap (leave_lobby (Some code) s w).2 !!! l) in
      pid ∈ id <$> before → NoDup (id <$> before) →
      (leave_lobby (Some code) s w).1 = (Return success_ok, s)
      ∧ S (length after) = length before
      ∧ id <$> after = filter (λ i, i ≠ pid) (id <$> before)
  end.
Proof.
  intros Hc Hl. destruct (user_id s) as [pid|] eqn:Hu.
  - destruct (leave_lobby_players code l pid s w Hc Hl Hu) as [Ho Hp].
    cbv zeta. rewrite Hp. intros Hin Hnd. split; [done|].
    set (ps := filter (λ p, id p ≠ pid) (players (heap w !!! l))).
    split.
    + replace (length (if existsb is_host ps then ps else promote_first ps))
        with (length ps)
        by (destruct (existsb is_host ps); [done|by destruct ps]).
      by apply filter_id_ne_length.
    + replace (id <$> (if existsb is_host ps then ps else promote_first ps))
        with (id <$> ps)
        by (destruct (existsb is_host ps); [done|by rewrite promote_first_ids]).
      apply ids_filter.
  - unfold leave_lobby. rewrite (lookup_code _ _ _ Hc Hl), Hu. done.
Qed.

Lemma leave_lobby_removes_witness :
  (leave_lobby (Some "001234") (session_of one_lobby 0) one_lobby).1
  = (Return success_ok, session_of one_lobby 0)
  ∧ S (length (players (heap (leave_lobby (Some "001234")
                   (session_of one_lobby 0) one_lobby).2 !!! O)))
    = length (players (heap one_lobby !!! O)).
Proof.
  pose proof (leave_lobby_removes "001234" O (session_of one_lobby 0) one_lobby
                eq_refl) as H.
  assert (Hl : lobbies one_lobby !! "001234" = Some O) by (by vm_compute).
  specialize (H Hl).
  change (user_id (session_of one_lobby 0)) with (Some "10005") in H.
  cbv zeta in H.
  assert (Hin : "10005" ∈ id <$> players (heap one_lobby !!! O))
    by (vm_compute; apply list_elem_of_here).
  assert (Hnd : NoDup (id <$> players (heap one_lobby !!! O)))
    by (vm_compute; apply NoDup_singleton).
  destruct (H Hin Hnd) as (Ho & Hrm & _). by split.
Defined.

(** *** The scoring step of a round *)

Lemma heap_perform_all es : ∀ w : World,
  heap (foldl (λ w e, perform e w) w es) = heap w.
Proof. induction es as [|e es IH]; intros w; [done|]. simpl. by rewrite IH. Qed.

Lemma log_perform_all es : ∀ w : World,
  log (foldl (λ w e, perform e w) w es) = log w ++ es.
Proof.
  induction es as [|e es IH]; intros w; simpl.
  - by rewrite app_nil_r.
  - rewrite IH. simpl. by rewrite <- app_assoc.
Qed.

Lemma is_correct_iff g title p :
  is_correct (player_guess_of g p) title = true ↔ guess_matches g title p.
Proof.
  unfold is_correct, player_guess_of, guess_matches. split.
  - destruct (g !! Some (id p)) as [r|] eqn:Hr; simpl; [|done].
    destruct (guess r) as [| | | |[|c s]| |] eqn:Hs; simpl; try done;
      try (by rewrite andb_false_r).
    intros H%bool_decide_eq_true. by exists r, (String c s).
  - intros (r & s & -> & Hs & Hne & Hlow). simpl. rewrite Hs.
    destruct s as [|c s]; [done|]. simpl. by apply bool_decide_eq_true.
Qed.

(** The loop keeps the length of the list, and leaves the player at
    place [i] scored if it got that far, as it was if it did not. *)
Lemma score_players_lookup g title ps :
  length (score_players (Some g) title ps).1 = length ps
  ∧ ∀ i p, ps !! i = Some p →
      (score_players (Some g) title ps).1 !! i
      = Some (if scored_up_to g ps i then score_player g title p else p).
Proof.
  unfold scored_up_to. induction ps as [|q ps [IHl IH]]; [done|].
  cbn [score_players].
  destruct (lower_raises (player_guess_of g q)) eqn:Eq.
  - split; [done|]. intros i p Hp. cbn [take forallb]. by rewrite Eq.
  - destruct (score_players (Some g) title ps) as [rest raised] eqn:E.
    cbn [fst] in *. split; [cbn [length]; by rewrite IHl|].
    intros [|i] p Hp; cbn [take forallb]; rewrite Eq; cbn [negb andb].
    + injection Hp as ->. by destruct ps.
    + by apply IH.
Qed.

(** It raises exactly when some guess it reads makes line 221 raise,
    and then it is [AttributeError]. *)
Lemma score_players_raised g title ps :
  (score_players (Some g) title ps).2
  = if forallb (λ q, negb (lower_raises (player_guess_of g q))) ps
    then None else Some (AttributeError "lower").
Proof.
  induction ps as [|q ps IH]; [done|]. cbn [score_players forallb].
  destruct (lower_raises (player_guess_of g q)); [done|].
  destruct (score_players (Some g) title ps) as [rest raised].
  cbn [snd negb andb] in *. done.
Qed.

Lemma no_raise_Forall g (ps : list Player) :
  forallb (λ q, negb (lower_raises (player_guess_of g q))) ps = true
  ↔ Forall (λ p, lower_raises (player_guess_of g p) = false) ps.
Proof.
  induction ps as [|p ps IH]; [done|]. cbn [forallb].
  rewrite andb_true_iff, negb_true_iff, Forall_cons. by rewrite IH.
Qed.

Lemma score_players_text g title ps :
  forallb (λ q, negb (lower_raises (player_guess_of g q))) ps = true →
  score_players (Some g) title ps = (score_player g title <$> ps, None).
Proof.
  induction ps as [|q ps IH]; [done|]. cbn [score_players forallb].
  intros [Hq Hps]%andb_true_iff. apply negb_true_iff in Hq. rewrite Hq.
  by rewrite (IH Hps).
Qed.

Lemma close_round_heap lobby_code l song_data (w : World) :
  heap (close_round lobby_code l song_data w).1
  = <[l := set_players
            (score_players (guesses (heap w !!! l)) (song song_data)
                           (players (heap w !!! l))).1
            (heap w !!! l)]> (heap w).
Proof.
  unfold close_round.
  destruct (score_players _ _ _) as [ps [e|]]; cbn [fst]; [done|].
  unfold perform at 1 2. cbn [heap]. by rewrite heap_perform_all.
Qed.

Lemma close_round_players lobby_code l song_data (w : World) :
  players (heap (close_round lobby_code l song_data w).1 !!! l)
  = (score_players (guesses (heap w !!! l)) (song song_data)
                   (players (heap w !!! l))).1.
Proof. by rewrite close_round_heap, lookup_total_insert_eq. Qed.

(** X17. When the 30 seconds of a round are over, [run_game] goes through
    the players then in the list, in order: each keeps its place, its id
    and its host flag. As long as no guess read so far is a value other
    than a text, the score goes up by exactly 1 if the guess recorded
    under the id is present, non-empty and equal to the title of the
    song when both are lowered, and stays as it was in every other
    case. From the first player whose guess is a true value that is not
    a text, every player is left as it was, and the call dies there of
    [AttributeError]; it goes on to the pause of 5 seconds exactly when
    there is no such player. *)
Theorem round_scoring f lobby_code l song_data (w : World) g :
  guesses (heap w !!! l) = Some g →
  let before := players (heap w !!! l) in
  let after :=
    players (heap (resume f (sleeping_round lobby_code l song_data) w).1 !!! l) in
  length after = length before
  ∧ (∀ i p, before !! i = Some p →
      ∃ p', after !! i = Some p' ∧ id p' = id p ∧ is_host p' = is_host p
            ∧ (scored_up_to g before i = true →
                 (guess_matches g (song song_data) p → score p' = score p + 1)
                 ∧ (¬ guess_matches g (song song_data) p → score p' = score p))
            ∧ (scored_up_to g before i = false → p' = p))
  ∧ (resume f (sleeping_round lobby_code l song_data) w).2
    = if forallb (λ q, negb (lower_raises (player_guess_of g q))) before
      then sleeping_transition lobby_code l
      else crashed l (AttributeError "lower").
Proof.
  intros Hg before after. subst before after. cbn [resume].
  rewrite close_round_players, Hg.
  destruct (score_players_lookup g (song song_data) (players (heap w !!! l)))
    as [Hlen Hat].
  split; [done|]. split.
  - intros i p Hp. rewrite (Hat i p Hp).
    destruct (scored_up_to g (players (heap w !!! l)) i).
    + exists (score_player g (song song_data) p). split; [done|].
      unfold score_player.
      destruct (is_correct (player_guess_of g p) (song song_data)) eqn:E.
      * apply is_correct_iff in E. cbn [id is_host score]. by repeat split.
      * repeat split; try done. intros Hm%is_correct_iff. congruence.
    + exists p. by repeat split.
  - pose proof (score_players_raised g (song song_data)
                  (players (heap w !!! l))) as Hr.
    unfold close_round. rewrite Hg.
    destruct (score_players _ _ _) as [ps raised]. cbn [snd] in Hr. subst raised.
    by destruct (forallb _ _).
Qed.

Lemma round_scoring_witness :
  score <$> players (heap round_under_way !!! O) = [0; 0]
  ∧ score <$> players (heap (resume fetch_error
        (sleeping_round "001234" O
           {| song := "Hello"; artist := "Adele"; audio_url := "http://x" |})
        round_under_way).1 !!! O) = [0; 1]
  ∧ length (players (heap (resume fetch_error
        (sleeping_round "001234" O
           {| song := "Hello"; artist := "Adele"; audio_url := "http://x" |})
        round_under_way).1 !!! O))
    = length (players (heap round_under_way !!! O)).
Proof.
  split; [by vm_compute|]. split; [by vm_compute|].
  assert (Hg : guesses (heap round_under_way !!! O)
               = Some (<[Some "10005" := {| guess := JStr "Hallo"; submitted := true |}]>
                        (<[Some "10007" := {| guess := JStr "HELLO"; submitted := true |}]> ∅))).
  { vm_compute. reflexivity. }
  exact (proj1 (round_scoring fetch_error "001234" O
    {| song := "Hello"; artist := "Adele"; audio_url := "http://x" |}
    round_under_way _ Hg)).
Defined.

(** C1. The scoring of a round does not reach every player. In
    [number_for_a_guess] the host has sent the number 12345 as its
    guess, which [submit_guess] took with a 200, and the second player
    has sent the title: the scoring loop dies of [AttributeError] at
    the host ([12345.lower()], line 221), the second player, whose
    guess matches, is never scored, nothing is emitted, and the call of
    [run_game] is dead: waking it again does nothing. *)
Theorem number_guess_stops_the_scoring :
  let w := number_for_a_guess in
  let w' := step (wake 0 a_song) w in
  tasks w = [sleeping_round "001234" O
               {| song := "Hello"; artist := "Adele"; audio_url := "http://x" |}]
  ∧ (id <$> players (heap w !!! O)) = ["10005"; "10007"]
  ∧ log w
    = [ Respond 0 (Return (lobby_ok "001234" true));
        Emit (player_joined "10007") (lobby_room "001234");
        Respond 1 (Return (lobby_ok "001234" false));
        Emit game_started (lobby_room "001234");
        Respond 0 (Return success_ok);
        Emit (round_started 1 30
                {| song := "Hello"; artist := "Adele"; audio_url := "http://x" |})
             (lobby_room "001234");
        Sleep 30;
        Emit (player_guessed (Some "10005")) (lobby_room "001234");
        Respond 0 (Return guess_ok);
        Emit (player_guessed (Some "10007")) (lobby_room "001234");
        Respond 1 (Return guess_ok) ]
  ∧ (∃ g, guesses (heap w !!! O) = Some g
          ∧ player_guess_of g {| id := "10005"; is_host := true; score := 0 |}
            = JInt 12345
          ∧ guess_matches g "Hello"
              {| id := "10007"; is_host := false; score := 0 |})
  ∧ tasks w' = [crashed O (AttributeError "lower")]
  ∧ players (heap w' !!! O) = players (heap w !!! O)
  ∧ (score <$> players (heap w' !!! O)) = [0; 0]
  ∧ log w' = log w
  ∧ exec w' (replicate 3 (wake 0 a_song)) = w'.
Proof.
  cbv zeta. split; [by vm_compute|]. split; [by vm_compute|].
  split; [by vm_compute|]. split.
  - exists (<[Some "10007" := {| guess := JStr "hello"; submitted := true |}]>
              (<[Some "10005" := {| guess := JInt 12345; submitted := true |}]> ∅)).
    split; [vm_compute; reflexivity|]. split; [by vm_compute|].
    exists {| guess := JStr "hello"; submitted := true |}, "hello".
    split; [by vm_compute|]. split; [done|]. split; [done|by vm_compute].
  - split; [by vm_compute|]. split; [by vm_compute|]. split; [by vm_compute|].
    split; by vm_compute.
Qed.

(** *** What a step of the scheduler touches *)

Ltac unfold_world :=
  unfold perform, set_lobby, set_lobbies, set_user_socket_map, set_sessions,
    set_tasks, new_lobby in *;
  cbn [heap next_loc lobbies user_socket_map sessions tasks log fst snd] in *.

Lemma frame_refl w : frame w w.
Proof. by repeat split. Qed.

Lemma frame_trans w1 w2 w3 : frame w1 w2 → frame w2 w3 → frame w1 w3.
Proof.
  intros (?&?&?&?&?) (?&?&?&?&?). repeat split; congruence.
Qed.

Lemma frame_perform e w : frame w (perform e w).
Proof. by repeat split. Qed.

Lemma frame_set_lobby l lobby w : frame w (set_lobby l lobby w).
Proof. by repeat split. Qed.

Lemma frame_perform_all es : ∀ w : World,
  frame w (foldl (λ w e, perform e w) w es).
Proof.
  induction es as [|e es IH]; intros w; [apply frame_refl|].
  cbn [foldl]. eapply frame_trans; [apply frame_perform|apply IH].
Qed.

Ltac frame_steps :=
  repeat first
    [ apply frame_refl
    | (eapply frame_trans; [|apply frame_perform])
    | (eapply frame_trans; [|apply frame_set_lobby])
    | (eapply frame_trans; [|apply frame_perform_all]) ].

Lemma frame_retry_loop lobby_code l n f w :
  frame w (retry_loop lobby_code l n f w).1.
Proof.
  unfold retry_loop, open_round, skip_round.
  repeat case_match; cbn [fst]; frame_steps.
Qed.

Lemma frame_loop_head lobby_code l f w :
  frame w (loop_head lobby_code l f w).1.
Proof.
  unfold loop_head, end_game. case_match; cbn [fst].
  - eapply frame_trans; [apply frame_set_lobby|apply frame_retry_loop].
  - frame_steps.
Qed.

(** [run_game] writes into the lobby dict it holds and into the log, and
    nowhere else. *)
Lemma resume_frame f t w : frame w (resume f t w).1.
Proof.
  destruct t; cbn [resume]; try apply frame_refl.
  - case_match; [|apply frame_refl].
    eapply frame_trans; [apply frame_set_lobby|apply frame_loop_head].
  - apply frame_retry_loop.
  - eapply frame_trans; [apply frame_set_lobby|apply frame_loop_head].
  - unfold close_round. destruct (score_players _ _ _) as [ps [e|]];
      cbn [fst]; frame_steps.
  - eapply frame_trans; [apply frame_set_lobby|apply frame_loop_head].
Qed.
Section Footprint.
(** A relation between a lobby dict before and after, closed under the
    writes of [run_game]. *)
Variable R : Lobby → Lobby → Prop.
Hypothesis R_refl : ∀ lobby, R lobby lobby.
Hypothesis R_trans : ∀ a b c, R a b → R b c → R a c.
Hypothesis R_round : ∀ lobby r, R lobby (set_round r lobby).
Hypothesis R_guesses : ∀ lobby ps,
  R lobby (set_guesses (fresh_guesses ps) lobby).
Hypothesis R_song : ∀ lobby s, R lobby (set_current_song s lobby).
Hypothesis R_score : ∀ lobby g title,
  R lobby (set_players (score_players g title (players lobby)).1 lobby).

Lemma R_insert (w : World) l l' lobby :
  R (heap w !!! l) lobby → R (heap w !!! l') (<[l := lobby]> (heap w) !!! l').
Proof using R_refl.
  intros H. destruct (decide (l = l')) as [->|Hne].
  - by rewrite lookup_total_insert_eq.
  - by rewrite lookup_total_insert_ne.
Qed.

Lemma retry_loop_heap_R lobby_code l n f (w : World) l' :
  R (heap w !!! l') (heap (retry_loop lobby_code l n f w).1 !!! l').
Proof using R_refl R_song.
  unfold retry_loop, open_round, skip_round.
  repeat case_match; unfold_world; try apply R_refl.
  apply R_insert, R_song.
Qed.

Lemma loop_head_heap_R lobby_code l f (w : World) l' :
  R (heap w !!! l') (heap (loop_head lobby_code l f w).1 !!! l').
Proof using R_refl R_trans R_song R_guesses.
  unfold loop_head. case_match.
  - eapply R_trans; [|apply retry_loop_heap_R].
    unfold_world. apply R_insert, R_guesses.
  - unfold end_game. unfold_world. apply R_refl.
Qed.

Lemma resume_heap_R f t (w : World) l' :
  R (heap w !!! l') (heap (resume f t w).1 !!! l').
Proof using All.
  destruct t; cbn [resume]; try apply R_refl.
  - case_match; [|apply R_refl].
    eapply R_trans; [|apply loop_head_heap_R].
    unfold_world. apply R_insert, R_round.
  - apply retry_loop_heap_R.
  - eapply R_trans; [|apply loop_head_heap_R].
    unfold next_round. unfold_world. apply R_insert, R_round.
  - rewrite close_round_heap. apply R_insert, R_score.
  - eapply R_trans; [|apply loop_head_heap_R].
    unfold next_round. unfold_world. apply R_insert, R_round.
Qed.

End Footprint.

(** *** Invariants of the lobbies *)

Lemma lookup_code_inv code (w : World) c l :
  (if truthy code then code ≫= λ c, pair c <$> lobbies w !! c else None)
  = Some (c, l) →
  code = Some c ∧ lobbies w !! c = Some l.
Proof.
  destruct code as [[|a s]|]; simpl; try done.
  destruct (lobbies w !! String a s) as [l0|] eqn:E; simpl; [|done].
  intros [= <- <-]. done.
Qed.

Lemma hosts_cons p ps :
  hosts (p :: ps) = ((if is_host p then 1 else 0) + hosts ps)%nat.
Proof.
  unfold hosts. rewrite filter_cons.
  destruct (is_host p); by case_decide.
Qed.

Lemma hosts_app ps qs : hosts (ps ++ qs) = (hosts ps + hosts qs)%nat.
Proof. unfold hosts. by rewrite filter_app, length_app. Qed.

Lemma hosts_filter (P : Player → Prop) `{∀ p, Decision (P p)} ps :
  (hosts (filter P ps) ≤ hosts ps)%nat.
Proof.
  induction ps as [|p ps IH]; [done|].
  rewrite filter_cons. case_decide; rewrite !hosts_cons; lia.
Qed.

Lemma hosts_existsb ps : existsb is_host ps = false ↔ hosts ps = 0%nat.
Proof.
  induction ps as [|p ps IH]; [done|].
  rewrite hosts_cons. simpl. destruct (is_host p); simpl; [done|].
  by rewrite IH.
Qed.

Lemma hosts_promote_first ps :
  ps ≠ [] → hosts ps = 0%nat → hosts (promote_first ps) = 1%nat.
Proof.
  destruct ps as [|p ps]; [done|]. intros _. simpl.
  rewrite !hosts_cons. simpl. destruct (is_host p); lia.
Qed.

Lemma hosts_score_player g title (ps : list Player) :
  hosts (score_player g title <$> ps) = hosts ps.
Proof.
  induction ps as [|p ps IH]; [done|].
  rewrite fmap_cons, !hosts_cons, IH. unfold score_player.
  by destruct (is_correct _ _).
Qed.

Lemma ids_score_player g title (ps : list Player) :
  id <$> (score_player g title <$> ps) = id <$> ps.
Proof.
  rewrite <- list_fmap_compose. apply list_fmap_ext.
  intros i p _. simpl. unfold score_player. by destruct (is_correct _ _).
Qed.

(** The scoring loop scores the first [k] players and leaves the rest. *)
Lemma score_players_split og title (ps : list Player) :
  ∃ k, (score_players og title ps).1
       = (score_player (default ∅ og) title <$> take k ps) ++ drop k ps.
Proof.
  induction ps as [|p ps [k IH]]; [by exists O|]. cbn [score_players].
  destruct og as [g|]; [|by exists O].
  destruct (lower_raises (player_guess_of g p)); [by exists O|].
  destruct (score_players (Some g) title ps) as [rest raised].
  cbn [fst default] in *. exists (S k). by rewrite IH.
Qed.

Lemma hosts_score_players og title (ps : list Player) :
  hosts (score_players og title ps).1 = hosts ps.
Proof.
  destruct (score_players_split og title ps) as [k ->].
  rewrite hosts_app, hosts_score_player, <- hosts_app. by rewrite take_drop.
Qed.

Lemma ids_score_players og title (ps : list Player) :
  id <$> (score_players og title ps).1 = id <$> ps.
Proof.
  destruct (score_players_split og title ps) as [k ->].
  rewrite fmap_app, ids_score_player, <- fmap_app. by rewrite take_drop.
Qed.

Lemma length_score_players og title (ps : list Player) :
  length (score_players og title ps).1 = length ps.
Proof.
  rewrite <- (length_fmap id (score_players og title ps).1), ids_score_players.
  by rewrite length_fmap.
Qed.

Lemma lobby_wf_hosts_le lobby :
  lobby_wf lobby → (hosts (players lobby) ≤ 1)%nat.
Proof.
  intros (Hh & _). destruct (players lobby) as [|p ps] eqn:E; [unfold hosts; simpl; lia|].
  rewrite Hh; [lia|done].
Qed.

Lemma resume_keeps_ok f t (w : World) l :
  keeps_ok (heap w !!! l) (heap (resume f t w).1 !!! l).
Proof.
  apply resume_heap_R; unfold keeps_ok; try done.
  - intros a b c [? ?] [? ?]. split; [congruence|tauto].
  - intros lobby g title. cbn [set_players players]. split.
    + apply length_score_players.
    + unfold lobby_wf, set_players. cbn [players]. intros (Hh & Hs & Hn).
      rewrite hosts_score_players, ids_score_players. split; [|split; [|done]].
      * intros Hne. apply Hh. intros E. by rewrite E in Hne.
      * destruct (score_players_split g title (players lobby)) as [k ->].
        rewrite <- (take_drop k (players lobby)) in Hs.
        apply Forall_app in Hs as [Hs1 Hs2]. apply Forall_app. split; [|done].
        apply Forall_fmap. eapply Forall_impl; [exact Hs1|].
        intros p Hp. cbv beta in Hp. unfold compose, score_player.
        destruct (is_correct _ title); cbn [score]; lia.
Qed.

Lemma world_wf_ext (w w' : World) :
  heap w' = heap w → next_loc w' = next_loc w → lobbies w' = lobbies w →
  world_wf w → world_wf w'.
Proof. unfold world_wf. intros -> -> ->. done. Qed.

(** One dict named in [lobbies] is overwritten. *)
Lemma world_wf_update (w w' : World) l lobby :
  world_wf w → heap w' = <[l := lobby]> (heap w) →
  next_loc w' = next_loc w → lobbies w' = lobbies w →
  lobby_wf lobby → (players (heap w !!! l) ≠ [] → players lobby ≠ []) →
  world_wf w'.
Proof.
  intros (Hl & Hc & Hi) Hh Hn Hm Hok Hne. unfold world_wf.
  rewrite Hh, Hn, Hm. split; [|split; [|done]].
  - intros l'. destruct (decide (l = l')) as [->|Hd].
    + by rewrite lookup_total_insert_eq.
    + rewrite lookup_total_insert_ne by done. apply Hl.
  - intros c l' Hcl. destruct (Hc c l' Hcl) as [Hlt Hp]. split; [done|].
    destruct (decide (l = l')) as [->|Hd].
    + rewrite lookup_total_insert_eq. by apply Hne.
    + by rewrite lookup_total_insert_ne.
Qed.

(** The dict named by [c] is emptied and [c] is deleted. *)
Lemma world_wf_remove (w w' : World) c l lobby :
  world_wf w → lobbies w !! c = Some l →
  heap w' = <[l := lobby]> (heap w) → next_loc w' = next_loc w →
  lobbies w' = delete c (lobbies w) → lobby_wf lobby → world_wf w'.
Proof.
  intros (Hl & Hc & Hi) Hcl Hh Hn Hm Hok. unfold world_wf.
  rewrite Hh, Hn, Hm. split; [|split].
  - intros l'. destruct (decide (l = l')) as [->|Hd].
    + by rewrite lookup_total_insert_eq.
    + rewrite lookup_total_insert_ne by done. apply Hl.
  - intros c' l' Hcl'. apply lookup_delete_Some in Hcl' as [Hne Hcl'].
    destruct (Hc c' l' Hcl') as [Hlt Hp]. split; [done|].
    rewrite lookup_total_insert_ne; [done|].
    intros <-. apply Hne. by apply (Hi c c' l).
  - intros c1 c2 l' H1 H2.
    apply lookup_delete_Some in H1 as [_ H1].
    apply lookup_delete_Some in H2 as [_ H2]. by apply (Hi c1 c2 l').
Qed.

Lemma init_ok : world_wf init.
Proof.
  split; [|split]; try done.
  intros l. unfold init. cbn [heap]. rewrite lookup_total_empty.
  split; [done|]. split; [apply Forall_nil_2|apply NoDup_nil_2].
Qed.

Lemma create_lobby_ok uid_draw code_draws s (w : World) o s' w' :
  world_wf w → create_lobby uid_draw code_draws s w = Some (o, s', w') →
  world_wf w'.
Proof.
  intros (Hl & Hc & Hi). unfold create_lobby.
  destruct (ensure_user_id uid_draw s) as [uid s1].
  destruct (generate_lobby_code code_draws (lobbies w)) as [code|]; [|done].
  simpl. intros [= _ _ <-]. unfold world_wf, new_lobby.
  cbn [heap next_loc lobbies]. split; [|split].
  - intros l. destruct (decide (next_loc w = l)) as [<-|Hd].
    + rewrite lookup_total_insert_eq. split; [done|]. cbn [players].
      split; [by apply Forall_singleton|apply NoDup_singleton].
    + rewrite lookup_total_insert_ne by done. apply Hl.
  - intros c l Hcl. apply lookup_insert_Some in Hcl as [[<- <-]|[Hne Hcl]].
    + rewrite lookup_total_insert_eq. split; [lia|done].
    + destruct (Hc c l Hcl) as [Hlt Hp]. split; [lia|].
      rewrite lookup_total_insert_ne by lia. done.
  - intros c1 c2 l H1 H2.
    apply lookup_insert_Some in H1 as [[<- <-]|[Hn1 H1]];
      apply lookup_insert_Some in H2 as [[<- E]|[Hn2 H2]]; try done.
    + apply Hc in H2. lia.
    + apply Hc in H1. lia.
    + by apply (Hi c1 c2 l).
Qed.

Lemma existsb_id_false (uid : string) (ps : list Player) :
  existsb (λ p, bool_decide (id p = uid)) ps = false → uid ∉ id <$> ps.
Proof.
  induction ps as [|p ps IH]; simpl; [intros _; apply not_elem_of_nil|].
  intros [H1 H2]%orb_false_elim. apply bool_decide_eq_false in H1.
  apply not_elem_of_cons. split; [congruence|by apply IH].
Qed.

Lemma join_lobby_ok code uid_draw s (w : World) :
  world_wf w → world_wf (join_lobby code uid_draw s w).2.
Proof.
  intros Hw. unfold join_lobby.
  destruct (if truthy code then _ else _) as [[c l]|] eqn:E; [|done].
  apply lookup_code_inv in E as [-> Hcl].
  destruct (ensure_user_id uid_draw s) as [uid s1].
  case_match; [done|]. case_match; [done|]. cbn [snd].
  pose proof Hw as (Hl & Hc & Hi). destruct (Hc c l Hcl) as [_ Hne].
  destruct (Hl l) as (Hh & Hs & Hn).
  eapply world_wf_update; [exact Hw|reflexivity..| |].
  - unfold lobby_wf, set_players. cbn [players]. split; [|split].
    + intros _. rewrite hosts_app, (Hh Hne). unfold hosts. simpl. lia.
    + apply Forall_app. split; [done|]. by apply Forall_singleton.
    + rewrite fmap_app. apply NoDup_app. split; [done|]. split.
      * intros x Hx Hin. apply list_elem_of_singleton in Hin. subst x.
        revert Hx. by apply existsb_id_false.
      * apply NoDup_singleton.
  - unfold set_players. cbn [players]. intros _ E. by apply app_nil in E as [_ ?].
Qed.

Lemma Forall_filter_keep {A} (P Q : A → Prop) `{∀ x, Decision (Q x)} l :
  Forall P l → Forall P (filter Q l).
Proof.
  rewrite !Forall_forall. intros HP x [_ Hx]%list_elem_of_filter. by apply HP.
Qed.

(** The players [leave_lobby] keeps, before the promotion. *)
Lemma filtered_ok pid lobby :
  lobby_wf lobby →
  let ps := filter (λ p, id p ≠ pid) (players lobby) in
  (hosts ps ≤ 1)%nat ∧ Forall (λ p, (0 ≤ score p)%Z) ps ∧ NoDup (id <$> ps).
Proof.
  intros Hok ps. pose proof (lobby_wf_hosts_le _ Hok) as Hle.
  destruct Hok as (_ & Hs & Hn). split; [|split].
  - pose proof (hosts_filter (λ p, id p ≠ pid) (players lobby)). fold ps in H.
    lia.
  - by apply Forall_filter_keep.
  - unfold ps. rewrite ids_filter. by apply NoDup_filter.
Qed.

Lemma promoted_ok ps lobby :
  ps ≠ [] → (hosts ps ≤ 1)%nat → Forall (λ p, (0 ≤ score p)%Z) ps →
  NoDup (id <$> ps) →
  lobby_wf (set_players (if existsb is_host ps then ps else promote_first ps)
                        lobby).
Proof.
  intros Hne Hle Hs Hn. unfold lobby_wf, set_players. cbn [players].
  destruct (existsb is_host ps) eqn:E.
  - split; [|done]. intros _.
    destruct (hosts ps) as [|n] eqn:Eh; [|lia].
    apply hosts_existsb in Eh. congruence.
  - apply hosts_existsb in E. split; [|split].
    + intros _. by apply hosts_promote_first.
    + destruct ps as [|p ps]; [done|]. simpl.
      apply Forall_cons in Hs as [Hp Hs]. by apply Forall_cons.
    + by rewrite promote_first_ids.
Qed.

Lemma leave_lobby_ok code s (w : World) :
  world_wf w → world_wf (leave_lobby code s w).2.
Proof.
  intros Hw. unfold leave_lobby.
  destruct (if truthy code then _ else _) as [[c l]|] eqn:E; [|done].
  apply lookup_code_inv in E as [-> Hcl].
  destruct (user_id s) as [pid|]; [|done].
  pose proof Hw as (Hl & Hc & Hi).
  destruct (filtered_ok pid _ (Hl l)) as (Hle & Hs & Hn).
  destruct (filter (λ p, id p ≠ pid) (players (heap w !!! l)))
    as [|p ps] eqn:Eps; cbn [snd].
  - eapply world_wf_remove; [exact Hw|exact Hcl|reflexivity..|].
    unfold lobby_wf, set_players. cbn [players].
    split; [intros Hne; by destruct Hne|].
    split; [apply Forall_nil_2|apply NoDup_nil_2].
  - eapply world_wf_update; [exact Hw| |reflexivity|reflexivity| |].
    + unfold_world. by rewrite insert_insert_eq.
    + by apply promoted_ok.
    + intros _. unfold set_players. cbn [players].
      destruct (existsb is_host (p :: ps)); done.
Qed.

Lemma start_game_ok code s (w : World) :
  world_wf w → world_wf (start_game code s w).2.
Proof.
  intros Hw. unfold start_game.
  destruct (if truthy code then _ else _) as [[c l]|] eqn:E; [|done].
  destruct (if truthy (user_id s) then _ else _) as [uid|]; [|done].
  destruct (negb _); [done|]. cbn [snd].
  eapply world_wf_update; [exact Hw|reflexivity..| |done].
  destruct Hw as (Hl & _). apply (Hl l).
Qed.

Lemma submit_guess_ok guess lobby_code s (w : World) :
  world_wf w → world_wf (submit_guess guess lobby_code s w).2.
Proof.
  intros Hw. unfold submit_guess.
  destruct (if truthy_json guess && truthy lobby_code then _ else _)
    as [[c l]|] eqn:E; [|done].
  destruct (guesses (heap w !!! l)) as [g0|]; [|done].
  destruct (from_option submitted false (g0 !! user_id s)); [done|]. cbn [snd].
  eapply world_wf_update; [exact Hw|reflexivity..| |done].
  destruct Hw as (Hl & _). apply (Hl l).
Qed.

Lemma validate_guess_world guess correct_song s (w : World) :
  (validate_guess guess correct_song s w).2 = w.
Proof.
  unfold validate_guess.
  by destruct (if truthy guess && truthy correct_song then _ else _) as [[g c]|].
Qed.

Lemma init_session_world uid_draw s (w : World) :
  (init_session uid_draw s w).2 = w.
Proof. unfold init_session. by destruct (ensure_user_id uid_draw s). Qed.

Ltac route_world E :=
  intros [= E]; apply (f_equal snd) in E; cbn [snd] in E; subst.

Lemma route_ok r s (w : World) o s' w' :
  world_wf w → route r s w = Some (o, s', w') → world_wf w'.
Proof.
  intros Hw. destruct r; cbn [route].
  - by apply create_lobby_ok.
  - route_world E. by apply join_lobby_ok.
  - route_world E. by apply leave_lobby_ok.
  - route_world E. by apply start_game_ok.
  - route_world E. by apply submit_guess_ok.
  - route_world E. by rewrite validate_guess_world.
  - unfold reset_score. by intros [= _ _ <-].
  - route_world E. by rewrite init_session_world.
Qed.

Lemma wake_ok f t (w : World) : world_wf w → world_wf (resume f t w).1.
Proof.
  intros (Hl & Hc & Hi).
  destruct (resume_frame f t w) as (Hn & Hm & _). unfold world_wf.
  rewrite Hn, Hm. split; [|split; [|done]].
  - intros l. by apply resume_keeps_ok.
  - intros c l Hcl. destruct (Hc c l Hcl) as [Hlt Hp]. split; [done|].
    destruct (resume_keeps_ok f t w l) as [Hlen _].
    intros E. rewrite E in Hlen. by destruct (players (heap w !!! l)).
Qed.

(** Every step of the server keeps the lobbies well formed. *)
Lemma step_ok e (w : World) : world_wf w → world_wf (step e w).
Proof.
  intros Hw. destruct e; cbn [step].
  - destruct (route r (session_of w client) w) as [[[o s] w']|] eqn:E; [|done].
    eapply world_wf_ext; [reflexivity..|]. exact (route_ok _ _ _ _ _ _ Hw E).
  - unfold on_join.
    destruct (if truthy (user_id _) then _ else _); by eapply world_wf_ext.
  - unfold on_leave.
    destruct (if truthy (user_id _) then _ else _); by eapply world_wf_ext.
  - destruct (tasks w !! task) as [t|]; [|done].
    pose proof (wake_ok f t w Hw). destruct (resume f t w) as [w' t'].
    by eapply world_wf_ext.
Qed.

Lemma exec_ok es : ∀ w : World, world_wf w → world_wf (exec w es).
Proof.
  induction es as [|e es IH]; intros w Hw; [done|].
  apply IH. by apply step_ok.
Qed.

Lemma reachable_ok es : world_wf (exec init es).
Proof. apply exec_ok, init_ok. Qed.

(** *** The host of a lobby *)

(** C5. In every state the server can reach, a lobby whose player list
    is not empty has exactly one player with [is_host] set. The three
    routes that touch the list keep it so: [create_lobby] seeds the list
    with one host, [join_lobby] appends a player who is not host, and
    [leave_lobby], when no host is left among the players that stay,
    sets the flag of the first of them, the list being in join order. *)
Theorem one_host_per_lobby :
  (∀ es l,
     let ps := players (heap (exec init es) !!! l) in
     ps ≠ [] → hosts ps = 1%nat)
  ∧ (∀ uid_draw code_draws s (w : World) o s' w',
       create_lobby uid_draw code_draws s w = Some (o, s', w') →
       ∃ uid, players (heap w' !!! next_loc w)
              = [ {| id := uid; is_host := true; score := 0 |} ])
  ∧ (∀ code uid_draw s (w : World) l,
       let before := players (heap w !!! l) in
       let after := players (heap (join_lobby code uid_draw s w).2 !!! l) in
       after = before
       ∨ ∃ uid, after = before ++ [ {| id := uid; is_host := false; score := 0 |} ])
  ∧ (∀ code l pid s (w : World) p rest,
       truthy (Some code) = true → lobbies w !! code = Some l →
       user_id s = Some pid →
       filter (λ p, id p ≠ pid) (players (heap w !!! l)) = p :: rest →
       existsb is_host (p :: rest) = false →
       players (heap (leave_lobby (Some code) s w).2 !!! l)
       = {| id := id p; is_host := true; score := score p |} :: rest).
Proof.
  split; [|split; [|split]].
  - intros es l ps. destruct (reachable_ok es) as (Hl & _).
    by destruct (Hl l) as (Hh & _).
  - intros uid_draw code_draws s w o s' w'. unfold create_lobby.
    destruct (ensure_user_id uid_draw s) as [uid s1].
    destruct (generate_lobby_code code_draws (lobbies w)) as [code|]; [|done].
    simpl. intros [= _ _ <-]. exists uid. unfold new_lobby. cbn [heap].
    by rewrite lookup_total_insert_eq.
  - intros code uid_draw s w l before after. subst before after.
    unfold join_lobby.
    destruct (if truthy code then _ else _) as [[c l0]|]; [|by left].
    destruct (ensure_user_id uid_draw s) as [uid s1].
    destruct (existsb _ _); [by left|].
    destruct (8 <=? _)%nat; [by left|]. cbn [snd]. unfold_world.
    destruct (decide (l0 = l)) as [->|Hne].
    + right. exists uid. by rewrite lookup_total_insert_eq.
    + left. by rewrite lookup_total_insert_ne.
  - intros code l pid s w p rest Hc Hl Hu Hf Hh.
    destruct (leave_lobby_players code l pid s w Hc Hl Hu) as [_ ->].
    by rewrite Hf, Hh.
Qed.

Lemma one_host_per_lobby_witness :
  players (heap (exec init host_leaves) !!! O)
  = [ {| id := "10007"; is_host := true; score := 0 |};
      {| id := "10009"; is_host := false; score := 0 |} ]
  ∧ hosts (players (heap (exec init host_leaves) !!! O)) = 1%nat.
Proof.
  split; [by vm_compute|].
  apply (proj1 one_host_per_lobby host_leaves O).
  vm_compute. discriminate.
Defined.

(** *** The winner *)

Lemma scanned_step pre winner h q :
  (0 ≤ score q)%Z → scanned pre winner h →
  scanned (pre ++ [q])
    (if (h <? score q)%Z then Some (id q) else winner)
    (if (h <? score q)%Z then score q else h).
Proof.
  intros Hq Hs. right. destruct (Z.ltb_spec h (score q)) as [Hlt|Hge].
  - exists (length pre), q. split; [|done]. split; [|split].
    + by rewrite lookup_app_r, Nat.sub_diag.
    + intros j r Hr. apply lookup_app_Some in Hr as [Hr|[_ Hr]].
      * destruct Hs as [(-> & _)|(i & p & (_ & Hmax & _) & _ & ->)]; [done|].
        specialize (Hmax j r Hr). lia.
      * apply list_lookup_singleton_Some in Hr as [_ <-]. lia.
    + intros j r Hj Hr. rewrite lookup_app_l in Hr by done.
      destruct Hs as [(-> & _)|(i & p & (_ & Hmax & _) & _ & ->)]; [done|].
      specialize (Hmax j r Hr). lia.
  - destruct Hs as [(-> & _ & ->)|(i & p & (Hp & Hmax & Hfirst) & -> & ->)];
      [lia|].
    exists i, p. split; [|done]. split; [|split].
    + by apply lookup_app_l_Some.
    + intros j r Hr. apply lookup_app_Some in Hr as [Hr|[_ Hr]].
      * by apply (Hmax j).
      * by apply list_lookup_singleton_Some in Hr as [_ <-].
    + intros j r Hj Hr. apply (Hfirst j r Hj).
      apply lookup_lt_Some in Hp. by rewrite lookup_app_l in Hr by lia.
Qed.

Lemma winner_scan_scanned ps : ∀ pre winner h,
  Forall (λ p, (0 ≤ score p)%Z) ps → scanned pre winner h →
  ∃ h', scanned (pre ++ ps) (winner_scan ps winner h) h'.
Proof.
  induction ps as [|q ps IH]; intros pre winner h Hs Hpre.
  - exists h. by rewrite app_nil_r.
  - apply Forall_cons in Hs as [Hq Hs]. cbn [winner_scan].
    pose proof (scanned_step pre winner h q Hq Hpre) as Hstep.
    replace (pre ++ q :: ps) with ((pre ++ [q]) ++ ps)
      by (by rewrite <- app_assoc).
    destruct (h <? score q)%Z; by apply IH.
Qed.

Lemma winner_of_first_max ps :
  ps ≠ [] → Forall (λ p, (0 ≤ score p)%Z) ps →
  ∃ i p, first_max ps i p ∧ winner_of ps = Some (id p).
Proof.
  intros Hne Hs.
  destruct (winner_scan_scanned ps [] None (-1) Hs) as (h & Hh).
  { by left. }
  destruct Hh as [(? & _)|(i & p & Hmax & Hw & _)]; [done|].
  by exists i, p.
Qed.

(** C6. When the last round is over (the counter stands at 10 and the
    task wakes from the pause that ends a round), [run_game] emits
    [game_ended] to the room and returns. In a lobby that still has
    players, the winner it names is the id of the earliest player of the
    current list whose score is the highest: no player has more, and
    every player listed before has strictly less. *)
Theorem game_ended_names_first_max es lobby_code l f t :
  let w := exec init es in
  let ps := players (heap w !!! l) in
  t = sleeping_transition lobby_code l ∨ t = sleeping_skip lobby_code l →
  round (heap w !!! l) = 10 → ps ≠ [] →
  ∃ i p, first_max ps i p
         ∧ (resume f t w).2 = returned (Some l)
         ∧ log (resume f t w).1
           = log w ++ [Emit (game_ended (Some (id p)) ps) (lobby_room lobby_code)].
Proof.
  intros w ps Ht Hr Hne.
  destruct (reachable_ok es) as (Hl & _). destruct (Hl l) as (_ & Hs & _).
  destruct (winner_of_first_max ps Hne Hs) as (i & p & Hmax & Hw).
  exists i, p. split; [done|].
  assert (E : resume f t w = end_game lobby_code l (next_round l w)).
  { destruct Ht as [-> | ->]; cbn [resume]; unfold loop_head, next_round;
      unfold_world; rewrite lookup_total_insert_eq; cbn [round];
      fold w; rewrite Hr; done. }
  rewrite E. unfold end_game, next_round. unfold_world.
  rewrite lookup_total_insert_eq. unfold set_round. cbn [players].
  fold w. fold ps. by rewrite Hw.
Qed.

Lemma game_ended_names_first_max_witness :
  ∃ i p, first_max (players (heap (exec init ten_rounds) !!! O)) i p
         ∧ (resume a_song (sleeping_transition "001234" O)
              (exec init ten_rounds)).2 = returned (Some O)
         ∧ log (resume a_song (sleeping_transition "001234" O)
                  (exec init ten_rounds)).1
           = log (exec init ten_rounds)
             ++ [Emit (game_ended (Some (id p))
                         (players (heap (exec init ten_rounds) !!! O)))
                      (lobby_room "001234")].
Proof.
  apply (game_ended_names_first_max ten_rounds "001234" O a_song
           (sleeping_transition "001234" O)).
  - by left.
  - vm_compute. reflexivity.
  - vm_compute. discriminate.
Defined.

(** *** A round without a song *)

Lemma loop_head_players lobby_code l f (w : World) l' :
  players (heap (loop_head lobby_code l f w).1 !!! l') = players (heap w !!! l').
Proof.
  apply (loop_head_heap_R (λ a b, players b = players a)); try done.
  intros a b c. congruence.
Qed.

Lemma loop_head_round lobby_code l f (w : World) l' :
  round (heap (loop_head lobby_code l f w).1 !!! l') = round (heap w !!! l').
Proof.
  apply (loop_head_heap_R (λ a b, round b = round a)); try done.
  intros a b c. congruence.
Qed.

Lemma next_round_round l (w : World) :
  round (heap (next_round l w) !!! l) = round (heap w !!! l) + 1.
Proof. unfold next_round. unfold_world. by rewrite lookup_total_insert_eq. Qed.

Lemma next_round_players l (w : World) l' :
  players (heap (next_round l w) !!! l') = players (heap w !!! l').
Proof.
  unfold next_round. unfold_world. destruct (decide (l = l')) as [->|Hne].
  - by rewrite lookup_total_insert_eq.
  - by rewrite lookup_total_insert_ne.
Qed.

(** C2. A round in which the three requests for a song all fail, by an
    exception or by incomplete data. The task sleeps 1 second after each
    failed attempt, the third included; it then emits [round_started]
    to the room with the round number, duration 30 and the error text,
    sleeps 5 seconds, adds exactly 1 to the round counter and goes to
    the head of the loop for the next round. None of these steps writes
    to a player: the player lists, and so the scores, are left as each
    step finds them. [w1] to [w5] are the states of the server when the
    task wakes for each step, whatever happened between them. *)
Theorem skipped_round lobby_code l f1 f2 f3 f4 f5 (w1 w2 w3 w4 w5 : World) :
  fetch_song f1 = None → fetch_song f2 = None → fetch_song f3 = None →
  (round (heap w1 !!! l) ≤ 10)%Z →
  let s1 := loop_head lobby_code l f1 w1 in
  let s2 := resume f2 s1.2 w2 in
  let s3 := resume f3 s2.2 w3 in
  let s4 := resume f4 s3.2 w4 in
  let s5 := resume f5 s4.2 w5 in
  (s1.2 = sleeping_retry lobby_code l 1 ∧ log s1.1 = log w1 ++ [Sleep 1])
  ∧ s2 = (perform (Sleep 1) w2, sleeping_retry lobby_code l 2)
  ∧ s3 = (perform (Sleep 1) w3, sleeping_retry lobby_code l 3)
  ∧ s4 = (perform (Sleep 5)
            (perform (Emit (round_started_error (round (heap w4 !!! l)) 30
                              "Failed to fetch song data. Skipping round.")
                           (lobby_room lobby_code)) w4),
          sleeping_skip lobby_code l)
  ∧ s5 = loop_head lobby_code l f5 (next_round l w5)
  ∧ round (heap s5.1 !!! l) = round (heap w5 !!! l) + 1
  ∧ (∀ l', players (heap s1.1 !!! l') = players (heap w1 !!! l')
           ∧ players (heap s2.1 !!! l') = players (heap w2 !!! l')
           ∧ players (heap s3.1 !!! l') = players (heap w3 !!! l')
           ∧ players (heap s4.1 !!! l') = players (heap w4 !!! l')
           ∧ players (heap s5.1 !!! l') = players (heap w5 !!! l')).
Proof.
  intros H1 H2 H3 Hr s1 s2 s3 s4 s5.
  assert (E1 : s1 = (perform (Sleep 1)
                       (set_lobby l (set_guesses
                          (fresh_guesses (players (heap w1 !!! l)))
                          (heap w1 !!! l)) w1),
                     sleeping_retry lobby_code l 1)).
  { subst s1. unfold loop_head. apply Z.leb_le in Hr. rewrite Hr.
    unfold retry_loop. cbn [Nat.ltb Nat.leb]. by rewrite H1. }
  assert (E2 : s2 = (perform (Sleep 1) w2, sleeping_retry lobby_code l 2)).
  { subst s2. rewrite E1. cbn [snd resume]. unfold retry_loop.
    cbn [Nat.ltb Nat.leb]. by rewrite H2. }
  assert (E3 : s3 = (perform (Sleep 1) w3, sleeping_retry lobby_code l 3)).
  { subst s3. rewrite E2. cbn [snd resume]. unfold retry_loop.
    cbn [Nat.ltb Nat.leb]. by rewrite H3. }
  assert (E4 : s4 = skip_round lobby_code l w4).
  { subst s4. rewrite E3. cbn [snd resume]. unfold retry_loop. done. }
  assert (E5 : s5 = loop_head lobby_code l f5 (next_round l w5)).
  { subst s5. rewrite E4. done. }
  split; [by rewrite E1|]. do 3 (split; [done|]). split; [done|]. split.
  - rewrite E5, loop_head_round. apply next_round_round.
  - intros l'. split; [subst s1; apply loop_head_players|].
    rewrite E2, E3, E4, E5. do 3 (split; [done|]).
    rewrite loop_head_players. apply next_round_players.
Qed.

Lemma skipped_round_witness :
  (resume fetch_error (sleeping_retry "001234" O 3) round_under_way).2
  = sleeping_skip "001234" O
  ∧ round (heap (resume fetch_error (sleeping_skip "001234" O) round_under_way).1 !!! O)
    = round (heap round_under_way !!! O) + 1.
Proof.
  pose proof (skipped_round "001234" O fetch_error fetch_error
                (fetch_track (Some "Hello") None (Some "http://x"))
                fetch_error fetch_error
                round_under_way round_under_way round_under_way round_under_way round_under_way
                eq_refl eq_refl eq_refl) as H.
  cbv zeta in H. destruct H as (_ & _ & E3 & E4 & _ & Hr & _).
  { vm_compute. discriminate. }
  rewrite E3 in E4, Hr. cbn [snd] in E4, Hr. rewrite E4 in Hr. cbn [snd] in Hr.
  split; [by rewrite E4|exact Hr].
Defined.

(** *** Starting a game *)

(** C3, as the spec has it, fails: [start_game] never reads
    [lobby['status']]. After a first start the status is [playing] and
    one task is there; the host's second start is answered success too
    and spawns a second task for the same code. Woken one after the
    other, both tasks hold the same lobby dict and sleep in a round of
    their own at the same time. *)
Lemma second_start_spawns_second_scheduler :
  status (heap (exec init started_once) !!! O) = playing
  ∧ tasks (exec init started_once) = [spawned "001234"]
  ∧ (start_game (Some "001234") (session_of (exec init started_once) 0)
                (exec init started_once)).1.1 = Return success_ok
  ∧ tasks (exec init started_twice) = [spawned "001234"; spawned "001234"]
  ∧ tasks (exec init (started_twice ++ [wake 0 a_song; wake 1 a_song]))
    = [ sleeping_round "001234" O
          {| song := "Hello"; artist := "Adele"; audio_url := "http://x" |};
        sleeping_round "001234" O
          {| song := "Hello"; artist := "Adele"; audio_url := "http://x" |} ].
Proof. by vm_compute. Qed.

Lemma request_writes_refl a : request_writes a a.
Proof. repeat split. by left. Qed.

Lemma request_writes_insert (h : gmap nat Lobby) l lobby l' :
  request_writes (h !!! l) lobby →
  request_writes (h !!! l') (<[l := lobby]> h !!! l').
Proof.
  intros H. destruct (decide (l = l')) as [->|Hne].
  - by rewrite lookup_total_insert_eq.
  - rewrite lookup_total_insert_ne by done. apply request_writes_refl.
Qed.

Lemma join_lobby_writes code uid_draw s (w : World) l :
  request_writes (heap w !!! l) (heap (join_lobby code uid_draw s w).2 !!! l).
Proof.
  unfold join_lobby.
  destruct (if truthy code then _ else _) as [[c l0]|];
    [|apply request_writes_refl].
  destruct (ensure_user_id uid_draw s) as [uid s1].
  destruct (existsb _ _); [apply request_writes_refl|].
  destruct (8 <=? _)%nat; [apply request_writes_refl|]. cbn [snd]. unfold_world.
  apply request_writes_insert. repeat split. by left.
Qed.

Lemma leave_lobby_writes code s (w : World) l :
  request_writes (heap w !!! l) (heap (leave_lobby code s w).2 !!! l).
Proof.
  unfold leave_lobby.
  destruct (if truthy code then _ else _) as [[c l0]|];
    [|apply request_writes_refl].
  destruct (user_id s) as [pid|]; [|apply request_writes_refl].
  destruct (filter _ _) as [|p ps]; cbn [snd]; unfold_world.
  - apply request_writes_insert. repeat split. by left.
  - rewrite insert_insert_eq, lookup_total_insert_eq.
    apply request_writes_insert. repeat split. by left.
Qed.

Lemma start_game_writes code s (w : World) l :
  request_writes (heap w !!! l) (heap (start_game code s w).2 !!! l).
Proof.
  unfold start_game.
  destruct (if truthy code then _ else _) as [[c l0]|];
    [|apply request_writes_refl].
  destruct (if truthy (user_id s) then _ else _) as [uid|];
    [|apply request_writes_refl].
  destruct (negb _); [apply request_writes_refl|]. cbn [snd]. unfold_world.
  apply request_writes_insert. repeat split. by right.
Qed.

Lemma submit_guess_writes guess lobby_code s (w : World) l :
  request_writes (heap w !!! l) (heap (submit_guess guess lobby_code s w).2 !!! l).
Proof.
  unfold submit_guess.
  destruct (if truthy_json guess && truthy lobby_code then _ else _)
    as [[c l0]|]; [|apply request_writes_refl].
  destruct (guesses (heap w !!! l0)) as [g0|]; [|apply request_writes_refl].
  destruct (from_option submitted false (g0 !! user_id s));
    [apply request_writes_refl|]. cbn [snd]. unfold_world.
  apply request_writes_insert. repeat split. by left.
Qed.

(** [create_lobby] writes one new dict, at the next free place. *)
Lemma create_lobby_writes uid_draw code_draws s (w : World) o s' w' l :
  create_lobby uid_draw code_draws s w = Some (o, s', w') →
  next_loc w' = S (next_loc w) ∧ tasks w' = tasks w
  ∧ (l ≠ next_loc w → heap w' !!! l = heap w !!! l)
  ∧ round (heap w' !!! next_loc w) = 0
  ∧ max_rounds (heap w' !!! next_loc w) = 10
  ∧ status (heap w' !!! next_loc w) = waiting.
Proof.
  unfold create_lobby.
  destruct (ensure_user_id uid_draw s) as [uid s1].
  destruct (generate_lobby_code code_draws (lobbies w)) as [code|]; [|done].
  simpl. intros [= _ _ <-]. unfold new_lobby. cbn [heap next_loc tasks].
  rewrite lookup_total_insert_eq. repeat split; try done.
  intros Hne. by rewrite lookup_total_insert_ne.
Qed.

(** The routes other than [create_lobby] allocate nothing, and only
    [start_game] adds a task. *)
Lemma route_writes r s (w : World) o s' w' :
  (∀ uid_draw code_draws, r ≠ create_lobby_req uid_draw code_draws) →
  route r s w = Some (o, s', w') →
  next_loc w' = next_loc w
  ∧ (tasks w' = tasks w ∨ ∃ code, tasks w' = tasks w ++ [spawned code])
  ∧ ∀ l, request_writes (heap w !!! l) (heap w' !!! l).
Proof.
  intros Hr. destruct r; cbn [route].
  - by destruct (Hr uid_draw code_draws).
  - route_world E. split; [|split; [|apply join_lobby_writes]];
      unfold join_lobby; repeat case_match; by (done || left).
  - route_world E. split; [|split; [|apply leave_lobby_writes]];
      unfold leave_lobby; repeat case_match; by (done || left).
  - route_world E. split; [|split; [|apply start_game_writes]];
      unfold start_game; repeat case_match; try by (done || left).
    right. by eexists.
  - route_world E. split; [|split; [|apply submit_guess_writes]];
      unfold submit_guess; repeat case_match; by (done || left).
  - route_world E. rewrite validate_guess_world.
    split; [done|]. split; [by left|]. intros l. apply request_writes_refl.
  - unfold reset_score. intros [= _ _ <-].
    split; [done|]. split; [by left|]. intros l. apply request_writes_refl.
  - route_world E. rewrite init_session_world.
    split; [done|]. split; [by left|]. intros l. apply request_writes_refl.
Qed.

(** [run_game] never writes the status or [max_rounds]. *)
Lemma resume_status f t (w : World) l :
  status (heap (resume f t w).1 !!! l) = status (heap w !!! l)
  ∧ max_rounds (heap (resume f t w).1 !!! l) = max_rounds (heap w !!! l).
Proof.
  apply (resume_heap_R
    (λ a b, status b = status a ∧ max_rounds b = max_rounds a)); try done.
  intros a b c [? ?] [? ?]. split; congruence.
Qed.

Lemma request_is_create r :
  (∃ uid_draw code_draws, r = create_lobby_req uid_draw code_draws)
  ∨ (∀ uid_draw code_draws, r ≠ create_lobby_req uid_draw code_draws).
Proof. destruct r; try by right. left. by eexists _, _. Qed.

(** Once [playing], a lobby dict stays so. *)
Lemma playing_is_kept e (w : World) l :
  (l < next_loc w)%nat → status (heap w !!! l) = playing →
  status (heap (step e w) !!! l) = playing.
Proof.
  intros Hl Hp. destruct e; cbn [step].
  - destruct (route r (session_of w client) w) as [[[o s] w']|] eqn:E; [|done].
    unfold_world.
    destruct (request_is_create r) as [(d & ds & ->)|Hn].
    + cbn [route] in E.
      destruct (create_lobby_writes _ _ _ _ _ _ _ l E) as (_ & _ & Hh & _).
      rewrite Hh by lia. done.
    + destruct (route_writes r _ w o s w' Hn E) as (_ & _ & Hw).
      destruct (Hw l) as (_ & _ & [Hs|Hs]); congruence.
  - unfold on_join. by destruct (if truthy (user_id _) then _ else _).
  - unfold on_leave. by destruct (if truthy (user_id _) then _ else _).
  - destruct (tasks w !! task) as [t|]; [|done].
    destruct (resume_status f t w l) as [Hs _].
    destruct (resume f t w) as [w' t']. unfold_world. congruence.
Qed.

(** C3, amended. A start request by the host of a live lobby sets the
    status to [playing], emits [game_started] and spawns exactly one
    call of [run_game] for the code, whatever the status was: there is
    no status check, and a second start spawns a second call. A request
    by anyone else is answered 403 and spawns nothing. The status goes
    from [waiting] to [playing] once: no step of the server takes a
    lobby out of [playing]. *)
Theorem start_game_spawns_one_task :
  (∀ code l uid s (w : World),
     truthy (Some code) = true → lobbies w !! code = Some l →
     user_id s = Some uid → truthy (Some uid) = true →
     let w' := (start_game (Some code) s w).2 in
     if existsb (λ p, bool_decide (id p = uid) && is_host p)
                (players (heap w !!! l))
     then (start_game (Some code) s w).1 = (Return success_ok, s)
          ∧ status (heap w' !!! l) = playing
          ∧ tasks w' = tasks w ++ [spawned code]
          ∧ log w' = log w ++ [Emit game_started (lobby_room code)]
     else start_game (Some code) s w
          = (Return (error 403 "Only host can start the game"), s, w))
  ∧ (∀ e (w : World) l,
       (l < next_loc w)%nat → status (heap w !!! l) = playing →
       status (heap (step e w) !!! l) = playing).
Proof.
  split; [|apply playing_is_kept].
  intros code l uid s w Hc Hl Hu Ht w'. subst w'. unfold start_game.
  rewrite (lookup_code _ _ _ Hc Hl), Hu, Ht.
  destruct (existsb _ _); cbn [negb fst snd]; [|done].
  unfold_world. by rewrite lookup_total_insert_eq.
Qed.

Lemma start_game_spawns_one_task_witness :
  status (heap (start_game (Some "001234")
                  (session_of (exec init started_once) 0)
                  (exec init started_once)).2 !!! O) = playing
  ∧ tasks (start_game (Some "001234")
             (session_of (exec init started_once) 0)
             (exec init started_once)).2
    = tasks (exec init started_once) ++ [spawned "001234"].
Proof.
  pose proof (proj1 start_game_spawns_one_task "001234" O "10005"
                (session_of (exec init started_once) 0)
                (exec init started_once) eq_refl) as H.
  assert (Hl : lobbies (exec init started_once) !! "001234" = Some O)
    by (by vm_compute).
  assert (Hu : user_id (session_of (exec init started_once) 0) = Some "10005")
    by (by vm_compute).
  specialize (H Hl Hu eq_refl). cbv zeta in H.
  assert (Hh : existsb (λ p, bool_decide (id p = "10005") && is_host p)
                 (players (heap (exec init started_once) !!! O)) = true)
    by (by vm_compute).
  rewrite Hh in H. by destruct H as (_ & Hs & Ht & _).
Defined.

(** *** The round counter *)

Lemma NoDup_omap_lookup {A B} (f : A → option B) (l : list A) :
  ∀ i j x y b,
    NoDup (omap f l) → l !! i = Some x → l !! j = Some y →
    f x = Some b → f y = Some b → i = j.
Proof.
  induction l as [|a l IH]; intros i j x y b Hnd Hi Hj Hx Hy; [done|].
  assert (Hin : ∀ k z, l !! k = Some z → f z = Some b → b ∈ omap f l).
  { intros k z Hk Hz. apply list_elem_of_omap. exists z. split; [|done].
    by eapply list_elem_of_lookup_2. }
  cbn [omap list_omap] in Hnd.
  destruct i as [|i], j as [|j]; cbn in Hi, Hj; [done| | |].
  - injection Hi as ->. rewrite Hx in Hnd. apply NoDup_cons in Hnd as [Hn _].
    destruct Hn. by apply (Hin j y).
  - injection Hj as ->. rewrite Hy in Hnd. apply NoDup_cons in Hnd as [Hn _].
    destruct Hn. by apply (Hin i x).
  - f_equal. apply (IH i j x y b); try done.
    destruct (f a); [by apply NoDup_cons in Hnd as [_ ?]|done].
Qed.

Lemma retry_loop_round lobby_code l n f (w : World) l' :
  round (heap (retry_loop lobby_code l n f w).1 !!! l') = round (heap w !!! l').
Proof.
  apply (retry_loop_heap_R (λ a b, round b = round a)); done.
Qed.

Lemma close_round_round lobby_code l song_data (w : World) l' :
  round (heap (close_round lobby_code l song_data w).1 !!! l')
  = round (heap w !!! l').
Proof.
  rewrite close_round_heap. destruct (decide (l = l')) as [->|Hne].
  - by rewrite lookup_total_insert_eq.
  - by rewrite lookup_total_insert_ne.
Qed.

Lemma retry_loop_task lobby_code l n f (w : World) :
  held (retry_loop lobby_code l n f w).2 = Some l
  ∧ in_loop (retry_loop lobby_code l n f w).2.
Proof.
  unfold retry_loop, open_round, skip_round. by repeat case_match.
Qed.

Lemma close_round_task lobby_code l song_data (w : World) :
  held (close_round lobby_code l song_data w).2 = Some l
  ∧ in_loop (close_round lobby_code l song_data w).2.
Proof.
  unfold close_round. by destruct (score_players _ _ _) as [ps [e|]].
Qed.

Lemma in_loop_task_round t r : in_loop t → task_round t r ↔ (1 ≤ r ≤ 10)%Z.
Proof. by destruct t. Qed.

(** The task leaves the loop exactly when the counter has passed 10. *)
Lemma loop_head_task lobby_code l f (w : World) :
  let t' := (loop_head lobby_code l f w).2 in
  held t' = Some l
  ∧ ((round (heap w !!! l) ≤ 10)%Z ∧ in_loop t'
     ∨ (10 < round (heap w !!! l))%Z ∧ t' = returned (Some l)).
Proof.
  unfold loop_head. destruct (Z.leb_spec (round (heap w !!! l)) 10) as [Hle|Hgt].
  - destruct (retry_loop_task lobby_code l 0 f
      (set_lobby l (set_guesses (fresh_guesses (players (heap w !!! l)))
                                (heap w !!! l)) w)) as [Hh Hin].
    split; [done|]. by left.
  - split; [done|]. by right.
Qed.

Lemma set_round_elsewhere l r (w : World) l' :
  l ≠ l' →
  round (heap (set_lobby l (set_round r (heap w !!! l)) w) !!! l')
  = round (heap w !!! l').
Proof. intros Hne. unfold_world. by rewrite lookup_total_insert_ne. Qed.

Lemma resume_held f t (w : World) : held (resume f t w).2 = target t w.
Proof.
  destruct t; cbn [resume target held]; try done.
  - destruct (lobbies w !! lobby_code); [|done]. apply loop_head_task.
  - apply retry_loop_task.
  - apply loop_head_task.
  - apply close_round_task.
  - apply loop_head_task.
Qed.

(** [run_game] writes the counter of the dict it holds, and no other. *)
Lemma resume_round_elsewhere f t (w : World) l' :
  target t w ≠ Some l' →
  round (heap (resume f t w).1 !!! l') = round (heap w !!! l').
Proof.
  destruct t; cbn [resume target held]; intros Hne; try done.
  - destruct (lobbies w !! lobby_code) as [l|]; [|done].
    rewrite loop_head_round. apply set_round_elsewhere. congruence.
  - apply retry_loop_round.
  - rewrite loop_head_round. apply set_round_elsewhere. congruence.
  - apply close_round_round.
  - rewrite loop_head_round. apply set_round_elsewhere. congruence.
Qed.

(** What one step of [run_game] does to the counter of its dict: set to
    1 on entry, one more after the pause that ends a round, untouched
    otherwise; and the task returns exactly when the counter passes 10. *)
Lemma resume_round f t (w : World) l :
  target t w = Some l →
  let r := round (heap w !!! l) in
  let r' := round (heap (resume f t w).1 !!! l) in
  let t' := (resume f t w).2 in
  match t with
  | spawned _ => r' = 1 ∧ in_loop t'
  | sleeping_retry _ _ _ | sleeping_round _ _ _ => r' = r ∧ in_loop t'
  | sleeping_skip _ _ | sleeping_transition _ _ =>
      r' = r + 1
      ∧ ((r' ≤ 10)%Z ∧ in_loop t' ∨ (10 < r')%Z ∧ t' = returned (Some l))
  | returned _ | crashed _ _ => r' = r ∧ t' = t
  end.
Proof.
  destruct t; cbn [resume target held]; intros [= E]; subst; cbv zeta;
    try done.
  - rewrite E, loop_head_round.
    destruct (loop_head_task lobby_code l f
      (set_lobby l (set_round 1 (heap w !!! l)) w)) as [_ H].
    revert H. unfold_world. rewrite lookup_total_insert_eq.
    unfold set_round. cbn [round]. intros [[_ ?]|[? _]]; [done|lia].
  - rewrite retry_loop_round. split; [done|]. apply retry_loop_task.
  - rewrite loop_head_round, next_round_round. split; [done|].
    destruct (loop_head_task lobby_code l f (next_round l w)) as [_ H].
    by rewrite next_round_round in H.
  - rewrite close_round_round. split; [done|]. apply close_round_task.
  - rewrite loop_head_round, next_round_round. split; [done|].
    destruct (loop_head_task lobby_code l f (next_round l w)) as [_ H].
    by rewrite next_round_round in H.
Qed.

Lemma omap_cons_match {A B} (f : A → option B) (x : A) (l : list A) :
  omap f (x :: l)
  = match f x with Some y => y :: omap f l | None => omap f l end.
Proof. done. Qed.

(** Two places of a list that both satisfy [P] show in the filter. *)
Lemma filter_two {A} (P : A → Prop) `{∀ x, Decision (P x)} (ts : list A) :
  ∀ i j x y,
    ts !! i = Some x → ts !! j = Some y → P x → P y → i ≠ j →
    (2 ≤ length (filter P ts))%nat.
Proof.
  assert (Hone : ∀ (us : list A) k z, us !! k = Some z → P z →
                   (1 ≤ length (filter P us))%nat).
  { induction us as [|u us IH]; intros k z Hk Hz; [done|].
    rewrite filter_cons. destruct k as [|k]; cbn in Hk.
    - injection Hk as ->. rewrite decide_True by done. cbn. lia.
    - pose proof (IH k z Hk Hz). case_decide; cbn; lia. }
  induction ts as [|t ts IH]; intros i j x y Hi Hj Hx Hy Hne; [done|].
  rewrite filter_cons. destruct i as [|i], j as [|j]; cbn in Hi, Hj; [done| | |].
  - injection Hi as ->. rewrite decide_True by done. cbn.
    pose proof (Hone ts j y Hj Hy). lia.
  - injection Hj as ->. rewrite decide_True by done. cbn.
    pose proof (Hone ts i x Hi Hx). lia.
  - assert (i ≠ j) by congruence.
    pose proof (IH i j x y Hi Hj Hx Hy ltac:(done)). case_decide; cbn; lia.
Qed.

Lemma exclusive_at_holder l (w : World) i j t t' :
  exclusive_at l w → tasks w !! i = Some t → tasks w !! j = Some t' →
  held t = Some l → held t' = Some l → i = j.
Proof.
  unfold exclusive_at. intros Hx Hi Hj Ht Ht'.
  destruct (decide (i = j)) as [|Hne]; [done|].
  pose proof (filter_two (λ t, held t = Some l) (tasks w) i j t t'
                Hi Hj Ht Ht' Hne). lia.
Qed.

(** When no dict is held twice, [l] is not. *)
Lemma not_held_filter (ts : list Task) l :
  l ∉ omap held ts → filter (λ t, held t = Some l) ts = [].
Proof.
  induction ts as [|t ts IH]; intros Hn; [done|].
  rewrite filter_cons. rewrite omap_cons_match in Hn.
  destruct (held t) as [l'|] eqn:Eh.
  - apply not_elem_of_cons in Hn as [Hne Hn].
    rewrite decide_False by congruence. by apply IH.
  - rewrite decide_False by congruence. by apply IH.
Qed.

Lemma exclusive_exclusive_at (w : World) l : exclusive w → exclusive_at l w.
Proof.
  unfold exclusive, exclusive_at. induction (tasks w) as [|t ts IH];
    intros Hnd; [cbn; lia|].
  rewrite filter_cons. rewrite omap_cons_match in Hnd.
  destruct (held t) as [l'|] eqn:Eh.
  - apply NoDup_cons in Hnd as [Hn Hnd]. case_decide as Hl.
    + injection Hl as ->. rewrite not_held_filter by done. cbn. lia.
    + by apply IH.
  - rewrite decide_False by congruence. by apply IH.
Qed.

Lemma rounds_ok_at_all (w : World) : rounds_ok w ↔ ∀ l, rounds_ok_at l w.
Proof.
  unfold rounds_ok, rounds_ok_at. split.
  - intros (J1 & J2 & J3) l. split; [|split; [apply J2|apply J3]].
    intros i t. apply J1.
  - intros H. split; [|split]; intros; by eapply H.
Qed.

Lemma init_rounds_ok : rounds_ok init.
Proof.
  split; [done|]. unfold init. cbn [heap].
  split; intros l; by rewrite lookup_total_empty.
Qed.

(** A step of a task keeps the counter of [l] in step with the tasks, as
    long as [l] does not get a second task. *)
Lemma wake_rounds_ok_at l i f t (w : World) :
  world_wf w → rounds_ok_at l w → tasks w !! i = Some t →
  let w' := set_tasks (<[i := (resume f t w).2]> (tasks (resume f t w).1))
                      (resume f t w).1 in
  exclusive_at l w' → rounds_ok_at l w'.
Proof.
  intros (_ & Hlisted & _) (J1 & J2 & J3) Ht w' Hx.
  destruct (resume_frame f t w) as (Hn & _ & _ & _ & Htasks).
  assert (Hw' : tasks w' = <[i := (resume f t w).2]> (tasks w)).
  { subst w'. unfold_world. by rewrite Htasks. }
  assert (Hi : tasks w' !! i = Some (resume f t w).2).
  { rewrite Hw'. apply list_lookup_insert_eq. by eapply lookup_lt_Some. }
  assert (Hheap : heap w' = heap (resume f t w).1) by done.
  assert (Hnext : next_loc w' = next_loc w) by done.
  assert (Htarget : target t w = Some l → (l < next_loc w)%nat).
  { intros Hl. destruct t; cbn [target held] in Hl;
      try (by apply (J1 i _ Ht)).
    by apply Hlisted in Hl as [? _]. }
  unfold rounds_ok_at. rewrite Hheap, Hnext. split; [|split].
  - intros k tk Hk Hl. destruct (decide (k = i)) as [->|Hne].
    + rewrite Hi in Hk. injection Hk as <-. rewrite resume_held in Hl.
      split; [by apply Htarget|].
      pose proof (resume_round f t w l Hl) as Hr. cbv zeta in Hr.
      destruct t; cbn [target held] in Hl.
      * destruct Hr as [-> Hin]. by apply in_loop_task_round.
      * destruct Hr as [-> Hin]. apply in_loop_task_round; [done|].
        by apply (J1 i _ Ht).
      * destruct (J1 i _ Ht Hl) as [_ Hold]. cbn [task_round] in Hold.
        destruct Hr as [Hr [[Hle Hin]|[Hgt ->]]].
        -- apply in_loop_task_round; [done|lia].
        -- cbn [task_round]. lia.
      * destruct Hr as [-> Hin]. apply in_loop_task_round; [done|].
        by apply (J1 i _ Ht).
      * destruct (J1 i _ Ht Hl) as [_ Hold]. cbn [task_round] in Hold.
        destruct Hr as [Hr [[Hle Hin]|[Hgt ->]]].
        -- apply in_loop_task_round; [done|lia].
        -- cbn [task_round]. lia.
      * destruct Hr as [-> ->]. by apply (J1 i _ Ht).
      * destruct Hr as [-> ->]. by apply (J1 i _ Ht).
    + rewrite Hw', list_lookup_insert_ne in Hk by done.
      destruct (J1 k tk Hk Hl) as [Hlt Hold]. split; [done|].
      rewrite resume_round_elsewhere; [done|].
      intros Hl'. apply Hne. rewrite <- (resume_held f) in Hl'.
      apply (exclusive_at_holder l w' k i tk (resume f t w).2); try done.
      by rewrite Hw', list_lookup_insert_ne.
  - intros Hfree.
    assert (Hl : target t w ≠ Some l).
    { rewrite <- (resume_held f). by apply (Hfree i). }
    rewrite resume_round_elsewhere by done. apply J2.
    intros k tk Hk Hh. destruct (decide (k = i)) as [->|Hne].
    + rewrite Ht in Hk. injection Hk as <-. apply Hl.
      by destruct t.
    + apply (Hfree k tk); [|done]. by rewrite Hw', list_lookup_insert_ne.
  - destruct (resume_status f t w l) as [_ ->]. apply J3.
Qed.

Lemma route_rounds_ok_at l r s (w : World) o s' w' :
  rounds_ok_at l w → route r s w = Some (o, s', w') → rounds_ok_at l w'.
Proof.
  intros (J1 & J2 & J3) E.
  destruct (request_is_create r) as [(d & ds & ->)|Hn].
  - cbn [route] in E.
    pose proof (λ l, create_lobby_writes _ _ _ _ _ _ _ l E) as Hc.
    destruct (Hc O) as (Hnext & Htasks & _ & Hr0 & Hm0 & _).
    unfold rounds_ok_at. rewrite Hnext, Htasks. split; [|split].
    + intros i t Hi Hl. destruct (J1 i t Hi Hl) as [Hlt Hr].
      split; [lia|]. destruct (Hc l) as (_ & _ & Hh & _).
      rewrite Hh by lia. done.
    + intros Hfree. destruct (decide (l = next_loc w)) as [->|Hne]; [done|].
      destruct (Hc l) as (_ & _ & Hh & _). rewrite Hh by done. by apply J2.
    + destruct (decide (l = next_loc w)) as [->|Hne]; [done|].
      destruct (Hc l) as (_ & _ & Hh & _). rewrite Hh by done. apply J3.
  - destruct (route_writes r s w o s' w' Hn E) as (Hnext & Htasks & Hw).
    unfold rounds_ok_at. rewrite Hnext. split; [|split].
    + intros i t Hi Hl. destruct (Hw l) as (-> & _).
      destruct Htasks as [Htasks|[code Htasks]]; rewrite Htasks in Hi.
      * by apply (J1 i).
      * apply lookup_app_Some in Hi as [Hi|[_ Hi]]; [by apply (J1 i)|].
        by apply list_lookup_singleton_Some in Hi as [_ <-].
    + intros Hfree. destruct (Hw l) as (-> & _). apply J2.
      intros i t Hi. apply (Hfree i).
      destruct Htasks as [->|[code ->]]; [done|]. by apply lookup_app_l_Some.
    + destruct (Hw l) as (_ & -> & _). apply J3.
Qed.

Lemma rounds_ok_at_ext l (w w' : World) :
  heap w' = heap w → next_loc w' = next_loc w → tasks w' = tasks w →
  rounds_ok_at l w → rounds_ok_at l w'.
Proof. unfold rounds_ok_at. intros -> -> ->. done. Qed.

Lemma step_rounds_ok_at l e (w : World) :
  world_wf w → rounds_ok_at l w → exclusive_at l (step e w) →
  rounds_ok_at l (step e w).
Proof.
  intros Hwf Hw. destruct e; cbn [step].
  - destruct (route r (session_of w client) w) as [[[o s] w']|] eqn:E; [|done].
    intros _. eapply rounds_ok_at_ext; [reflexivity..|].
    exact (route_rounds_ok_at _ _ _ _ _ _ _ Hw E).
  - intros _. unfold on_join.
    destruct (if truthy (user_id _) then _ else _); by eapply rounds_ok_at_ext.
  - intros _. unfold on_leave.
    destruct (if truthy (user_id _) then _ else _); by eapply rounds_ok_at_ext.
  - destruct (tasks w !! task) as [t|] eqn:Ht; [|done].
    pose proof (wake_rounds_ok_at l task f t w Hwf Hw Ht) as H. cbv zeta in H.
    by destruct (resume f t w) as [w' t'].
Qed.

Lemma step_rounds_ok e (w : World) :
  world_wf w → rounds_ok w → exclusive (step e w) → rounds_ok (step e w).
Proof.
  intros Hwf Hw Hx. apply rounds_ok_at_all. intros l.
  apply step_rounds_ok_at; [done| |by apply exclusive_exclusive_at].
  by apply rounds_ok_at_all.
Qed.

Lemma exec_snoc (w : World) es e : exec w (es ++ [e]) = step e (exec w es).
Proof. unfold exec. by rewrite foldl_app. Qed.

Lemma exclusive_run_snoc es : ∀ (w : World) e,
  exclusive_run w (es ++ [e]) ↔
  exclusive_run w es ∧ exclusive (exec w (es ++ [e])).
Proof.
  induction es as [|e0 es IH]; intros w e.
  - cbn. tauto.
  - cbn [app exclusive_run]. rewrite IH. cbn [exec foldl app]. tauto.
Qed.

Lemma exclusive_run_last es : ∀ w : World,
  exclusive_run w es → exclusive (exec w es).
Proof.
  induction es as [|e es IH]; intros w [Hx Hes]; [done|]. by apply IH.
Qed.

Lemma run_rounds_ok es :
  exclusive_run init es → rounds_ok (exec init es).
Proof.
  induction es as [|e es IH] using rev_ind; intros Hx.
  - apply init_rounds_ok.
  - apply exclusive_run_snoc in Hx as [Hes Hx]. rewrite exec_snoc in *.
    apply step_rounds_ok; [apply reachable_ok|by apply IH|done].
Qed.


Lemma exclusive_run_exclusive_run_at l es : ∀ w : World,
  exclusive_run w es → exclusive_run_at l w es.
Proof.
  induction es as [|e es IH]; intros w [Hx Hes];
    (split; [by apply exclusive_exclusive_at|]); [done|by apply IH].
Qed.


(** The counter of a dict moves by one step of the server: not at all,
    or up by one. *)
Lemma step_round_up_at e (w : World) l :
  world_wf w → rounds_ok_at l w → exclusive_at l (step e w) →
  round (heap (step e w) !!! l) = round (heap w !!! l)
  ∨ round (heap (step e w) !!! l) = round (heap w !!! l) + 1.
Proof.
  intros Hwf (J1 & J2 & J3). destruct e; cbn [step].
  - intros _.
    destruct (route r (session_of w client) w) as [[[o s] w']|] eqn:E;
      [|by left].
    unfold_world. left.
    destruct (request_is_create r) as [(d & ds & ->)|Hn].
    + cbn [route] in E.
      destruct (create_lobby_writes _ _ _ _ _ _ _ l E) as (_ & _ & Hh & Hr & _).
      destruct (decide (l = next_loc w)) as [->|Hne]; [|by rewrite Hh].
      rewrite Hr. symmetry. apply J2. intros i t Hi Hl.
      apply (J1 i t Hi) in Hl as [Hl _]. lia.
    + destruct (route_writes r _ w o s w' Hn E) as (_ & _ & Hw).
      by destruct (Hw l) as (-> & _).
  - intros _. left. unfold on_join.
    by destruct (if truthy (user_id _) then _ else _).
  - intros _. left. unfold on_leave.
    by destruct (if truthy (user_id _) then _ else _).
  - destruct (tasks w !! task) as [t|] eqn:Ht; [|by left].
    destruct (resume_frame f t w) as (_ & _ & _ & _ & Htasks).
    pose proof (resume_held f t w) as Hheld.
    pose proof (resume_round f t w l) as Hr.
    pose proof (resume_round_elsewhere f t w l) as He.
    destruct (resume f t w) as [w' t'] eqn:Eres. cbn [fst snd] in *.
    intros Hx. unfold_world.
    destruct (decide (target t w = Some l)) as [Hl|Hl]; [|left; by apply He].
    specialize (Hr Hl). cbv zeta in Hr.
    destruct t; cbn [target held] in Hl;
      try (destruct Hr as [-> _]; first [by left | by right]).
    destruct Hr as [-> _]. right.
    rewrite J2; [done|]. intros j tj Hj Hlj.
    assert (Hne : j ≠ task) by (intros ->; by rewrite Ht in Hj; injection Hj as <-).
    apply Hne.
    apply (exclusive_at_holder l _ j task tj t' Hx); unfold_world;
      rewrite ?Htasks.
    + by rewrite list_lookup_insert_ne.
    + apply list_lookup_insert_eq. by eapply lookup_lt_Some.
    + done.
    + by rewrite Hheld.
Qed.

Lemma step_round_up e (w : World) l :
  world_wf w → rounds_ok w → exclusive (step e w) →
  round (heap (step e w) !!! l) = round (heap w !!! l)
  ∨ round (heap (step e w) !!! l) = round (heap w !!! l) + 1.
Proof.
  intros Hwf Hok Hx. apply step_round_up_at; [done| |].
  - by apply rounds_ok_at_all.
  - by apply exclusive_exclusive_at.
Qed.


(** With two calls of [run_game] on one lobby (the host started it
    twice) the counter goes further: both calls can stand at the pause
    that ends round 10, and each then adds 1. *)
Lemma two_schedulers_pass_eleven :
  round (heap (exec init
           (started_twice ++ [wake 0 a_song; wake 1 a_song]
            ++ replicate 19 (wake 0 a_song)
            ++ [wake 1 a_song; wake 0 a_song; wake 1 a_song])) !!! O) = 12.
Proof. by vm_compute. Qed.

(** A game that has ended can be started again: [start_game] has no
    test of the status, and the second call of [run_game] sets the
    counter, which stood at 11, back to 1. *)
Lemma restart_resets_the_counter :
  round (heap (exec init
           (ten_rounds
            ++ [wake 0 a_song; http 0 (start_game_req (Some "001234"))])) !!! O)
  = 11
  ∧ round (heap (exec init
             (ten_rounds
              ++ [wake 0 a_song; http 0 (start_game_req (Some "001234"));
                  wake 1 a_song])) !!! O)
    = 1.
Proof. by vm_compute. Qed.



(** *** The similarity ratio *)

Module DifflibFacts.
Import Difflib.

Section Bounds.
Context {A : Type} `{EqDecision A}.
Variables a b : list A.

Lemma j2len_prev_bound alo blo bhi i j2len j :
  row_ok alo blo bhi i j2len → (blo ≤ j)%nat →
  (j2len_prev j2len j ≤ i - alo ∧ j2len_prev j2len j ≤ j - blo)%nat.
Proof.
  intros Hrow Hj. unfold j2len_prev. destruct j as [|j']; [lia|].
  destruct (j2len !! j') as [k|] eqn:E; simpl; [|lia].
  destruct (Hrow j' k E) as (? & ? & ? & ?). lia.
Qed.

Lemma row_loop_ok alo ahi blo bhi i j2len js :
  ∀ newj2len best,
    (alo ≤ i)%nat → (i < ahi)%nat → row_ok alo blo bhi i j2len →
    row_ok alo blo bhi (S i) newj2len → inside alo ahi blo bhi best →
    row_ok alo blo bhi (S i) (row_loop i blo bhi j2len js newj2len best).1
    ∧ inside alo ahi blo bhi (row_loop i blo bhi j2len js newj2len best).2.
Proof.
  induction js as [|j js IH]; intros newj2len best Hi Hi' Hrow Hnew Hbest;
    [done|].
  cbn [row_loop]. destruct (Nat.ltb_spec j blo) as [Hlt|Hge]; [by apply IH|].
  destruct (Nat.leb_spec bhi j) as [Hle|Hlt]; [done|].
  destruct (j2len_prev_bound alo blo bhi i j2len j Hrow Hge) as [Hk1 Hk2].
  apply IH; try done.
  - intros j' k'. rewrite lookup_insert.
    destruct (decide (j = j')) as [<-|Hne]; [|by apply Hnew].
    intros [= <-]. lia.
  - destruct (Nat.ltb_spec best.2 (j2len_prev j2len j + 1)); [|done].
    unfold inside. cbn [fst snd]. lia.
Qed.

Lemma scan_inside alo ahi blo bhi n :
  ∀ i j2len best,
    (alo ≤ i)%nat → (i + n = ahi)%nat → row_ok alo blo bhi i j2len →
    inside alo ahi blo bhi best →
    inside alo ahi blo bhi (scan a b n i blo bhi j2len best).
Proof.
  induction n as [|n IH]; intros i j2len best Hi Hn Hrow Hbest; [done|].
  cbn [scan].
  destruct (row_loop_ok alo ahi blo bhi i j2len
              (from_option (b2j b) [] (a !! i)) ∅ best) as [Hrow' Hbest'];
    try done; try lia.
  destruct (row_loop _ _ _ _ _ _ _) as [newj2len best'].
  apply IH; try done; lia.
Qed.

Lemma extend_left_inside alo ahi blo bhi besti :
  ∀ bestj bestsize,
    inside alo ahi blo bhi (besti, bestj, bestsize) →
    inside alo ahi blo bhi (extend_left a b alo blo besti bestj bestsize).
Proof.
  induction besti as [|i IH]; intros bestj bestsize Hin; [done|].
  cbn [extend_left]. destruct bestj as [|j]; [done|].
  destruct (Nat.ltb_spec alo (S i)); [|done].
  destruct (Nat.ltb_spec blo (S j)); [|done].
  destruct (same_at a b i j); [|done]. cbn [andb].
  apply IH. unfold inside in *. cbn [fst snd] in *. lia.
Qed.

Lemma extend_right_inside alo ahi blo bhi besti bestj fuel :
  ∀ bestsize,
    inside alo ahi blo bhi (besti, bestj, bestsize) →
    inside alo ahi blo bhi
      (besti, bestj, extend_right a b fuel ahi bhi besti bestj bestsize).
Proof.
  induction fuel as [|fuel IH]; intros bestsize Hin; [done|].
  cbn [extend_right].
  destruct (Nat.ltb_spec (besti + bestsize) ahi); [|done].
  destruct (Nat.ltb_spec (bestj + bestsize) bhi); [|done].
  destruct (same_at a b (besti + bestsize) (bestj + bestsize)); [|done].
  cbn [andb]. apply IH. unfold inside in *. cbn [fst snd] in *. lia.
Qed.

(** The second [while] of [find_longest_match] has left its loop when
    [extend_right] returns: the fuel [ahi] is not what stops it. *)
Lemma extend_right_exits ahi bhi besti bestj fuel :
  ∀ bestsize,
    (ahi ≤ besti + bestsize + fuel)%nat →
    let k := extend_right a b fuel ahi bhi besti bestj bestsize in
    (besti + k <? ahi)%nat && (bestj + k <? bhi)%nat
    && same_at a b (besti + k) (bestj + k) = false.
Proof.
  induction fuel as [|fuel IH]; intros bestsize Hfuel; cbn [extend_right].
  - cbv zeta. destruct (Nat.ltb_spec (besti + bestsize) ahi); [lia|done].
  - destruct ((besti + bestsize <? ahi)%nat && (bestj + bestsize <? bhi)%nat
              && same_at a b (besti + bestsize) (bestj + bestsize)) eqn:E;
      [|done].
    apply IH. lia.
Qed.

(** [find_longest_match] answers a block inside its window. *)
Lemma find_longest_match_inside alo ahi blo bhi :
  (alo ≤ ahi)%nat → (blo ≤ bhi)%nat →
  inside alo ahi blo bhi (find_longest_match a b alo ahi blo bhi).
Proof.
  intros Ha Hb. unfold find_longest_match.
  pose proof (scan_inside alo ahi blo bhi (ahi - alo) alo ∅ (alo, blo, O)) as Hs.
  destruct (scan a b (ahi - alo) alo blo bhi ∅ (alo, blo, O))
    as [[i0 j0] k0]. cbn [fst snd].
  pose proof (extend_left_inside alo ahi blo bhi i0 j0 k0) as Hl.
  destruct (extend_left a b alo blo i0 j0 k0) as [[i1 j1] k1].
  apply extend_right_inside, Hl, Hs; try done; try lia.
  unfold inside. cbn [fst snd]. lia.
Qed.

Lemma size_sum_snoc blocks m : size_sum (blocks ++ [m]) = (size_sum blocks + m.2)%nat.
Proof. unfold size_sum. rewrite fmap_app, sum_list_with_app. simpl. lia. Qed.

Lemma turns_cons q queue :
  turns (q :: queue) = (2 * (q.1.1.2 - q.1.1.1) + 1 + turns queue)%nat.
Proof. done. Qed.

Lemma room_a_cons q queue :
  room_a (q :: queue) = (q.1.1.2 - q.1.1.1 + room_a queue)%nat.
Proof. done. Qed.

Lemma room_b_cons q queue :
  room_b (q :: queue) = (q.2 - q.1.2 + room_b queue)%nat.
Proof. done. Qed.

Ltac queue_arith :=
  rewrite ?turns_cons, ?room_a_cons, ?room_b_cons in *; cbn [fst snd] in *.

(** The work list ends before the fuel does, and the blocks it finds fit
    side by side in [a] and in [b]. *)
Lemma blocks_loop_spec fuel :
  ∀ queue blocks,
    Forall window_ok queue → (turns queue < fuel)%nat →
    ∃ found,
      blocks_loop a b fuel queue blocks = Some found
      ∧ (size_sum found ≤ size_sum blocks + room_a queue)%nat
      ∧ (size_sum found ≤ size_sum blocks + room_b queue)%nat.
Proof.
  induction fuel as [|fuel IH]; intros queue blocks Hq Hfuel; [lia|].
  destruct queue as [|[[[alo ahi] blo] bhi] queue]; cbn [blocks_loop].
  { exists blocks. split; [done|]. lia. }
  apply Forall_cons in Hq as [[Ha Hb] Hq]. cbn [fst snd] in Ha, Hb.
  pose proof (find_longest_match_inside alo ahi blo bhi Ha Hb) as Hin.
  destruct (find_longest_match a b alo ahi blo bhi) as [[i j] k].
  unfold inside in Hin. queue_arith.
  destruct (Nat.eqb_spec k 0) as [->|Hk].
  - destruct (IH queue blocks Hq) as (found & E & H1 & H2); [lia|].
    exists found. split; [done|]. lia.
  - set (left := if (alo <? i)%nat && (blo <? j)%nat
                 then (alo, i, blo, j) :: queue else queue).
    set (right := if (i + k <? ahi)%nat && (j + k <? bhi)%nat
                  then ((i + k)%nat, ahi, (j + k)%nat, bhi) :: left else left).
    assert (Hleft : Forall window_ok left
      ∧ (turns left ≤ turns queue + 2 * (i - alo) + 1)%nat
      ∧ (room_a left ≤ room_a queue + (i - alo))%nat
      ∧ (room_b left ≤ room_b queue + (j - blo))%nat).
    { subst left. destruct (Nat.ltb_spec alo i), (Nat.ltb_spec blo j);
        cbn [andb]; queue_arith; repeat split; try done; try lia.
      apply Forall_cons. split; [|done]. unfold window_ok. cbn [fst snd]. lia. }
    destruct Hleft as (Hl1 & Hl2 & Hl3 & Hl4).
    assert (Hright : Forall window_ok right
      ∧ (turns right ≤ turns queue + 2 * (ahi - alo))%nat
      ∧ (room_a right + k ≤ room_a queue + (ahi - alo))%nat
      ∧ (room_b right + k ≤ room_b queue + (bhi - blo))%nat).
    { subst right.
      destruct (Nat.ltb_spec (i + k) ahi), (Nat.ltb_spec (j + k) bhi);
        cbn [andb]; queue_arith; repeat split; try done; try lia.
      apply Forall_cons. split; [|done]. unfold window_ok. cbn [fst snd]. lia. }
    destruct Hright as (Hr1 & Hr2 & Hr3 & Hr4).
    destruct (IH right (blocks ++ [(i, j, k)]) Hr1) as (found & E & H1 & H2);
      [lia|].
    exists found. split; [done|].
    rewrite size_sum_snoc in H1, H2. cbn [snd] in H1, H2. lia.
Qed.

(** [get_matching_blocks] returns: the fuel is never used up. *)
Lemma blocks_loop_terminates :
  is_Some (blocks_loop a b (2 * length a + 2) [(O, length a, O, length b)] []).
Proof.
  destruct (blocks_loop_spec (2 * length a + 2) [(O, length a, O, length b)] [])
    as (found & -> & _).
  - apply Forall_singleton. unfold window_ok. cbn [fst snd]. lia.
  - unfold turns. simpl. lia.
  - done.
Qed.

Lemma matches_le : (matches a b ≤ length a ∧ matches a b ≤ length b)%nat.
Proof.
  unfold matches, get_matching_blocks.
  destruct (blocks_loop_spec (2 * length a + 2) [(O, length a, O, length b)] [])
    as (found & -> & H1 & H2).
  - apply Forall_singleton. unfold window_ok. cbn [fst snd]. lia.
  - unfold turns. simpl. lia.
  - unfold size_sum, room_a, room_b in *. simpl in *. lia.
Qed.

(** The ratio is a number between 0 and 1. *)
Lemma ratio_range : (0 <= ratio a b)%Q ∧ (ratio a b <= 1)%Q.
Proof.
  unfold ratio, calculate_ratio. destruct matches_le as [Ha Hb].
  destruct (Nat.eqb_spec (length a + length b) 0) as [E|E]; [done|].
  unfold Qle. cbn [Qnum Qden].
  rewrite <- positive_nat_Z, Nat2Pos.id by done. lia.
Qed.

End Bounds.
End DifflibFacts.

(** *** The normal form of a title *)

Lemma lower_char_idemp c : Text.lower_char (Text.lower_char c) = Text.lower_char c.
Proof. by destruct c as [[] [] [] [] [] [] [] []]. Qed.

Lemma is_space_lower_char c : Text.is_space (Text.lower_char c) = Text.is_space c.
Proof. by destruct c as [[] [] [] [] [] [] [] []]. Qed.

Lemma lower_idemp s : Text.lower (Text.lower s) = Text.lower s.
Proof.
  induction s as [|c s IH]; [done|]. simpl. by rewrite lower_char_idemp, IH.
Qed.

Lemma lstrip_lower s : Text.lstrip (Text.lower s) = Text.lower (Text.lstrip s).
Proof.
  induction s as [|c s IH]; [done|]. simpl. rewrite is_space_lower_char.
  by destruct (Text.is_space c).
Qed.

Lemma rstrip_lower s : Text.rstrip (Text.lower s) = Text.lower (Text.rstrip s).
Proof.
  induction s as [|c s IH]; [done|]. simpl. rewrite IH, is_space_lower_char.
  destruct (Text.rstrip s); simpl; [|done]. by destruct (Text.is_space c).
Qed.

Lemma rstrip_idemp s : Text.rstrip (Text.rstrip s) = Text.rstrip s.
Proof.
  induction s as [|c s IH]; [done|]. simpl.
  destruct (Text.rstrip s) as [|d r] eqn:E.
  - destruct (Text.is_space c) eqn:Ec; [done|]. simpl. by rewrite Ec.
  - simpl in *. by rewrite IH.
Qed.

Lemma lstrip_length s : (String.length (Text.lstrip s) ≤ String.length s)%nat.
Proof.
  induction s as [|c s IH]; [done|]. simpl.
  destruct (Text.is_space c); simpl; lia.
Qed.

Lemma lstrip_head s c r : Text.lstrip s = String c r → Text.is_space c = false.
Proof.
  induction s as [|d s IH]; [done|]. simpl.
  destruct (Text.is_space d) eqn:E; [done|]. by intros [= <- _].
Qed.

Lemma lstrip_rstrip_lstrip s :
  Text.lstrip (Text.rstrip (Text.lstrip s)) = Text.rstrip (Text.lstrip s).
Proof.
  destruct (Text.lstrip s) as [|c r] eqn:E; [done|].
  apply lstrip_head in E. cbn [Text.rstrip].
  destruct (Text.rstrip r); rewrite ?E; cbn [Text.lstrip]; by rewrite E.
Qed.

(** What [clean_title] returns is in lower case and has no whitespace at
    either end: lowering or stripping it again changes nothing. *)
Lemma clean_title_normal title :
  Text.lower (clean_title title) = clean_title title
  ∧ Text.strip (clean_title title) = clean_title title.
Proof.
  unfold clean_title. split; [apply lower_idemp|].
  unfold Text.strip. rewrite lstrip_lower, rstrip_lower. f_equal.
  by rewrite lstrip_rstrip_lstrip, rstrip_idemp.
Qed.

Lemma lstrip_split s :
  ∃ pre, all_space pre = true ∧ s = pre +:+ Text.lstrip s.
Proof.
  induction s as [|c r (pre & Hp & IH)]; [by exists ""|].
  cbn [Text.lstrip]. destruct (Text.is_space c) eqn:E.
  - exists (String c pre). split; [cbn; by rewrite E|]. by rewrite IH at 1.
  - by exists "".
Qed.

Lemma rstrip_split s :
  ∃ post, all_space post = true ∧ s = Text.rstrip s +:+ post.
Proof.
  induction s as [|c r (post & Hp & IH)]; [by exists ""|].
  cbn [Text.rstrip]. destruct (Text.rstrip r) as [|d r'] eqn:E.
  - destruct (Text.is_space c) eqn:Ec.
    + exists (String c post). split; [cbn; by rewrite Ec|].
      by rewrite IH at 1.
    + exists post. split; [done|]. by rewrite IH at 1.
  - exists post. split; [done|]. by rewrite IH at 1.
Qed.

Lemma rstrip_last s c :
  last (list_ascii_of_string (Text.rstrip s)) = Some c → Text.is_space c = false.
Proof.
  induction s as [|d r IH]; [done|]. cbn [Text.rstrip].
  destruct (Text.rstrip r) as [|e r'] eqn:E.
  - destruct (Text.is_space d) eqn:Ed; [done|]. cbn. by intros [= <-].
  - cbn [list_ascii_of_string] in *. by rewrite last_cons_cons.
Qed.

Lemma strip_trimmed s : trimmed (Text.strip s).
Proof.
  intros c [H|H].
  - unfold Text.strip in H. rewrite <- lstrip_rstrip_lstrip in H.
    destruct (Text.lstrip (Text.rstrip (Text.lstrip s))) as [|d r] eqn:E;
      [done|].
    cbn in H. injection H as <-. by eapply lstrip_head.
  - by eapply rstrip_last.
Qed.

Lemma list_ascii_lower s :
  list_ascii_of_string (Text.lower s)
  = Text.lower_char <$> list_ascii_of_string s.
Proof. induction s as [|c r IH]; [done|]. cbn. by rewrite IH. Qed.

Lemma lower_trimmed s : trimmed s → trimmed (Text.lower s).
Proof.
  intros H c. rewrite list_ascii_lower, fmap_last.
  replace (head (Text.lower_char <$> list_ascii_of_string s))
    with (Text.lower_char <$> head (list_ascii_of_string s))
    by (by destruct (list_ascii_of_string s)).
  intros Hc.
  assert (∃ d, c = Text.lower_char d
               ∧ (head (list_ascii_of_string s) = Some d
                  ∨ last (list_ascii_of_string s) = Some d)) as (d & -> & Hd).
  { destruct Hc as [Hc|Hc]; apply fmap_Some in Hc as (d & Hd & ->); eauto. }
  rewrite is_space_lower_char. by apply H.
Qed.

Lemma capital_lower_char c : capital (Text.lower_char c) = false.
Proof. by destruct c as [[] [] [] [] [] [] [] []]. Qed.

Lemma lower_lowered s : lowered (Text.lower s).
Proof.
  unfold lowered. rewrite list_ascii_lower. apply Forall_fmap, Forall_true.
  intros c. apply capital_lower_char.
Qed.

Lemma lower_lowering s :
  Forall2 lowering (list_ascii_of_string s) (list_ascii_of_string (Text.lower s)).
Proof.
  rewrite list_ascii_lower. apply Forall2_fmap_r, Forall_Forall2_diag, Forall_true.
  intros c. unfold lowering. by destruct c as [[] [] [] [] [] [] [] []].
Qed.

(** No match of the pattern starts in a text without an opening
    parenthesis. *)
Lemma no_open_match_paren s : no_open s → Text.match_paren s = None.
Proof.
  unfold no_open. induction s as [|c r IH]; [done|]. cbn [list_ascii_of_string].
  intros H. apply Forall_cons in H as [Hc Hr]. cbn [Text.match_paren].
  destruct (Text.is_space c); [by rewrite IH|].
  destruct (Ascii.eqb_spec c "("); done.
Qed.

Lemma no_open_sub_from s : no_open s → Text.re_sub_parens s = s.
Proof.
  unfold Text.re_sub_parens. induction s as [|c r IH]; [done|]. intros H.
  cbn [Text.sub_from]. rewrite (no_open_match_paren _ H).
  unfold no_open in H. cbn in H. apply Forall_cons in H as [_ H]. by rewrite IH.
Qed.

Lemma append_cons c r s : String c r +:+ s = String c (r +:+ s).
Proof. done. Qed.

Lemma append_nil s : "" +:+ s = s.
Proof. done. Qed.

Lemma append_assoc (s1 s2 s3 : string) : (s1 +:+ s2) +:+ s3 = s1 +:+ s2 +:+ s3.
Proof.
  induction s1 as [|c r IH]; [done|]. by rewrite !append_cons, IH.
Qed.

Lemma length_append (s1 s2 : string) :
  String.length (s1 +:+ s2) = (String.length s1 + String.length s2)%nat.
Proof.
  induction s1 as [|c r IH]; [done|]. rewrite append_cons. cbn. by rewrite IH.
Qed.

Lemma sub_from_skip x v :
  Text.sub_from (String.length x) (x +:+ v) = Text.sub_from 0 v.
Proof. induction x as [|c x IH]; [done|]. rewrite append_cons. apply IH. Qed.

Lemma upto_close_body body v :
  no_close body →
  Text.upto_close (body +:+ String ")" v) = Some (S (String.length body)).
Proof.
  unfold no_close. induction body as [|c r IH]; [done|].
  cbn [list_ascii_of_string]. intros H. apply Forall_cons in H as [Hc Hr].
  rewrite append_cons. cbn [Text.upto_close String.length].
  destruct (Ascii.eqb_spec c ")"); [done|]. by rewrite IH.
Qed.

Lemma match_paren_segment ws body v :
  all_space ws = true → no_close body →
  Text.match_paren (ws +:+ String "(" (body +:+ String ")" v))
  = Some (String.length ws + S (S (String.length body)))%nat.
Proof.
  intros Hws Hb. induction ws as [|c r IH].
  - rewrite append_nil. cbn [Text.match_paren]. change (Text.is_space "(") with false.
    cbn. by rewrite upto_close_body.
  - cbn in Hws. apply andb_true_iff in Hws as [Hc Hr]. rewrite append_cons.
    cbn [Text.match_paren String.length]. rewrite Hc. by rewrite IH.
Qed.

Lemma match_paren_text u x :
  u ≠ "" → no_open u → no_space_last u → Text.match_paren (u +:+ x) = None.
Proof.
  unfold no_open, no_space_last.
  induction u as [|c r IH]; [done|]. intros _ Ho Hl.
  cbn [list_ascii_of_string] in *. apply Forall_cons in Ho as [Hc Hr].
  rewrite append_cons. cbn [Text.match_paren].
  destruct (Text.is_space c) eqn:Ec.
  - destruct r as [|d r']; [by specialize (Hl c eq_refl); congruence|].
    by rewrite IH.
  - destruct (Ascii.eqb_spec c "("); done.
Qed.

(** The leftmost parenthesised segment goes, with the whitespace before
    it. *)
Lemma re_sub_parens_cut u ws body v :
  no_open u → no_space_last u → all_space ws = true → no_close body →
  Text.re_sub_parens (u +:+ ws +:+ String "(" (body +:+ String ")" v))
  = u +:+ Text.re_sub_parens v.
Proof.
  unfold Text.re_sub_parens. intros Ho Hl Hws Hb.
  induction u as [|c r IH].
  - rewrite !append_nil.
    pose proof (match_paren_segment ws body v Hws Hb) as Hm.
    pose proof (sub_from_skip (ws +:+ String "(" (body +:+ ")")) v) as Hs.
    rewrite append_assoc, append_cons, append_assoc, append_cons, append_nil,
      length_append in Hs.
    cbn [String.length] in Hs. rewrite length_append in Hs.
    cbn [String.length] in Hs. rewrite <- Hs.
    destruct (ws +:+ String "(" (body +:+ String ")" v)) as [|c r] eqn:E.
    { by destruct ws. }
    cbn [Text.sub_from]. rewrite Hm.
    replace (String.length ws + S (String.length body + 1))%nat
      with (S (String.length ws + S (String.length body))) by lia.
    replace (String.length ws + S (S (String.length body)))%nat
      with (S (String.length ws + S (String.length body))) by lia.
    done.
  - pose proof (match_paren_text (String c r) (ws +:+ String "(" (body +:+ String ")" v))
                  ltac:(done) Ho Hl) as Hm.
    rewrite !append_cons in *. cbn [Text.sub_from]. rewrite Hm. f_equal. apply IH.
    + unfold no_open in *. cbn in Ho. by apply Forall_cons in Ho as [_ ?].
    + intros e He. apply Hl. destruct r as [|d r']; [done|].
      cbn [list_ascii_of_string] in *. by rewrite last_cons_cons.
Qed.

(** C7. [is_close_match] cleans both texts with [clean_title], takes
    the similarity ratio of the two character sequences, which lies
    between 0 and 1, and answers true exactly when the ratio is at least
    0.7. What [clean_title] does is this. The text left by the cut of the
    parenthesised segments is some whitespace, a core that neither
    starts nor ends with whitespace, and some whitespace again; the
    cleaned title is that core with every capital letter moved to its
    small letter and every other character kept; so it has no whitespace
    at either end and no capital letter. The cut leaves a text without an
    opening parenthesis as it is, and it takes out the leftmost segment
    from an opening parenthesis to the next closing one together with
    the whitespace before it. Whitespace is what [str.isspace] takes
    for it in Latin-1: the codes 9 to 13, 28 to 32, 133 and 160; the
    first example has a tab, a no-break space, a capital E with an acute
    accent and a multiplication sign in it. The two examples of the
    specification come out as stated: the first pair is equal once
    cleaned (ratio 1), the second has ratio 8/35. Outer whitespace does
    not count: untrimmed, the pair of "   Hello   " and "hello" would
    have ratio 10/16, below 0.7. A ratio of exactly 14/20 is accepted,
    one of 12/18 is not. *)
Theorem is_close_match_threshold :
  (∀ guess reference,
     let ratio := Difflib.ratio (list_ascii_of_string (clean_title guess))
                                (list_ascii_of_string (clean_title reference)) in
     clean_title guess = Text.lower (Text.strip (Text.re_sub_parens guess))
     ∧ (0 <= ratio)%Q ∧ (ratio <= 1)%Q
     ∧ (is_close_match guess reference = true ↔ (7 # 10 <= ratio)%Q))
  ∧ (∀ title,
       (∃ pre core post,
          all_space pre = true ∧ all_space post = true
          ∧ Text.re_sub_parens title = pre +:+ core +:+ post
          ∧ trimmed core
          ∧ Forall2 lowering (list_ascii_of_string core)
                             (list_ascii_of_string (clean_title title)))
       ∧ trimmed (clean_title title)
       ∧ lowered (clean_title title)
       ∧ (no_open title → Text.re_sub_parens title = title))
  ∧ (∀ u ws body v,
       no_open u → no_space_last u → all_space ws = true → no_close body →
       Text.re_sub_parens (u +:+ ws +:+ String "(" (body +:+ String ")" v))
       = u +:+ Text.re_sub_parens v)
  ∧ (∀ c, Text.is_space c
          = bool_decide (nat_of_ascii c
                         ∈ [9; 10; 11; 12; 13; 28; 29; 30; 31; 32; 133; 160]%nat))
  ∧ clean_title (String (ascii_of_nat 9) (String (ascii_of_nat 160)
                  (String (ascii_of_nat 201) ("COLE" +:+ String (ascii_of_nat 215)
                     (String (ascii_of_nat 133) (String (ascii_of_nat 10) ""))))))
    = String (ascii_of_nat 233) ("cole" +:+ String (ascii_of_nat 215) "")
  ∧ clean_title "Give Me Everything (feat. Nayer)" = "give me everything"
  ∧ is_close_match "Give Me Everything (feat. Nayer)" "give me everything" = true
  ∧ Difflib.ratio (list_ascii_of_string (clean_title "totally different"))
                  (list_ascii_of_string (clean_title "give me everything"))
    = (8 # 35)%Q
  ∧ is_close_match "totally different" "give me everything" = false
  ∧ clean_title "  Hello  (live) World (x)  " = "hello world"
  ∧ Difflib.ratio (list_ascii_of_string "   hello   ")
                  (list_ascii_of_string "hello") = (10 # 16)%Q
  ∧ is_close_match "   Hello   " "hello" = true
  ∧ Difflib.ratio (list_ascii_of_string (clean_title "abcdefgxyz"))
                  (list_ascii_of_string (clean_title "abcdefgqrs"))
    = (14 # 20)%Q
  ∧ is_close_match "abcdefgxyz" "abcdefgqrs" = true
  ∧ Difflib.ratio (list_ascii_of_string (clean_title "abcdefxyz"))
                  (list_ascii_of_string (clean_title "abcdefqrs"))
    = (12 # 18)%Q
  ∧ is_close_match "abcdefxyz" "abcdefqrs" = false.
Proof.
  split; [|split; [|split; [|split; [|repeat split; vm_compute; reflexivity]]]].
  - intros guess reference ratio. split; [done|].
    destruct (DifflibFacts.ratio_range
                (list_ascii_of_string (clean_title guess))
                (list_ascii_of_string (clean_title reference))) as [H0 H1].
    split; [done|]. split; [done|].
    unfold is_close_match. fold ratio. apply Qle_bool_iff.
  - intros title. split; [|split; [|split]].
    + destruct (lstrip_split (Text.re_sub_parens title)) as (pre & Hpre & E1).
      destruct (rstrip_split (Text.lstrip (Text.re_sub_parens title)))
        as (post & Hpost & E2).
      exists pre, (Text.strip (Text.re_sub_parens title)), post.
      split; [done|]. split; [done|].
      split; [unfold Text.strip; by rewrite <- E2|].
      split; [apply strip_trimmed|apply lower_lowering].
    + apply lower_trimmed, strip_trimmed.
    + apply lower_lowered.
    + apply no_open_sub_from.
  - apply re_sub_parens_cut.
  - intros c. destruct c as [[] [] [] [] [] [] [] []]; vm_compute; reflexivity.
Qed.

Lemma is_close_match_threshold_witness :
  Text.re_sub_parens ("Hello" +:+ "  " +:+ String "(" ("live" +:+ String ")" " World"))
  = "Hello" +:+ Text.re_sub_parens " World"
  ∧ Text.re_sub_parens "Hello World" = "Hello World".
Proof.
  split.
  - apply (proj1 (proj2 (proj2 is_close_match_threshold))).
    + unfold no_open. cbn [list_ascii_of_string].
      repeat (apply Forall_cons; split; [done|]). apply Forall_nil_2.
    + intros c [= <-]. reflexivity.
    + reflexivity.
    + unfold no_close. cbn [list_ascii_of_string].
      repeat (apply Forall_cons; split; [done|]). apply Forall_nil_2.
  - apply (proj1 (proj2 is_close_match_threshold) "Hello World").
    unfold no_open. cbn [list_ascii_of_string].
    repeat (apply Forall_cons; split; [done|]). apply Forall_nil_2.
Defined.

(** The same verdicts with the ratio and the threshold evaluated in
    binary64, as CPython evaluates them. *)
Lemma is_close_match_binary64_examples :
  is_close_match_binary64 "Give Me Everything (feat. Nayer)" "give me everything"
  = true
  ∧ is_close_match_binary64 "totally different" "give me everything" = false
  ∧ is_close_match_binary64 "   Hello   " "hello" = true
  ∧ is_close_match_binary64 "abcdefgxyz" "abcdefgqrs" = true
  ∧ is_close_match_binary64 "abcdefxyz" "abcdefqrs" = false.
Proof. by vm_compute. Qed.

(** *** What the routes do to the player lists *)

Lemma players_step_insert (h : gmap nat Lobby) l lobby l' :
  players_step (players (h !!! l)) (players lobby) →
  players_step (players (h !!! l')) (players (<[l := lobby]> h !!! l')).
Proof.
  intros H. destruct (decide (l = l')) as [->|Hne].
  - by rewrite lookup_total_insert_eq.
  - rewrite lookup_total_insert_ne by done. by left.
Qed.

Lemma join_lobby_players code uid_draw s (w : World) l :
  players_step (players (heap w !!! l))
               (players (heap (join_lobby code uid_draw s w).2 !!! l)).
Proof.
  unfold join_lobby.
  destruct (if truthy code then _ else _) as [[c l0]|]; [|by left].
  destruct (ensure_user_id uid_draw s) as [uid s1].
  destruct (existsb _ _) eqn:Ein; [by left|].
  destruct (Nat.leb_spec 8 (length (players (heap w !!! l0)))); [by left|].
  cbn [snd]. unfold_world. apply players_step_insert.
  right. left. split; [done|]. exists uid. split; [|done].
  by apply existsb_id_false.
Qed.

Lemma leave_lobby_players_step code s (w : World) l :
  players_step (players (heap w !!! l))
               (players (heap (leave_lobby code s w).2 !!! l)).
Proof.
  unfold leave_lobby.
  destruct (if truthy code then _ else _) as [[c l0]|]; [|by left].
  destruct (user_id s) as [pid|]; [|by left].
  destruct (filter _ _) as [|p ps] eqn:E; cbn [snd]; unfold_world.
  - apply players_step_insert. right. right. exists pid. cbv zeta.
    rewrite E. done.
  - rewrite insert_insert_eq, lookup_total_insert_eq.
    apply players_step_insert. right. right. exists pid. cbv zeta.
    rewrite E. done.
Qed.

Lemma start_game_players code s (w : World) l :
  players (heap (start_game code s w).2 !!! l) = players (heap w !!! l).
Proof.
  unfold start_game.
  destruct (if truthy code then _ else _) as [[c l0]|]; [|done].
  destruct (if truthy (user_id s) then _ else _) as [uid|]; [|done].
  destruct (negb _); [done|]. cbn [snd]. unfold_world.
  destruct (decide (l0 = l)) as [->|Hne].
  - by rewrite lookup_total_insert_eq.
  - by rewrite lookup_total_insert_ne.
Qed.

Lemma submit_guess_players guess lobby_code s (w : World) l :
  players (heap (submit_guess guess lobby_code s w).2 !!! l)
  = players (heap w !!! l).
Proof.
  unfold submit_guess.
  destruct (if truthy_json guess && truthy lobby_code then _ else _)
    as [[c l0]|]; [|done].
  destruct (guesses (heap w !!! l0)) as [g0|]; [|done].
  destruct (from_option submitted false (g0 !! user_id s)); [done|].
  cbn [snd]. unfold_world. destruct (decide (l0 = l)) as [->|Hne].
  - by rewrite lookup_total_insert_eq.
  - by rewrite lookup_total_insert_ne.
Qed.

Lemma create_lobby_players uid_draw code_draws s (w : World) o s' w' :
  create_lobby uid_draw code_draws s w = Some (o, s', w') →
  ∃ code,
    generate_lobby_code code_draws (lobbies w) = Some code
    ∧ o = Return (lobby_ok code true)
    ∧ s' = (ensure_user_id uid_draw s).2
    ∧ lobbies w' = <[code := next_loc w]> (lobbies w)
    ∧ next_loc w' = S (next_loc w)
    ∧ players (heap w' !!! next_loc w)
      = [ {| id := (ensure_user_id uid_draw s).1; is_host := true; score := 0 |} ]
    ∧ ∀ l, l ≠ next_loc w → heap w' !!! l = heap w !!! l.
Proof.
  unfold create_lobby.
  destruct (ensure_user_id uid_draw s) as [uid s1].
  destruct (generate_lobby_code code_draws (lobbies w)) as [code|]; [|done].
  simpl. intros [= <- <- <-]. exists code. unfold new_lobby.
  cbn [heap next_loc lobbies]. rewrite lookup_total_insert_eq.
  repeat split; try done. intros l Hne. by rewrite lookup_total_insert_ne.
Qed.

Lemma route_players r s (w : World) o s' w' l :
  (l < next_loc w)%nat → route r s w = Some (o, s', w') →
  players_step (players (heap w !!! l)) (players (heap w' !!! l)).
Proof.
  intros Hl. destruct r; cbn [route].
  - intros E. apply create_lobby_players in E as (c & _ & _ & _ & _ & _ & _ & Hh).
    rewrite Hh by lia. by left.
  - route_world E. apply join_lobby_players.
  - route_world E. apply leave_lobby_players_step.
  - route_world E. left. apply start_game_players.
  - route_world E. left. apply submit_guess_players.
  - route_world E. rewrite validate_guess_world. by left.
  - unfold reset_score. intros [= _ _ <-]. by left.
  - route_world E. rewrite init_session_world. by left.
Qed.

Lemma retry_loop_players lobby_code l n f (w : World) l' :
  players (heap (retry_loop lobby_code l n f w).1 !!! l')
  = players (heap w !!! l').
Proof.
  apply (retry_loop_heap_R (λ a b, players b = players a)); done.
Qed.

(** [run_game] writes a player list in one place, the scoring. *)
Lemma resume_players f t (w : World) l :
  players (heap (resume f t w).1 !!! l) = players (heap w !!! l)
  ∨ ∃ og title,
      players (heap (resume f t w).1 !!! l)
      = (score_players og title (players (heap w !!! l))).1.
Proof.
  destruct t; cbn [resume]; try by left.
  - destruct (lobbies w !! lobby_code) as [l0|]; [|by left]. left.
    rewrite loop_head_players. unfold_world.
    destruct (decide (l0 = l)) as [->|Hne].
    + by rewrite lookup_total_insert_eq.
    + by rewrite lookup_total_insert_ne.
  - left. apply retry_loop_players.
  - left. rewrite loop_head_players. apply next_round_players.
  - rewrite close_round_heap. destruct (decide (l0 = l)) as [->|Hne].
    + right. exists (guesses (heap w !!! l)), (song song_data).
      by rewrite lookup_total_insert_eq.
    + left. by rewrite lookup_total_insert_ne.
  - left. rewrite loop_head_players. apply next_round_players.
Qed.

(** One step of the server, seen from one lobby dict that is there
    already: a request changes the list as [players_step] says, a step
    of [run_game] leaves it or scores it. *)
Lemma step_players e (w : World) l :
  (l < next_loc w)%nat →
  players_step (players (heap w !!! l)) (players (heap (step e w) !!! l))
  ∨ ∃ og title,
      players (heap (step e w) !!! l)
      = (score_players og title (players (heap w !!! l))).1.
Proof.
  intros Hl. destruct e; cbn [step].
  - destruct (route r (session_of w client) w) as [[[o s] w']|] eqn:E;
      [|by left; left].
    left. unfold_world. by eapply route_players.
  - left. left. unfold on_join.
    by destruct (if truthy (user_id _) then _ else _).
  - left. left. unfold on_leave.
    by destruct (if truthy (user_id _) then _ else _).
  - destruct (tasks w !! task) as [t|]; [|by left; left].
    pose proof (resume_players f t w l) as H.
    destruct (resume f t w) as [w' t']. unfold_world.
    destruct H as [->|H]; [by left; left|by right].
Qed.

(** A step allocates nothing, or one new dict with its creator as the
    only player. *)
Lemma step_alloc e (w : World) :
  next_loc (step e w) = next_loc w
  ∨ (next_loc (step e w) = S (next_loc w)
     ∧ ∃ uid, players (heap (step e w) !!! next_loc w)
              = [ {| id := uid; is_host := true; score := 0 |} ]).
Proof.
  destruct e; cbn [step].
  - destruct (route r (session_of w client) w) as [[[o s] w']|] eqn:E;
      [|by left].
    unfold_world. destruct (request_is_create r) as [(d & ds & ->)|Hn].
    + cbn [route] in E.
      apply create_lobby_players in E as (c & _ & _ & _ & _ & -> & Hp & _).
      right. split; [done|]. by eexists.
    + left. by destruct (route_writes r _ w o s w' Hn E) as (-> & _).
  - left. unfold on_join. by destruct (if truthy (user_id _) then _ else _).
  - left. unfold on_leave. by destruct (if truthy (user_id _) then _ else _).
  - destruct (tasks w !! task) as [t|]; [|by left]. left.
    destruct (resume_frame f t w) as (Hn & _).
    by destruct (resume f t w) as [w' t'].
Qed.

(** *** The size of a lobby *)

Lemma players_step_length before after :
  players_step before after → (length before ≤ 8)%nat →
  (length after ≤ 8)%nat.
Proof.
  intros [->|[[Hlt (uid & _ & ->)]|(pid & ->)]] Hle; [done| |].
  - rewrite length_app. simpl. lia.
  - cbv zeta.
    pose proof (length_filter (λ p, id p ≠ pid) before) as Hf.
    destruct (existsb is_host _); [lia|].
    destruct (filter (λ p, id p ≠ pid) before); simpl in *; lia.
Qed.

Lemma step_sized e (w : World) : lobbies_sized w → lobbies_sized (step e w).
Proof.
  intros Hcap l Hl. destruct (Nat.lt_ge_cases l (next_loc w)) as [Hlt|Hge].
  - destruct (step_players e w l Hlt) as [H|(g & title & ->)].
    + eapply players_step_length; [exact H|by apply Hcap].
    + rewrite length_score_players. by apply Hcap.
  - destruct (step_alloc e w) as [E|[E (uid & Hp)]]; [lia|].
    replace l with (next_loc w) by lia. rewrite Hp. simpl. lia.
Qed.

Lemma reachable_sized es : lobbies_sized (exec init es).
Proof.
  induction es as [|e es IH] using rev_ind.
  - intros l Hl. cbn in Hl. lia.
  - rewrite exec_snoc. by apply step_sized.
Qed.

(** X1. In every state the server can reach, a lobby that [lobbies]
    still names has at least one player and at most eight, under
    distinct ids and with no score below 0. *)
Theorem live_lobby_has_one_to_eight_players es code l :
  lobbies (exec init es) !! code = Some l →
  let ps := players (heap (exec init es) !!! l) in
  (1 ≤ length ps ≤ 8)%nat ∧ NoDup (id <$> ps)
  ∧ Forall (λ p, (0 ≤ score p)%Z) ps.
Proof.
  intros Hl ps. destruct (reachable_ok es) as (Hwf & Hlisted & _).
  destruct (Hlisted code l Hl) as [Hlt Hne].
  destruct (Hwf l) as (_ & Hs & Hn).
  pose proof (reachable_sized es l Hlt) as Hcap. fold ps in Hne, Hcap.
  repeat split; try done. destruct ps; [done|simpl; lia].
Qed.

Lemma live_lobby_has_one_to_eight_players_witness :
  (1 ≤ length (players (heap (exec init host_leaves) !!! O)) ≤ 8)%nat
  ∧ NoDup (id <$> players (heap (exec init host_leaves) !!! O)).
Proof.
  assert (Hl : lobbies (exec init host_leaves) !! "001234" = Some O)
    by (by vm_compute).
  destruct (live_lobby_has_one_to_eight_players host_leaves "001234" O Hl)
    as (H1 & H2 & _).
  by split.
Defined.

(** *** Scores only grow *)

Lemma scores_grow_refl ps : scores_grow ps ps.
Proof. intros p Hp. left. exists p. repeat split; try done; lia. Qed.

Lemma scores_grow_promote ps qs :
  scores_grow ps qs → scores_grow ps (promote_first qs).
Proof.
  intros H p' Hp'. destruct qs as [|q qs]; [by apply elem_of_nil in Hp'|].
  simpl in Hp'.
  apply elem_of_cons in Hp' as [->|Hp'].
  - apply (H q). apply list_elem_of_here.
  - apply (H p'). by apply list_elem_of_further.
Qed.

Lemma players_step_scores_grow before after :
  players_step before after → scores_grow before after.
Proof.
  intros [->|[[_ (uid & Hn & ->)]|(pid & ->)]].
  - apply scores_grow_refl.
  - intros p' Hp'. apply elem_of_app in Hp' as [Hp'|Hp'].
    + by apply scores_grow_refl.
    + apply list_elem_of_singleton in Hp' as ->. by right.
  - cbv zeta.
    assert (Hf : scores_grow before (filter (λ p, id p ≠ pid) before)).
    { intros p' [_ Hp']%list_elem_of_filter. by apply scores_grow_refl. }
    destruct (existsb is_host _); [done|]. by apply scores_grow_promote.
Qed.

Lemma score_player_scores_grow g title ps :
  scores_grow ps (score_player g title <$> ps).
Proof.
  intros p' (p & -> & Hp)%list_elem_of_fmap. left. exists p.
  split; [done|]. unfold score_player.
  destruct (is_correct _ _); cbn [id score]; split; try done; lia.
Qed.

Lemma score_players_scores_grow og title ps :
  scores_grow ps (score_players og title ps).1.
Proof.
  destruct (score_players_split og title ps) as [k ->].
  intros p' [Hp'|Hp']%elem_of_app.
  - destruct (score_player_scores_grow (default ∅ og) title (take k ps) p' Hp')
      as [(p & Hp & ?)|[Hn _]].
    + left. exists p. split; [|done].
      rewrite <- (take_drop k ps). apply elem_of_app. by left.
    + destruct Hn. apply list_elem_of_fmap in Hp' as (p & -> & Hp).
      apply list_elem_of_fmap. exists p. split; [|done].
      unfold score_player. by destruct (is_correct _ _).
  - left. exists p'. split; [|split; [done|lia]].
    rewrite <- (take_drop k ps). apply elem_of_app. by right.
Qed.

(** X2. No step of the server lowers a score. In a lobby dict, after any
    request, socket event or step of [run_game], every player either was
    there before under the same id, with a score that is now the same or
    exactly one higher, or has just joined under a new id at score 0. *)
Theorem scores_never_decrease e (w : World) l :
  (l < next_loc w)%nat →
  scores_grow (players (heap w !!! l)) (players (heap (step e w) !!! l)).
Proof.
  intros Hl. destruct (step_players e w l Hl) as [H|(g & title & ->)].
  - by apply players_step_scores_grow.
  - apply score_players_scores_grow.
Qed.

Lemma scores_never_decrease_witness :
  (O < next_loc round_under_way)%nat
  ∧ scores_grow
      (players (heap round_under_way !!! O))
      (players (heap (step (wake 0 fetch_error) round_under_way) !!! O)).
Proof.
  assert (H : (O < next_loc round_under_way)%nat) by (vm_compute; lia).
  split; [exact H|].
  exact (scores_never_decrease (wake 0 fetch_error) round_under_way O H).
Defined.

(** *** Lobby codes *)

Lemma digit_is_digit n : is_digit (digit n) = true.
Proof.
  unfold digit. pose proof (N.mod_upper_bound n 10 ltac:(done)) as H.
  set (m := (n mod 10)%N) in *. clearbody m.
  assert (Hc : (m = 0 ∨ m = 1 ∨ m = 2 ∨ m = 3 ∨ m = 4 ∨ m = 5 ∨ m = 6
                ∨ m = 7 ∨ m = 8 ∨ m = 9)%N) by lia.
  destruct Hc as [->|[->|[->|[->|[->|[->|[->|[->|[->| ->]]]]]]]]]; done.
Qed.

Lemma random_code_digits draw :
  String.length (random_code draw) = 6%nat ∧ all_digits (random_code draw) = true.
Proof.
  split; [done|]. unfold random_code. cbn [all_digits].
  by rewrite !digit_is_digit.
Qed.

Lemma generate_lobby_code_Some draws (m : gmap string nat) code :
  generate_lobby_code draws m = Some code →
  m !! code = None ∧ ∃ d, d ∈ draws ∧ code = random_code d.
Proof.
  induction draws as [|d draws IH]; [done|]. cbn [generate_lobby_code].
  destruct (m !! random_code d) eqn:E.
  - intros H. destruct (IH H) as (Hn & d' & Hd & ->). split; [done|].
    exists d'. split; [by apply list_elem_of_further|done].
  - intros [= <-]. split; [done|]. exists d. split; [apply list_elem_of_here|done].
Qed.

Lemma generate_lobby_code_free draws (m : gmap string nat) d :
  d ∈ draws → m !! random_code d = None →
  is_Some (generate_lobby_code draws m).
Proof.
  induction draws as [|d' draws IH]; intros Hin Hfree.
  - by apply elem_of_nil in Hin.
  - cbn [generate_lobby_code]. destruct (m !! random_code d') eqn:E; [|done].
    apply elem_of_cons in Hin as [->|Hin]; [congruence|by apply IH].
Qed.

(** X3. The code [generate_lobby_code] returns is six decimal digits and
    is not a key of [lobbies]; it does return as soon as one of the
    codes drawn is free. *)
Theorem generate_lobby_code_fresh draws (m : gmap string nat) :
  (∀ code, generate_lobby_code draws m = Some code →
     m !! code = None ∧ String.length code = 6%nat ∧ all_digits code = true)
  ∧ (∀ d, d ∈ draws → m !! random_code d = None →
       is_Some (generate_lobby_code draws m)).
Proof.
  split.
  - intros code H. apply generate_lobby_code_Some in H as (Hn & d & _ & ->).
    split; [done|]. apply random_code_digits.
  - apply generate_lobby_code_free.
Qed.

Lemma generate_lobby_code_fresh_witness :
  (∅ : gmap string nat) !! "001234" = None
  ∧ String.length "001234" = 6%nat ∧ all_digits "001234" = true.
Proof.
  exact (proj1 (generate_lobby_code_fresh [1234%N] ∅) "001234" eq_refl).
Defined.

(** X4. [create_lobby] takes no code that is in use: every code that
    named a lobby still names the same dict, untouched, the new code
    names a new dict whose only player is the caller, as host with score
    0, in status [waiting] at round 0, and the caller is answered that
    code. *)
Theorem create_lobby_keeps_other_lobbies uid_draw code_draws s (w : World) o s' w' :
  world_wf w →
  create_lobby uid_draw code_draws s w = Some (o, s', w') →
  ∃ code l,
    o = Return (lobby_ok code true)
    ∧ lobbies w !! code = None
    ∧ lobbies w' !! code = Some l
    ∧ players (heap w' !!! l)
      = [ {| id := (ensure_user_id uid_draw s).1; is_host := true; score := 0 |} ]
    ∧ status (heap w' !!! l) = waiting ∧ round (heap w' !!! l) = 0
    ∧ guesses (heap w' !!! l) = None
    ∧ user_id s' = Some (ensure_user_id uid_draw s).1
    ∧ ∀ c l0, lobbies w !! c = Some l0 →
        lobbies w' !! c = Some l0 ∧ heap w' !!! l0 = heap w !!! l0.
Proof.
  intros (_ & Hlisted & _) E.
  pose proof E as E'. unfold create_lobby in E'.
  destruct (ensure_user_id uid_draw s) as [uid s1] eqn:Eu.
  destruct (generate_lobby_code code_draws (lobbies w)) as [code|] eqn:Eg;
    [|done].
  simpl in E'. injection E' as <- <- <-.
  apply generate_lobby_code_Some in Eg as [Hfree _].
  exists code, (next_loc w). unfold new_lobby. cbn [heap next_loc lobbies fst].
  rewrite lookup_insert_eq, lookup_total_insert_eq. cbn.
  repeat split; try done.
  - unfold ensure_user_id in Eu. destruct (user_id s) eqn:Es.
    + by injection Eu as <- <-.
    + by injection Eu as <- <-.
  - rewrite lookup_insert_ne; [done|]. intros <-. congruence.
  - apply Hlisted in H as [Hlt _]. rewrite lookup_total_insert_ne; [done|lia].
Qed.

Lemma create_lobby_keeps_other_lobbies_witness :
  ∃ o s' w',
    create_lobby 5 [1234%N] empty_session init = Some (o, s', w')
    ∧ ∃ code l, o = Return (lobby_ok code true)
                ∧ lobbies init !! code = None
                ∧ lobbies w' !! code = Some l.
Proof.
  destruct (create_lobby 5 [1234%N] empty_session init) as [[[o s'] w']|] eqn:E;
    [|vm_compute in E; discriminate E].
  exists o, s', w'. split; [done|].
  destruct (create_lobby_keeps_other_lobbies 5 [1234%N] empty_session init
              o s' w' init_ok E) as (code & l & Ho & Hn & Hl & _).
  by exists code, l.
Defined.

(** *** Sessions *)

Lemma ensure_user_id_keeps draw s uid :
  user_id s = Some uid → ensure_user_id draw s = (uid, s).
Proof. intros H. unfold ensure_user_id. by rewrite H. Qed.

Lemma ensure_user_id_sets draw s :
  user_id (ensure_user_id draw s).2 = Some (ensure_user_id draw s).1.
Proof. unfold ensure_user_id. by destruct (user_id s) eqn:E. Qed.

(** A route leaves the [user_id] of its session as it is once there is
    one. *)
Lemma route_user_id r s (w : World) o s' w' uid :
  user_id s = Some uid → route r s w = Some (o, s', w') →
  user_id s' = Some uid.
Proof.
  intros Hu. destruct r; cbn [route].
  - unfold create_lobby. rewrite (ensure_user_id_keeps _ _ _ Hu).
    destruct (generate_lobby_code _ _); [|done]. simpl. by intros [= _ <- _].
  - unfold join_lobby. rewrite (ensure_user_id_keeps _ _ _ Hu).
    intros [= E]. revert E. repeat case_match; by intros [= _ <- _].
  - unfold leave_lobby. rewrite Hu.
    intros [= E]. revert E. repeat case_match; by intros [= _ <- _].
  - unfold start_game. intros [= E]. revert E.
    repeat case_match; by intros [= _ <- _].
  - unfold submit_guess. intros [= E]. revert E.
    repeat case_match; by intros [= _ <- _].
  - unfold validate_guess. intros [= E]. revert E.
    repeat case_match; by intros [= _ <- _].
  - unfold reset_score. by intros [= _ <- _].
  - unfold init_session. rewrite (ensure_user_id_keeps _ _ _ Hu).
    by intros [= _ <- _].
Qed.

Lemma step_sessions e (w : World) :
  sessions (step e w) = sessions w
  ∨ ∃ client r o s' w',
      e = http client r
      ∧ route r (session_of w client) w = Some (o, s', w')
      ∧ sessions w' = sessions w
      ∧ sessions (step e w) = <[client := s']> (sessions w).
Proof.
  destruct e; cbn [step].
  - destruct (route r (session_of w client) w) as [[[o s] w']|] eqn:E;
      [|by left].
    right. exists client, r, o, s, w'. split; [done|]. split; [done|].
    assert (Hs : sessions w' = sessions w).
    { destruct r; cbn [route] in E.
      - unfold create_lobby in E.
        destruct (ensure_user_id _ _), (generate_lobby_code _ _); [|done].
        simpl in E. by injection E as _ _ <-.
      - injection E as E. apply (f_equal snd) in E. cbn [snd] in E. subst w'.
        unfold join_lobby. by repeat case_match.
      - injection E as E. apply (f_equal snd) in E. cbn [snd] in E. subst w'.
        unfold leave_lobby. by repeat case_match.
      - injection E as E. apply (f_equal snd) in E. cbn [snd] in E. subst w'.
        unfold start_game. by repeat case_match.
      - injection E as E. apply (f_equal snd) in E. cbn [snd] in E. subst w'.
        unfold submit_guess. by repeat case_match.
      - injection E as E. apply (f_equal snd) in E. cbn [snd] in E. subst w'.
        by rewrite validate_guess_world.
      - unfold reset_score in E. by injection E as _ _ <-.
      - injection E as E. apply (f_equal snd) in E. cbn [snd] in E. subst w'.
        by rewrite init_session_world. }
    split; [done|]. unfold_world. by rewrite Hs.
  - left. unfold on_join. by destruct (if truthy (user_id _) then _ else _).
  - left. unfold on_leave. by destruct (if truthy (user_id _) then _ else _).
  - destruct (tasks w !! task) as [t|]; [|by left]. left.
    destruct (resume_frame f t w) as (_ & _ & _ & Hs & _).
    by destruct (resume f t w) as [w' t'].
Qed.

(** X5. The identity of a browser is drawn once: when its session holds
    a [user_id], no request of that browser or of any other, no socket
    event and no step of [run_game] changes it. *)
Theorem user_id_is_kept e (w : World) client uid :
  user_id (session_of w client) = Some uid →
  user_id (session_of (step e w) client) = Some uid.
Proof.
  intros Hu. unfold session_of in *.
  destruct (step_sessions e w) as [->|(c & r & o & s' & w' & -> & E & _ & ->)];
    [done|].
  destruct (decide (c = client)) as [->|Hne].
  - rewrite lookup_insert_eq. simpl. by eapply route_user_id.
  - by rewrite lookup_insert_ne.
Qed.

Lemma user_id_is_kept_witness :
  user_id (session_of (step (http 0 (init_session_req 9)) one_lobby) 0)
  = Some "10005".
Proof. apply user_id_is_kept. by vm_compute. Defined.

(** *** Joining twice *)

Lemma existsb_app {A} (f : A → bool) (l k : list A) :
  existsb f (l ++ k) = existsb f l || existsb f k.
Proof. induction l as [|x l IH]; [done|]. simpl. by rewrite IH, orb_assoc. Qed.

Lemma existsb_weaken {A} (f g : A → bool) (l : list A) :
  (∀ x, g x = true → f x = true) → existsb f l = false → existsb g l = false.
Proof.
  intros Hfg. induction l as [|x l IH]; [done|]. simpl.
  intros [Hx Hl]%orb_false_elim. rewrite (IH Hl), orb_false_r.
  destruct (g x) eqn:E; [|done]. apply Hfg in E. congruence.
Qed.

(** X6. Joining is idempotent: when [join_lobby] has answered with the
    code, the same browser joining again gets the same answer, host flag
    included, and nothing changes: no second entry in the player
    list, no second [player_joined]. *)
Theorem join_lobby_twice code uid_draw uid_draw' s (w : World) c b s1 w1 :
  join_lobby code uid_draw s w = (Return (lobby_ok c b), s1, w1) →
  join_lobby code uid_draw' s1 w1 = (Return (lobby_ok c b), s1, w1).
Proof.
  unfold join_lobby at 1.
  destruct (if truthy code then _ else _) as [[c0 l]|] eqn:Ec; [|done].
  pose proof (ensure_user_id_sets uid_draw s) as Hset.
  destruct (ensure_user_id uid_draw s) as [uid s0] eqn:Eu. cbn [fst snd] in Hset.
  destruct (existsb (λ p, bool_decide (id p = uid)) (players (heap w !!! l)))
    eqn:Ein.
  - intros [= <- <- <- <-]. unfold join_lobby. rewrite Ec.
    rewrite (ensure_user_id_keeps _ _ _ Hset). by rewrite Ein.
  - destruct (8 <=? _)%nat; [done|]. intros [= <- <- <- <-].
    assert (Ht : truthy code = true) by (by destruct (truthy code)).
    apply lookup_code_inv in Ec as [-> Hl]. unfold join_lobby.
    assert (Ec' : (if truthy (Some c0)
                   then Some c0 ≫= λ c, pair c <$>
                          lobbies (perform (Emit (player_joined uid) (lobby_room c0))
                            (set_lobby l (set_players
                               (players (heap w !!! l)
                                ++ [{| id := uid; is_host := false; score := 0 |}])
                               (heap w !!! l)) w)) !! c
                   else None) = Some (c0, l)).
    { unfold_world. rewrite Ht. simpl. by rewrite Hl. }
    rewrite Ec', (ensure_user_id_keeps _ _ _ Hset).
    unfold_world. rewrite lookup_total_insert_eq. unfold set_players.
    cbn [players]. rewrite !existsb_app. cbn [existsb id is_host].
    rewrite bool_decide_eq_true_2 by done. rewrite orb_true_r.
    assert (Eh : existsb (λ p, bool_decide (id p = uid) && is_host p)
                   (players (heap w !!! l)) = false).
    { revert Ein. apply existsb_weaken. by intros x [? _]%andb_true_iff. }
    by rewrite Eh.
Qed.

Lemma join_lobby_twice_witness :
  join_lobby (Some "001234") 9
    (join_lobby (Some "001234") 7 (session_of one_lobby 1) one_lobby).1.2
    (join_lobby (Some "001234") 7 (session_of one_lobby 1) one_lobby).2
  = (Return (lobby_ok "001234" false),
     (join_lobby (Some "001234") 7 (session_of one_lobby 1) one_lobby).1.2,
     (join_lobby (Some "001234") 7 (session_of one_lobby 1) one_lobby).2).
Proof.
  apply (join_lobby_twice (Some "001234") 7 9 (session_of one_lobby 1) one_lobby).
  destruct (join_lobby (Some "001234") 7 (session_of one_lobby 1) one_lobby)
    as [[o s1] w1] eqn:E.
  assert (Ho : o = Return (lobby_ok "001234" false)).
  { apply (f_equal (λ x, x.1.1)) in E. cbn [fst] in E. rewrite <- E.
    by vm_compute. }
  by rewrite Ho.
Defined.

(** *** Leaving as the last player *)

(** X7. [leave_lobby] deletes the lobby exactly when nobody stays: the
    code is then free again, [get_lobby] and [join_lobby] answer 404 for
    it, and no [player_left] is emitted. When a player stays the code
    keeps naming the same dict and [player_left] goes to the room. In
    both cases the socket of the leaver is forgotten. *)
Theorem leave_lobby_destroys_empty_lobby code l pid s (w : World) :
  truthy (Some code) = true → lobbies w !! code = Some l →
  user_id s = Some pid →
  let w' := (leave_lobby (Some code) s w).2 in
  user_socket_map w' = delete pid (user_socket_map w)
  ∧ match filter (λ p, id p ≠ pid) (players (heap w !!! l)) with
    | [] =>
        lobbies w' = delete code (lobbies w)
        ∧ get_lobby code w' = inr (error 404 "Lobby not found")
        ∧ (∀ uid_draw s2,
             join_lobby (Some code) uid_draw s2 w'
             = (Return (error 404 "Invalid lobby code"), s2, w'))
        ∧ log w' = log w
    | _ :: _ =>
        lobbies w' = lobbies w
        ∧ log w' = log w ++ [Emit (player_left pid) (lobby_room code)]
    end.
Proof.
  intros Hc Hl Hu w'. subst w'. unfold leave_lobby.
  rewrite (lookup_code _ _ _ Hc Hl), Hu.
  destruct (filter _ _) as [|p ps]; cbn [snd]; unfold_world.
  - split; [done|]. split; [done|]. unfold get_lobby, join_lobby. unfold_world.
    rewrite Hc. simpl. rewrite lookup_delete_eq. done.
  - done.
Qed.

Lemma leave_lobby_destroys_empty_lobby_witness :
  lobbies (leave_lobby (Some "001234") (session_of one_lobby 0) one_lobby).2
  = delete "001234" (lobbies one_lobby)
  ∧ get_lobby "001234"
      (leave_lobby (Some "001234") (session_of one_lobby 0) one_lobby).2
    = inr (error 404 "Lobby not found").
Proof.
  assert (Hl : lobbies one_lobby !! "001234" = Some O) by (by vm_compute).
  assert (Hu : user_id (session_of one_lobby 0) = Some "10005")
    by (by vm_compute).
  pose proof (leave_lobby_destroys_empty_lobby "001234" O "10005"
                (session_of one_lobby 0) one_lobby eq_refl Hl Hu) as H.
  cbv zeta in H. destruct H as [_ H].
  assert (Hf : filter (λ p, id p ≠ "10005") (players (heap one_lobby !!! O)) = [])
    by (by vm_compute).
  rewrite Hf in H. by destruct H as (H1 & H2 & _).
Defined.

(** *** One guess per round *)

(** X8. A guess is taken once per round and per user id. After
    [submit_guess] has accepted a guess, of whatever JSON type, that
    value is what the scoring will read for a player of that id, the
    guesses of the others are as they were, and any further guess under
    the same id, from any browser, is answered 400 and changes nothing.
    Sessions without a [user_id] share one slot. *)
Theorem submit_guess_once guess code l s (w : World) m :
  truthy_json guess = true → truthy (Some code) = true →
  lobbies w !! code = Some l → guesses (heap w !!! l) = Some m →
  from_option submitted false (m !! user_id s) = false →
  let w' := (submit_guess guess (Some code) s w).2 in
  (submit_guess guess (Some code) s w).1 = (Return guess_ok, s)
  ∧ (∃ m', guesses (heap w' !!! l) = Some m'
           ∧ (∀ p, user_id s = Some (id p) → player_guess_of m' p = guess)
           ∧ ∀ k, k ≠ user_id s → m' !! k = m !! k)
  ∧ (∀ guess2 s2,
       truthy_json guess2 = true → user_id s2 = user_id s →
       submit_guess guess2 (Some code) s2 w'
       = (Return (error 400 "You have already made a guess this round"), s2, w')).
Proof.
  intros Hg Hc Hl Hm Hs w'.
  assert (E : submit_guess guess (Some code) s w
              = (Return guess_ok, s,
                 perform (Emit (player_guessed (user_id s)) (lobby_room code))
                   (set_lobby l
                      (set_guesses
                         (<[user_id s := {| guess := guess; submitted := true |}]> m)
                         (heap w !!! l)) w))).
  { unfold submit_guess. rewrite Hg, Hc. cbn [andb mbind option_bind].
    rewrite Hl. cbn [fmap option_fmap option_map]. by rewrite Hm, Hs. }
  subst w'. rewrite E. cbn [fst snd]. split; [done|]. unfold_world.
  rewrite lookup_total_insert_eq. unfold set_guesses. cbn [guesses]. split.
  - eexists. split; [done|]. split.
    + intros p Hp. unfold player_guess_of. by rewrite <- Hp, lookup_insert_eq.
    + intros k Hk. by rewrite lookup_insert_ne.
  - intros guess2 s2 Hg2 Hu. unfold submit_guess. rewrite Hg2, Hc.
    cbn [andb mbind option_bind]. unfold_world. rewrite Hl.
    cbn [fmap option_fmap option_map]. rewrite lookup_total_insert_eq.
    cbn [guesses]. by rewrite Hu, lookup_insert_eq.
Qed.

Lemma submit_guess_once_witness :
  (submit_guess (JStr "Hello") (Some "001234") (session_of first_round 0)
                first_round).1
  = (Return guess_ok, session_of first_round 0).
Proof.
  assert (Hl : lobbies first_round !! "001234" = Some O) by (by vm_compute).
  assert (Hm : guesses (heap first_round !!! O)
               = Some (<[Some "10005" := {| guess := JNull; submitted := false |}]> ∅)).
  { vm_compute. reflexivity. }
  refine (proj1 (submit_guess_once (JStr "Hello") "001234" O
                   (session_of first_round 0)
                   first_round _ eq_refl eq_refl Hl Hm _)).
  by vm_compute.
Defined.

(** *** A new round forgets the guesses *)

Lemma fresh_guesses_acc (ps : list Player) :
  ∀ (acc : gmap (option string) GuessRecord) k,
    foldl (λ g p, <[Some (id p) := no_guess]> g) acc ps !! k
    = if decide (k ∈ guess_keys ps) then Some no_guess else acc !! k.
Proof.
  unfold guess_keys.
  induction ps as [|q ps IH]; intros acc k; cbn [foldl].
  - case_decide as H; [|done]. by apply elem_of_nil in H.
  - rewrite IH, fmap_cons. case_decide as H1; case_decide as H2; try done.
    + destruct H2. by apply list_elem_of_further.
    + apply elem_of_cons in H2 as [->|H2]; [|done].
      by rewrite lookup_insert_eq.
    + rewrite lookup_insert_ne; [done|]. intros <-. apply H2.
      apply list_elem_of_here.
Qed.

(** The keys of the fresh dict are the ids of the players, each with an
    empty record. *)
Lemma fresh_guesses_lookup (ps : list Player) k :
  fresh_guesses ps !! k
  = if decide (k ∈ guess_keys ps) then Some no_guess else None.
Proof. unfold fresh_guesses. by rewrite (fresh_guesses_acc ps ∅ k). Qed.

Lemma player_guess_of_fresh ps p :
  player_guess_of (fresh_guesses ps) p = JNull.
Proof.
  unfold player_guess_of. rewrite fresh_guesses_lookup. by case_decide.
Qed.

Lemma score_player_fresh ps title p :
  score_player (fresh_guesses ps) title p = p.
Proof. unfold score_player. by rewrite player_guess_of_fresh. Qed.

Lemma score_players_fresh ps title qs :
  score_players (Some (fresh_guesses ps)) title qs = (qs, None).
Proof.
  rewrite score_players_text.
  - f_equal. rewrite <- (list_fmap_id qs) at 2.
    apply list_fmap_ext. intros i p _. apply score_player_fresh.
  - apply no_raise_Forall, Forall_forall. intros q _.
    by rewrite player_guess_of_fresh.
Qed.

Lemma retry_loop_guesses lobby_code l n f (w : World) l' :
  guesses (heap (retry_loop lobby_code l n f w).1 !!! l')
  = guesses (heap w !!! l').
Proof.
  apply (retry_loop_heap_R (λ a b, guesses b = guesses a)); done.
Qed.

(** X9. Every turn of the loop of [run_game] starts from fresh guess
    records: when the head of the loop has run (the counter not past
    10), the lobby holds one record per player now in the list, all
    without a guess and not submitted; whatever was recorded before is
    gone. A round that ends with the records still fresh changes no
    score. *)
Theorem guesses_are_reset_each_round lobby_code l f song_data (w w2 : World) :
  (round (heap w !!! l) ≤ 10)%Z →
  let ps := players (heap w !!! l) in
  guesses (heap (loop_head lobby_code l f w).1 !!! l) = Some (fresh_guesses ps)
  ∧ (∀ k, fresh_guesses ps !! k
          = if decide (k ∈ guess_keys ps) then Some no_guess else None)
  ∧ (guesses (heap w2 !!! l) = Some (fresh_guesses ps) →
     players (heap (close_round lobby_code l song_data w2).1 !!! l)
     = players (heap w2 !!! l)).
Proof.
  intros Hr ps. split; [|split].
  - unfold loop_head. apply Z.leb_le in Hr. rewrite Hr.
    rewrite retry_loop_guesses. unfold_world.
    by rewrite lookup_total_insert_eq.
  - apply fresh_guesses_lookup.
  - intros Hg. by rewrite close_round_players, Hg, score_players_fresh.
Qed.

Lemma guesses_are_reset_each_round_witness :
  guesses (heap (loop_head "001234" O fetch_error first_round).1 !!! O)
  = Some (fresh_guesses (players (heap first_round !!! O))).
Proof.
  refine (proj1 (guesses_are_reset_each_round "001234" O fetch_error
                   {| song := "Hello"; artist := "Adele"; audio_url := "http://x" |}
                   first_round first_round _)).
  vm_compute. discriminate.
Defined.

(** *** The personal results *)

Lemma build_guess_results_acc g title (ps : list Player) :
  ∀ (acc : gmap string GuessResult) p,
    p ∈ ps →
    foldl (λ results p, <[id p := guess_result_of g title p]> results) acc ps
      !! id p
    = Some (guess_result_of g title p).
Proof.
  induction ps as [|q ps IH] using rev_ind; intros acc p Hp.
  - by apply elem_of_nil in Hp.
  - rewrite foldl_app. cbn [foldl].
    destruct (decide (id q = id p)) as [E|E].
    + rewrite E, lookup_insert_eq.
      unfold guess_result_of, player_guess_of. by rewrite E.
    + rewrite lookup_insert_ne by done. apply IH.
      apply elem_of_app in Hp as [Hp|Hp]; [done|].
      apply list_elem_of_singleton in Hp. congruence.
Qed.

Lemma personal_emits_own usm round title g (results : gmap string GuessResult)
    (ps : list Player) :
  (∀ p, p ∈ ps → results !! id p = Some (guess_result_of g title p)) →
  personal_emits usm round title results (score_player g title <$> ps)
  = own_emits usm round title g ps.
Proof.
  unfold personal_emits, own_emits. induction ps as [|p ps IH]; intros H; [done|].
  assert (Hid : id (score_player g title p) = id p).
  { unfold score_player. by destruct (is_correct _ _). }
  assert (Hps : ∀ q, q ∈ ps → results !! id q = Some (guess_result_of g title q)).
  { intros q Hq. apply H. by apply list_elem_of_further. }
  specialize (IH Hps).
  rewrite fmap_cons, !omap_cons_match, IH, Hid, (H p) by apply list_elem_of_here.
  done.
Qed.

(** X10. When a round closes and no player of the list has on record,
    for a guess, a true value that is not a text, [run_game] appends to
    the log, in this order: for each player of the list that has an
    entry in [user_socket_map], and for no other, one
    [round_ended_personal] sent to that socket alone, with the round,
    the title, the player's own recorded guess and a [correct] flag
    that is true exactly when the player's score has just gone up; then
    [round_transition] to the room, announcing the next round or, after
    round 10, none; then the pause of 5 seconds. When some player has
    such a value on record, the call dies of [AttributeError] in the
    scoring and nothing at all is appended: no personal result, no
    transition, no pause. *)
Theorem personal_results_are_own lobby_code l song_data (w : World) g :
  guesses (heap w !!! l) = Some g →
  let ps := players (heap w !!! l) in
  let r := round (heap w !!! l) in
  let title := song song_data in
  (Forall (λ p, lower_raises (player_guess_of g p) = false) ps →
     log (close_round lobby_code l song_data w).1
     = log w ++ own_emits (user_socket_map w) r title g ps
       ++ [ Emit (round_transition (if (r <? 10)%Z then Some (r + 1) else None) 5)
                 (lobby_room lobby_code);
            Sleep 5 ]
     ∧ (close_round lobby_code l song_data w).2
       = sleeping_transition lobby_code l)
  ∧ (Exists (λ p, lower_raises (player_guess_of g p) = true) ps →
     log (close_round lobby_code l song_data w).1 = log w
     ∧ (close_round lobby_code l song_data w).2
       = crashed l (AttributeError "lower"))
  ∧ ∀ p, correct (guess_result_of g title p) = true
         ↔ score (score_player g title p) = score p + 1.
Proof.
  intros Hg ps r title. split; [|split].
  - intros Hall.
    assert (Hb : forallb (λ q, negb (lower_raises (player_guess_of g q))) ps
                 = true).
    { by apply no_raise_Forall. }
    unfold close_round. rewrite Hg. fold ps title.
    rewrite (score_players_text _ _ _ Hb). cbn [fst snd default].
    split; [|done]. unfold perform at 1 2.
    cbn [log]. rewrite log_perform_all. unfold_world.
    rewrite <- !app_assoc. f_equal. fold r.
    rewrite (personal_emits_own _ _ _ g); [done|].
    intros p Hp. by apply build_guess_results_acc.
  - intros Hex.
    pose proof (score_players_raised g title ps) as Hr.
    assert (Hb : forallb (λ q, negb (lower_raises (player_guess_of g q))) ps
                 = false).
    { apply not_true_is_false. intros Hb%no_raise_Forall.
      apply Exists_exists in Hex as (q & Hq & Hraise).
      rewrite Forall_forall in Hb. specialize (Hb q Hq). congruence. }
    rewrite Hb in Hr. unfold close_round. rewrite Hg. fold ps title.
    destruct (score_players (Some g) title ps) as [ps' raised].
    cbn [snd] in Hr. by subst raised.
  - intros p. unfold guess_result_of, score_player. cbn [correct].
    destruct (is_correct _ _); cbn [score]; split; try done; lia.
Qed.

Lemma personal_results_are_own_witness :
  ∃ g, guesses (heap round_under_way !!! O) = Some g
       ∧ log (close_round "001234" O
                {| song := "Hello"; artist := "Adele"; audio_url := "http://x" |}
                round_under_way).1
         = log round_under_way
           ++ own_emits (user_socket_map round_under_way)
                (round (heap round_under_way !!! O)) "Hello" g
                (players (heap round_under_way !!! O))
           ++ [ Emit (round_transition
                        (if (round (heap round_under_way !!! O) <? 10)%Z
                         then Some (round (heap round_under_way !!! O) + 1)
                         else None) 5)
                     (lobby_room "001234");
                Sleep 5 ].
Proof.
  assert (Hg : guesses (heap round_under_way !!! O)
               = Some (<[Some "10005" := {| guess := JStr "Hallo"; submitted := true |}]>
                        (<[Some "10007" := {| guess := JStr "HELLO"; submitted := true |}]> ∅))).
  { vm_compute. reflexivity. }
  eexists. split; [exact Hg|].
  refine (proj1 (proj1 (personal_results_are_own "001234" O
    {| song := "Hello"; artist := "Adele"; audio_url := "http://x" |}
    round_under_way _ Hg) _)).
  assert (Hp : players (heap round_under_way !!! O)
               = [ {| id := "10005"; is_host := true; score := 0 |};
                   {| id := "10007"; is_host := false; score := 0 |} ])
    by (by vm_compute).
  rewrite Hp. repeat constructor.
Defined.

(** *** [run_game] finds its guesses *)

Lemma keeps_guesses_refl lobby : keeps_guesses lobby lobby.
Proof. by intros ?. Qed.

Lemma keeps_guesses_trans a b c :
  keeps_guesses a b → keeps_guesses b c → keeps_guesses a c.
Proof. intros Hab Hbc Ha. by apply Hbc, Hab. Qed.

Lemma keeps_guesses_insert (h : gmap nat Lobby) l lobby l' :
  keeps_guesses (h !!! l) lobby →
  keeps_guesses (h !!! l') (<[l := lobby]> h !!! l').
Proof.
  intros H. destruct (decide (l = l')) as [->|Hne].
  - by rewrite lookup_total_insert_eq.
  - rewrite lookup_total_insert_ne by done. apply keeps_guesses_refl.
Qed.

Lemma ready_keeps (w w' : World) t :
  (next_loc w ≤ next_loc w')%nat →
  (∀ l, (l < next_loc w)%nat → keeps_guesses (heap w !!! l) (heap w' !!! l)) →
  ready w t → ready w' t.
Proof.
  intros Hn H. destruct t; cbn [ready]; try done;
    try (intros [Hl Hg]; split; [lia|by apply H]).
  intros (He & Hl & Hg). split; [done|]. split; [lia|by apply H].
Qed.

Lemma route_keeps_guesses r s (w : World) o s' w' l :
  (l < next_loc w)%nat → route r s w = Some (o, s', w') →
  keeps_guesses (heap w !!! l) (heap w' !!! l).
Proof.
  intros Hl. destruct r; cbn [route].
  - intros E.
    destruct (create_lobby_writes _ _ _ _ _ _ _ l E) as (_ & _ & Hh & _).
    rewrite Hh by lia. apply keeps_guesses_refl.
  - route_world E. unfold join_lobby.
    destruct (if truthy _ then _ else _) as [[c l0]|];
      [|apply keeps_guesses_refl].
    destruct (ensure_user_id _ s) as [uid s1].
    destruct (existsb _ _); [apply keeps_guesses_refl|].
    destruct (8 <=? _)%nat; [apply keeps_guesses_refl|]. cbn [snd]. unfold_world.
    apply keeps_guesses_insert; by unfold keeps_guesses.
  - route_world E. unfold leave_lobby.
    destruct (if truthy _ then _ else _) as [[c l0]|];
      [|apply keeps_guesses_refl].
    destruct (user_id s) as [pid|]; [|apply keeps_guesses_refl].
    destruct (filter _ _) as [|p ps]; cbn [snd]; unfold_world.
    + apply keeps_guesses_insert; by unfold keeps_guesses.
    + rewrite insert_insert_eq, lookup_total_insert_eq.
      apply keeps_guesses_insert; by unfold keeps_guesses.
  - route_world E. unfold start_game.
    destruct (if truthy _ then _ else _) as [[c l0]|];
      [|apply keeps_guesses_refl].
    destruct (if truthy (user_id s) then _ else _) as [uid|];
      [|apply keeps_guesses_refl].
    destruct (negb _); [apply keeps_guesses_refl|]. cbn [snd]. unfold_world.
    apply keeps_guesses_insert; by unfold keeps_guesses.
  - route_world E. unfold submit_guess.
    destruct (if truthy_json _ && truthy _ then _ else _)
      as [[c l0]|]; [|apply keeps_guesses_refl].
    destruct (guesses (heap w !!! l0)) as [g0|]; [|apply keeps_guesses_refl].
    destruct (from_option submitted false (g0 !! user_id s));
      [apply keeps_guesses_refl|].
    cbn [snd]. unfold_world. apply keeps_guesses_insert. intros _. by eexists.
  - route_world E. rewrite validate_guess_world. apply keeps_guesses_refl.
  - unfold reset_score. intros [= _ _ <-]. apply keeps_guesses_refl.
  - route_world E. rewrite init_session_world. apply keeps_guesses_refl.
Qed.

Lemma resume_keeps_guesses f t (w : World) l :
  keeps_guesses (heap w !!! l) (heap (resume f t w).1 !!! l).
Proof.
  apply (resume_heap_R keeps_guesses).
  - apply keeps_guesses_refl.
  - apply keeps_guesses_trans.
  - intros lobby r H. exact H.
  - intros lobby g _. by eexists.
  - intros lobby s H. exact H.
  - intros lobby g title H. exact H.
Qed.

Lemma retry_loop_ready lobby_code l n f (w : World) :
  (l < next_loc w)%nat → is_Some (guesses (heap w !!! l)) →
  ready (retry_loop lobby_code l n f w).1 (retry_loop lobby_code l n f w).2.
Proof.
  intros Hl Hg.
  assert (H : is_Some (guesses (heap (retry_loop lobby_code l n f w).1 !!! l))).
  { revert Hg. apply (retry_loop_heap_R keeps_guesses).
    - apply keeps_guesses_refl.
    - intros lobby s H. exact H. }
  destruct (frame_retry_loop lobby_code l n f w) as (Hn & _).
  revert H Hn. unfold retry_loop, open_round, skip_round.
  repeat case_match; cbn [fst snd ready]; intros H' Hn; split; (lia || done).
Qed.

Lemma loop_head_ready lobby_code l f (w : World) :
  (l < next_loc w)%nat →
  ready (loop_head lobby_code l f w).1 (loop_head lobby_code l f w).2.
Proof.
  intros Hl. unfold loop_head. destruct (round (heap w !!! l) <=? 10)%Z; [|done].
  apply retry_loop_ready; [done|]. unfold_world. rewrite lookup_total_insert_eq.
  by eexists.
Qed.

(** A call that is ready stays so by its own step: the head of the loop
    writes ['guesses'] before the first sleep inside the loop, so the
    read of line 219 finds them. *)
Lemma resume_ready f t (w : World) :
  world_wf w → ready w t → ready (resume f t w).1 (resume f t w).2.
Proof.
  intros (_ & Hlisted & _).
  destruct t; cbn [resume]; try done.
  - intros _. destruct (lobbies w !! lobby_code) as [l|] eqn:E; [|done].
    apply loop_head_ready. by apply Hlisted in E as [? _].
  - intros [? ?]. by apply retry_loop_ready.
  - intros [? _]. by apply loop_head_ready.
  - cbn [ready]. intros [Hl Hg].
    destruct (resume_frame f (sleeping_round lobby_code l song_data) w)
      as (Hn & _).
    pose proof (resume_keeps_guesses f (sleeping_round lobby_code l song_data)
                  w l Hg) as Hg'.
    cbn [resume] in Hn, Hg'. destruct Hg as [g Hg].
    pose proof (score_players_raised g (song song_data)
                  (players (heap w !!! l))) as Hr.
    revert Hn Hg'. unfold close_round. rewrite Hg.
    destruct (score_players _ _ _) as [ps raised]. cbn [snd] in Hr. subst raised.
    destruct (forallb _ _); cbn [fst snd ready]; intros Hn Hg';
      repeat split; (lia || done).
  - intros [? _]. by apply loop_head_ready.
Qed.

Lemma init_ready : tasks_ready init.
Proof. intros i t Hi. done. Qed.

Lemma step_ready e (w : World) :
  world_wf w → tasks_ready w → tasks_ready (step e w).
Proof.
  intros Hwf Hw i t. destruct e; cbn [step].
  - destruct (route r (session_of w client) w) as [[[o s] w']|] eqn:E;
      [|apply Hw].
    unfold_world. intros Hi.
    assert (Hold : ∀ t0, ready w t0 → ready w' t0).
    { intros t0. apply ready_keeps.
      - destruct (request_is_create r) as [(d & ds & ->)|Hn].
        + cbn [route] in E.
          destruct (create_lobby_writes _ _ _ _ _ _ _ O E) as (-> & _). lia.
        + destruct (route_writes r _ w o s w' Hn E) as (-> & _). done.
      - intros l Hl. by eapply route_keeps_guesses. }
    assert (Hr : ready w' t); [|by destruct t].
    destruct (request_is_create r) as [(d & ds & ->)|Hn].
    + cbn [route] in E.
      destruct (create_lobby_writes _ _ _ _ _ _ _ O E) as (_ & Ht & _).
      rewrite Ht in Hi. by apply Hold, (Hw i).
    + destruct (route_writes r _ w o s w' Hn E) as (_ & [Ht|[code Ht]] & _);
        rewrite Ht in Hi; [by apply Hold, (Hw i)|].
      apply lookup_app_Some in Hi as [Hi|[_ Hi]]; [by apply Hold, (Hw i)|].
      by apply list_lookup_singleton_Some in Hi as [_ <-].
  - unfold on_join. destruct (if truthy (user_id _) then _ else _); apply Hw.
  - unfold on_leave. destruct (if truthy (user_id _) then _ else _); apply Hw.
  - destruct (tasks w !! task) as [tj|] eqn:Hj; [|apply Hw].
    destruct (resume_frame f tj w) as (Hn & _ & _ & _ & Htasks).
    pose proof (resume_ready f tj w Hwf (Hw task tj Hj)) as Hown.
    pose proof (resume_keeps_guesses f tj w) as Hk.
    destruct (resume f tj w) as [w' t'] eqn:Eres. cbn [fst snd] in *.
    unfold_world. rewrite Htasks. intros Hi.
    assert (Hr : ready w' t); [|by destruct t].
    destruct (decide (i = task)) as [->|Hne].
    + rewrite list_lookup_insert_eq in Hi by (by eapply lookup_lt_Some).
      by injection Hi as <-.
    + rewrite list_lookup_insert_ne in Hi by done.
      apply (ready_keeps w); [lia|by intros l _|by apply (Hw i)].
Qed.

Lemma reachable_ready es : tasks_ready (exec init es).
Proof.
  induction es as [|e es IH] using rev_ind; [apply init_ready|].
  rewrite exec_snoc. apply step_ready; [apply reachable_ok|done].
Qed.

(** A call dies in one place, the scoring loop. *)
Lemma resume_crashed f t (w : World) l e :
  (resume f t w).2 = crashed l e →
  t = crashed l e
  ∨ ∃ lobby_code song_data,
      t = sleeping_round lobby_code l song_data
      ∧ (score_players (guesses (heap w !!! l)) (song song_data)
                       (players (heap w !!! l))).2 = Some e.
Proof.
  destruct t; cbn [resume].
  - unfold loop_head, retry_loop, open_round, skip_round, end_game.
    by repeat case_match.
  - unfold retry_loop, open_round, skip_round. by repeat case_match.
  - unfold loop_head, retry_loop, open_round, skip_round, end_game.
    by repeat case_match.
  - unfold close_round.
    destruct (score_players (guesses (heap w !!! l0)) _ _) as [ps [e0|]] eqn:Es;
      cbn [snd]; [|done].
    intros [= -> ->]. right. eexists _, _. split; [done|]. by rewrite Es.
  - unfold loop_head, retry_loop, open_round, skip_round, end_game.
    by repeat case_match.
  - done.
  - intros [= <- <-]. by left.
Qed.

Lemma keeps_texts_refl lobby : keeps_texts lobby lobby.
Proof. by intros ?. Qed.

Lemma keeps_texts_insert (h : gmap nat Lobby) l lobby l' :
  keeps_texts (h !!! l) lobby →
  keeps_texts (h !!! l') (<[l := lobby]> h !!! l').
Proof.
  intros H. destruct (decide (l = l')) as [->|Hne].
  - by rewrite lookup_total_insert_eq.
  - rewrite lookup_total_insert_ne by done. apply keeps_texts_refl.
Qed.

(** [run_game] writes fresh records only. *)
Lemma resume_keeps_texts f t (w : World) l :
  keeps_texts (heap w !!! l) (heap (resume f t w).1 !!! l).
Proof.
  apply (resume_heap_R keeps_texts).
  - apply keeps_texts_refl.
  - intros a b c Hab Hbc Ha. by apply Hbc, Hab.
  - intros lobby r H. exact H.
  - intros lobby ps _ g k r [= <-]. rewrite fresh_guesses_lookup.
    case_decide; [|done]. by intros [= <-].
  - intros lobby s H. exact H.
  - intros lobby g title H. exact H.
Qed.

(** A route records what [submit_guess] is sent, and nothing else. *)
Lemma route_keeps_texts client r s (w : World) o s' w' l :
  text_guess (http client r) → route r s w = Some (o, s', w') →
  keeps_texts (heap w !!! l) (heap w' !!! l).
Proof.
  intros Ht. destruct r; cbn [route].
  - unfold create_lobby.
    destruct (ensure_user_id _ _) as [uid s1].
    destruct (generate_lobby_code _ _) as [c|]; [|done].
    simpl. intros [= _ _ <-]. unfold new_lobby. cbn [heap].
    destruct (decide (next_loc w = l)) as [->|Hne].
    + rewrite lookup_total_insert_eq. by intros _ g k r.
    + rewrite lookup_total_insert_ne by done. apply keeps_texts_refl.
  - route_world E. unfold join_lobby.
    destruct (if truthy _ then _ else _) as [[c l0]|];
      [|apply keeps_texts_refl].
    destruct (ensure_user_id _ s) as [uid s1].
    destruct (existsb _ _); [apply keeps_texts_refl|].
    destruct (8 <=? _)%nat; [apply keeps_texts_refl|]. cbn [snd]. unfold_world.
    apply keeps_texts_insert. intros H. exact H.
  - route_world E. unfold leave_lobby.
    destruct (if truthy _ then _ else _) as [[c l0]|];
      [|apply keeps_texts_refl].
    destruct (user_id s) as [pid|]; [|apply keeps_texts_refl].
    destruct (filter _ _) as [|p ps]; cbn [snd]; unfold_world.
    + apply keeps_texts_insert. intros H. exact H.
    + rewrite insert_insert_eq, lookup_total_insert_eq.
      apply keeps_texts_insert. intros H. exact H.
  - route_world E. unfold start_game.
    destruct (if truthy _ then _ else _) as [[c l0]|];
      [|apply keeps_texts_refl].
    destruct (if truthy (user_id s) then _ else _) as [uid|];
      [|apply keeps_texts_refl].
    destruct (negb _); [apply keeps_texts_refl|]. cbn [snd]. unfold_world.
    apply keeps_texts_insert. intros H. exact H.
  - route_world E. unfold submit_guess. cbn [text_guess] in Ht.
    destruct (if truthy_json _ && truthy _ then _ else _)
      as [[c l0]|]; [|apply keeps_texts_refl].
    destruct (guesses (heap w !!! l0)) as [g0|] eqn:Eg; [|apply keeps_texts_refl].
    destruct (from_option submitted false (g0 !! user_id s));
      [apply keeps_texts_refl|].
    cbn [snd]. unfold_world. apply keeps_texts_insert.
    intros H g k r [= <-]. destruct (decide (k = user_id s)) as [->|Hne].
    + rewrite lookup_insert_eq. by intros [= <-].
    + rewrite lookup_insert_ne by done. by apply (H g0).
  - route_world E. rewrite validate_guess_world. apply keeps_texts_refl.
  - unfold reset_score. intros [= _ _ <-]. apply keeps_texts_refl.
  - route_world E. rewrite init_session_world. apply keeps_texts_refl.
Qed.

Lemma step_texts_only e (w : World) :
  text_guess e → texts_only w → texts_only (step e w).
Proof.
  intros Ht Hw l. destruct e; cbn [step].
  - destruct (route r (session_of w client) w) as [[[o s] w']|] eqn:E;
      [|apply Hw].
    unfold_world. by apply (route_keeps_texts client r _ w o s w' l Ht E).
  - unfold on_join. destruct (if truthy (user_id _) then _ else _); apply Hw.
  - unfold on_leave. destruct (if truthy (user_id _) then _ else _); apply Hw.
  - destruct (tasks w !! task) as [t|]; [|apply Hw].
    pose proof (resume_keeps_texts f t w l (Hw l)) as H.
    by destruct (resume f t w) as [w' t'].
Qed.

(** With texts only on record the scoring loop runs to its end. *)
Lemma texts_in_no_raise lobby g title ps :
  texts_in lobby → guesses lobby = Some g →
  (score_players (Some g) title ps).2 = None.
Proof.
  intros Ht Hg. rewrite score_players_raised.
  replace (forallb _ ps) with true; [done|]. symmetry.
  apply no_raise_Forall, Forall_forall. intros p _. unfold player_guess_of.
  destruct (g !! Some (id p)) as [r|] eqn:E; [|done].
  by apply (Ht g (Some (id p)) r).
Qed.

Lemma step_none_died e (w : World) :
  texts_only w → tasks_ready w → none_died w → none_died (step e w).
Proof.
  intros Ht Hr Hw i t. destruct e; cbn [step].
  - destruct (route r (session_of w client) w) as [[[o s] w']|] eqn:E;
      [|apply Hw].
    unfold_world. intros Hi.
    destruct (request_is_create r) as [(d & ds & ->)|Hn].
    + cbn [route] in E.
      destruct (create_lobby_writes _ _ _ _ _ _ _ O E) as (_ & Htasks & _).
      rewrite Htasks in Hi. by apply (Hw i).
    + destruct (route_writes r _ w o s w' Hn E) as (_ & [Htasks|[code Htasks]] & _);
        rewrite Htasks in Hi; [by apply (Hw i)|].
      apply lookup_app_Some in Hi as [Hi|[_ Hi]]; [by apply (Hw i)|].
      by apply list_lookup_singleton_Some in Hi as [_ <-].
  - unfold on_join. destruct (if truthy (user_id _) then _ else _); apply Hw.
  - unfold on_leave. destruct (if truthy (user_id _) then _ else _); apply Hw.
  - destruct (tasks w !! task) as [tj|] eqn:Hj; [|apply Hw].
    destruct (resume_frame f tj w) as (_ & _ & _ & _ & Htasks).
    pose proof (resume_crashed f tj w) as Hc.
    destruct (resume f tj w) as [w' t'] eqn:Eres. cbn [fst snd] in *.
    unfold_world. rewrite Htasks. intros Hi.
    destruct (decide (i = task)) as [->|Hne].
    + rewrite list_lookup_insert_eq in Hi by (by eapply lookup_lt_Some).
      injection Hi as <-. destruct t' as [| | | | | |l e]; try done.
      destruct (Hc l e eq_refl) as [->|(code & sd & -> & Hraise)].
      * by apply (Hw task _ Hj).
      * destruct (Hr task _ Hj) as [_ [g Hg]]. rewrite Hg in Hraise.
        by rewrite (texts_in_no_raise _ g _ _ (Ht l) Hg) in Hraise.
    + rewrite list_lookup_insert_ne in Hi by done. by apply (Hw i).
Qed.

Lemma text_run_alive es :
  Forall text_guess es →
  texts_only (exec init es) ∧ none_died (exec init es).
Proof.
  induction es as [|e es IH] using rev_ind; intros Hes.
  - split.
    + intros l. change (texts_in ((∅ : gmap nat Lobby) !!! l)).
      rewrite lookup_total_empty. by intros g k r.
    + by intros i t.
  - apply Forall_app in Hes as [Hes He].
    apply (proj1 (Forall_singleton _ _)) in He.
    destruct (IH Hes) as [Ht Hd]. rewrite exec_snoc. split.
    + by apply step_texts_only.
    + apply step_none_died; [done|apply reachable_ready|done].
Qed.

(** X11. [run_game] never dies on [lobby['guesses']]. In every state
    the server can reach, a call that sleeps inside the loop, or has
    died there, holds a dict that has its ['guesses'] key: the head of
    the loop writes the key before the first sleep and no route removes
    it, so the read of line 219 finds it. ([submit_guess] before the
    start has no such luck.) A call that has died, or dies at its next
    step, has died of [AttributeError], at a guess on record that is a
    true value and not a text; in a run in which every guess sent to
    [submit_guess] is a text, no call has died. *)
Theorem run_game_finds_its_guesses es i t :
  tasks (exec init es) !! i = Some t →
  (∀ l, in_loop t → held t = Some l →
     is_Some (guesses (heap (exec init es) !!! l)))
  ∧ (∀ l e, t = crashed l e → e = AttributeError "lower")
  ∧ (∀ f l e, (resume f t (exec init es)).2 = crashed l e →
       e = AttributeError "lower"
       ∧ (t = crashed l e
          ∨ ∃ g p, guesses (heap (exec init es) !!! l) = Some g
                   ∧ p ∈ players (heap (exec init es) !!! l)
                   ∧ lower_raises (player_guess_of g p) = true))
  ∧ (Forall text_guess es →
     match t with crashed _ _ => False | _ => True end).
Proof.
  intros Hi. pose proof (reachable_ready es i t Hi) as Hr.
  split; [|split; [|split]].
  - intros l Hin Hl.
    destruct t; cbn [held in_loop ready] in *; try done;
      injection Hl as ->; tauto.
  - intros l e ->. by destruct Hr.
  - intros f l e E.
    pose proof (resume_ready f t _ (reachable_ok es) Hr) as Hnext.
    rewrite E in Hnext. destruct Hnext as [He _]. split; [done|].
    destruct (resume_crashed f t _ l e E) as [->|(code & sd & -> & Hraise)];
      [by left|].
    right. destruct Hr as [_ [g Hg]]. exists g. rewrite Hg in Hraise.
    rewrite score_players_raised in Hraise.
    destruct (forallb _ _) eqn:Eb; [done|].
    assert (Hex : ¬ Forall (λ p, lower_raises (player_guess_of g p) = false)
                    (players (heap (exec init es) !!! l))).
    { intros Hall%no_raise_Forall. congruence. }
    apply not_Forall_Exists in Hex; [|intros p; apply _].
    apply Exists_exists in Hex as (p & Hp & Hraises).
    exists p. split; [done|]. split; [done|].
    by apply not_false_is_true.
  - intros Hes. destruct (text_run_alive es Hes) as [_ Hd]. by apply (Hd i).
Qed.

Lemma run_game_finds_its_guesses_witness :
  is_Some (guesses (heap (exec init (started_once ++ [wake 0 a_song])) !!! O)).
Proof.
  assert (Hi : tasks (exec init (started_once ++ [wake 0 a_song])) !! O
               = Some (sleeping_round "001234" O
                         {| song := "Hello"; artist := "Adele";
                            audio_url := "http://x" |}))
    by (by vm_compute).
  exact (proj1 (run_game_finds_its_guesses _ _ _ Hi) O I eq_refl).
Defined.

(** *** How long a game lasts *)

Lemma retry_loop_sleeps_left lobby_code l n f (w : World) r :
  (sleeps_left (retry_loop lobby_code l n f w).2 r
   ≤ (3 - n) + 1 + 4 * Z.to_nat (10 - r))%nat.
Proof.
  unfold retry_loop, open_round, skip_round.
  destruct (Nat.ltb_spec n 3); [destruct (fetch_song f)|];
    cbn [snd sleeps_left]; lia.
Qed.

Lemma loop_head_sleeps_left lobby_code l f (w : World) r :
  round (heap w !!! l) = r →
  (sleeps_left (loop_head lobby_code l f w).2 r
   ≤ if (r <=? 10)%Z then 4 + 4 * Z.to_nat (10 - r) else 0)%nat.
Proof.
  intros <-. unfold loop_head. destruct (round (heap w !!! l) <=? 10)%Z.
  - apply retry_loop_sleeps_left.
  - done.
Qed.

Lemma held_round_resume f t (w : World) l :
  target t w = Some l →
  held_round (resume f t w).1 (resume f t w).2
  = round (heap (resume f t w).1 !!! l).
Proof. intros Hl. unfold held_round. by rewrite resume_held, Hl. Qed.

(** Each wake-up brings a call of [run_game] that is not over closer to
    its end. *)
Lemma resume_sleeps_left f t (w : World) :
  ended t = false →
  (sleeps_left (resume f t w).2 (held_round (resume f t w).1 (resume f t w).2)
   < sleeps_left t (held_round w t))%nat.
Proof.
  intros He.
  destruct (target t w) as [l|] eqn:Hl.
  - rewrite (held_round_resume f t w l Hl).
    pose proof (resume_round f t w l Hl) as Hr. cbv zeta in Hr.
    destruct t; cbn [target held] in Hl; try done; unfold held_round;
      cbn [held from_option]; try (injection Hl as ->).
    + destruct Hr as [-> _]. cbn [resume]. rewrite Hl.
      pose proof (loop_head_sleeps_left lobby_code l f
        (set_lobby l (set_round 1 (heap w !!! l)) w) 1) as H.
      cbn [sleeps_left]. cbn [Z.leb Z.compare Pos.compare Pos.compare_cont] in H.
      assert (Hone : round (heap (set_lobby l (set_round 1 (heap w !!! l)) w) !!! l) = 1).
      { unfold_world. by rewrite lookup_total_insert_eq. }
      specialize (H Hone). change (Z.to_nat (10 - 1)) with 9%nat in H. lia.
    + destruct Hr as [-> _]. cbn [resume sleeps_left].
      pose proof (retry_loop_sleeps_left lobby_code l retry_count f w
                    (round (heap w !!! l))). lia.
    + destruct Hr as [-> _]. cbn [resume].
      pose proof (loop_head_sleeps_left lobby_code l f (next_round l w)
                    (round (heap w !!! l) + 1) (next_round_round l w)) as H.
      cbn [sleeps_left].
      destruct (Z.leb_spec (round (heap w !!! l) + 1) 10); lia.
    + destruct Hr as [-> _]. cbn [resume sleeps_left]. unfold close_round.
      destruct (score_players _ _ _) as [ps [e|]]; cbn [snd sleeps_left]; lia.
    + destruct Hr as [-> _]. cbn [resume].
      pose proof (loop_head_sleeps_left lobby_code l f (next_round l w)
                    (round (heap w !!! l) + 1) (next_round_round l w)) as H.
      cbn [sleeps_left].
      destruct (Z.leb_spec (round (heap w !!! l) + 1) 10); lia.
  - destruct t; cbn [target held] in Hl; try done.
    cbn [resume]. rewrite Hl. cbn. lia.
Qed.

Lemma ended_sleeps_left t r : ended t = true ↔ sleeps_left t r = 0%nat.
Proof. destruct t; cbn; split; try done; lia. Qed.

(** In a state whose counters are in step with the tasks, no call has
    more than 41 wake-ups before it. *)
Lemma sleeps_left_bound (w : World) i :
  rounds_ok w → (sleeps_left_of w i ≤ 41)%nat.
Proof.
  intros (J1 & _ & _). unfold sleeps_left_of.
  destruct (tasks w !! i) as [t|] eqn:Ht; [|done]. cbn [from_option].
  unfold held_round.
  destruct t; cbn [held from_option sleeps_left]; try lia;
    (destruct (J1 i _ l Ht eq_refl) as [_ Hr]; cbn [task_round] in Hr; lia).
Qed.

(** A request, a socket event or a step of another task does not add to
    the wake-ups a task has before it; a wake-up of the task itself takes
    one away. *)
Lemma step_sleeps_left e (w : World) i :
  world_wf w → rounds_ok w → exclusive (step e w) →
  (sleeps_left_of (step e w) i ≤ sleeps_left_of w i)%nat
  ∧ (is_wake_of i e = true → is_Some (tasks w !! i) →
     sleeps_left_of (step e w) i = 0%nat
     ∨ (sleeps_left_of (step e w) i < sleeps_left_of w i)%nat).
Proof.
  intros Hwf Hok Hx. pose proof Hok as (J1 & J2 & J3).
  assert (Hsame : ∀ w' : World,
            (∀ t l, tasks w !! i = Some t → held t = Some l →
                    round (heap w' !!! l) = round (heap w !!! l)) →
            (∀ t, tasks w !! i = Some t → tasks w' !! i = Some t) →
            (tasks w !! i = None → tasks w' !! i = None
                                   ∨ ∃ code, tasks w' !! i = Some (spawned code)) →
            (sleeps_left_of w' i ≤ sleeps_left_of w i)%nat).
  { intros w' Hr Ht Hn. unfold sleeps_left_of.
    destruct (tasks w !! i) as [t|] eqn:Hi.
    - rewrite (Ht t eq_refl). cbn [from_option]. unfold held_round.
      destruct (held t) as [l|] eqn:Hl; [|done]. cbn [from_option].
      by rewrite (Hr t l).
    - destruct (Hn eq_refl) as [->|[code ->]]; done. }
  destruct e; cbn [step is_wake_of] in *.
  - split; [|done].
    destruct (route r (session_of w client) w) as [[[o s] w']|] eqn:E; [|done].
    apply Hsame; unfold_world.
    + intros t l Hi Hl%(J1 i t l Hi). destruct Hl as [Hl _].
      destruct (request_is_create r) as [(d & ds & ->)|Hn].
      * cbn [route] in E.
        destruct (create_lobby_writes _ _ _ _ _ _ _ l E) as (_ & _ & Hh & _).
        rewrite Hh; [done|lia].
      * destruct (route_writes r _ w o s w' Hn E) as (_ & _ & Hw).
        by destruct (Hw l) as [-> _].
    + intros t Ht. destruct (request_is_create r) as [(d & ds & ->)|Hn].
      * cbn [route] in E.
        destruct (create_lobby_writes _ _ _ _ _ _ _ O E) as (_ & -> & _). done.
      * destruct (route_writes r _ w o s w' Hn E) as (_ & [->| [code ->]] & _);
          [done|]. by apply lookup_app_l_Some.
    + intros Hnone. destruct (request_is_create r) as [(d & ds & ->)|Hn].
      * cbn [route] in E.
        destruct (create_lobby_writes _ _ _ _ _ _ _ O E) as (_ & -> & _).
        by left.
      * destruct (route_writes r _ w o s w' Hn E) as (_ & [->| [code ->]] & _);
          [by left|].
        destruct ((tasks w ++ [spawned code]) !! i) as [t|] eqn:Hi; [|by left].
        right. exists code.
        apply lookup_app_Some in Hi as [Hi|[_ Hi]]; [congruence|].
        by apply list_lookup_singleton_Some in Hi as [_ <-].
  - split; [|done]. apply Hsame; unfold on_join;
      destruct (if truthy (user_id _) then _ else _); by (done || left).
  - split; [|done]. apply Hsame; unfold on_leave;
      destruct (if truthy (user_id _) then _ else _); by (done || left).
  - destruct (tasks w !! task) as [t|] eqn:Ht.
    2:{ split; [done|]. intros ->%bool_decide_eq_true [t Hi]. congruence. }
    destruct (resume_frame f t w) as (Hnext & _ & _ & _ & Htasks).
    pose proof (resume_held f t w) as Hheld.
    pose proof (resume_sleeps_left f t w) as Hless.
    pose proof (resume_round_elsewhere f t w) as Helse.
    destruct (resume f t w) as [w' t'] eqn:Eres. cbn [fst snd] in *.
    unfold exclusive in Hx. unfold_world. rewrite Htasks in Hx.
    destruct (decide (task = i)) as [->|Hne].
    + assert (Hi : sleeps_left_of
                     {| heap := heap w'; next_loc := next_loc w';
                        lobbies := lobbies w';
                        user_socket_map := user_socket_map w';
                        sessions := sessions w';
                        tasks := <[i := t']> (tasks w'); log := log w' |} i
                   = sleeps_left t' (held_round w' t')).
      { unfold sleeps_left_of. cbn [tasks]. rewrite Htasks.
        rewrite list_lookup_insert_eq by (by eapply lookup_lt_Some). done. }
      assert (Hw : sleeps_left_of w i = sleeps_left t (held_round w t)).
      { unfold sleeps_left_of. by rewrite Ht. }
      rewrite Hi, Hw. destruct (ended t) eqn:He.
      * assert (t' = t ∧ w' = w) as [-> ->].
        { destruct t; cbn [ended] in He; try done;
            cbn [resume] in Eres; by injection Eres as <- <-. }
        split; [done|]. intros _ _. left. by apply ended_sleeps_left.
      * specialize (Hless eq_refl). split; [lia|]. intros _ _. by right.
    + split; [|by intros ?%bool_decide_eq_true].
      apply Hsame; cbn [heap tasks].
      * intros ti l Hi Hl. apply Helse. intros Htar. apply Hne.
        apply (NoDup_omap_lookup held (<[task := t']> (tasks w))
                 task i t' ti l Hx).
        -- apply list_lookup_insert_eq. by eapply lookup_lt_Some.
        -- by rewrite list_lookup_insert_ne.
        -- by rewrite Hheld.
        -- done.
      * intros ti Hi. rewrite Htasks. by rewrite list_lookup_insert_ne.
      * intros Hi. left. rewrite Htasks. by rewrite list_lookup_insert_ne.
Qed.

Lemma step_task_stays e (w : World) i :
  is_Some (tasks w !! i) → is_Some (tasks (step e w) !! i).
Proof.
  intros Hi. apply lookup_lt_is_Some in Hi. apply lookup_lt_is_Some.
  destruct e; cbn [step].
  - destruct (route r (session_of w client) w) as [[[o s] w']|] eqn:E; [|done].
    unfold_world. destruct (request_is_create r) as [(d & ds & ->)|Hn].
    + cbn [route] in E.
      destruct (create_lobby_writes _ _ _ _ _ _ _ O E) as (_ & -> & _). done.
    + destruct (route_writes r _ w o s w' Hn E) as (_ & [->| [code ->]] & _);
        [done|]. rewrite length_app. lia.
  - unfold on_join. by destruct (if truthy (user_id _) then _ else _).
  - unfold on_leave. by destruct (if truthy (user_id _) then _ else _).
  - destruct (tasks w !! task) as [t|]; [|done].
    destruct (resume_frame f t w) as (_ & _ & _ & _ & Htasks).
    destruct (resume f t w) as [w' t']. unfold_world.
    by rewrite length_insert, Htasks.
Qed.

Lemma wakes_of_snoc i es e :
  wakes_of i (es ++ [e])
  = (wakes_of i es + if is_wake_of i e then 1 else 0)%nat.
Proof.
  unfold wakes_of. rewrite filter_app, length_app. f_equal.
  destruct (is_wake_of i e) eqn:E.
  - by rewrite filter_cons_True.
  - rewrite filter_cons_False; [done|]. by rewrite E.
Qed.

Lemma exclusive_run_prefix es1 : ∀ (w : World) es2,
  exclusive_run w (es1 ++ es2) → exclusive_run w es1.
Proof.
  induction es1 as [|e es1 IH]; intros w es2.
  - destruct es2; cbn; tauto.
  - cbn [app exclusive_run]. intros [Hx H]. split; [done|]. by eapply IH.
Qed.

Lemma run_sleeps_left es1 i es2 :
  exclusive_run init (es1 ++ es2) →
  is_Some (tasks (exec init es1) !! i) →
  is_Some (tasks (exec init (es1 ++ es2)) !! i)
  ∧ (sleeps_left_of (exec init (es1 ++ es2)) i = 0%nat
     ∨ (sleeps_left_of (exec init (es1 ++ es2)) i + wakes_of i es2 ≤ 41)%nat).
Proof.
  induction es2 as [|e es2 IH] using rev_ind; intros Hx Hi.
  - rewrite app_nil_r in *. split; [done|]. right.
    pose proof (sleeps_left_bound _ i (run_rounds_ok es1 Hx)).
    unfold wakes_of. cbn. lia.
  - rewrite app_assoc in *. apply exclusive_run_snoc in Hx as [Hes Hx].
    destruct (IH Hes Hi) as [Hsome Hleft]. rewrite exec_snoc in *.
    split; [by apply step_task_stays|].
    destruct (step_sleeps_left e (exec init (es1 ++ es2)) i
                (reachable_ok _) (run_rounds_ok _ Hes) Hx) as [Hle Hlt].
    rewrite wakes_of_snoc. destruct (is_wake_of i e).
    + destruct (Hlt eq_refl Hsome) as [?|?]; [by left|].
      destruct Hleft as [?|?]; [left|right]; lia.
    + destruct Hleft as [?|?]; [left|right]; lia.
Qed.

(** X12. Every game ends. In a run of the server in which no lobby gets
    a second call of [run_game], a call that has been run 41 times, its
    start and the ends of 40 sleeps, is over, whatever the song requests
    gave and whatever requests, socket events and steps of other games
    came in between: a round takes at most four sleeps (three failed
    requests and the pause of the skipped round, or at most two failed
    requests and the two pauses of a played one), and there are ten
    rounds. It is over by a return, or by the [AttributeError] of a
    guess that is not a text; when every guess sent to [submit_guess]
    in the run is a text, it has returned. *)
Theorem run_game_ends es1 es2 i :
  exclusive_run init (es1 ++ es2) →
  is_Some (tasks (exec init es1) !! i) →
  (41 ≤ wakes_of i es2)%nat →
  ∃ t, tasks (exec init (es1 ++ es2)) !! i = Some t
       ∧ ((∃ l, t = returned l) ∨ (∃ l, t = crashed l (AttributeError "lower")))
       ∧ (Forall text_guess (es1 ++ es2) → ∃ l, t = returned l).
Proof.
  intros Hx Hi Hn. destruct (run_sleeps_left es1 i es2 Hx Hi) as [[t Ht] Hleft].
  assert (H0 : sleeps_left_of (exec init (es1 ++ es2)) i = 0%nat)
    by (destruct Hleft; lia).
  unfold sleeps_left_of in H0. rewrite Ht in H0. cbn [from_option] in H0.
  apply ended_sleeps_left in H0.
  pose proof (reachable_ready (es1 ++ es2) i t Ht) as Hr.
  exists t. split; [done|]. destruct t; try done.
  - split; [left; by eexists|]. intros _. by eexists.
  - destruct Hr as [-> _]. split; [right; by eexists|].
    intros Hes. destruct (text_run_alive _ Hes) as [_ Hd].
    by destruct (Hd i _ Ht).
Qed.

Lemma run_game_ends_witness :
  ∃ t, tasks (exec init (started_once ++ no_songs)) !! O = Some t
       ∧ ∃ l, t = returned l.
Proof.
  destruct (run_game_ends started_once no_songs O) as (t & Ht & _ & Hret).
  - unfold started_once, no_songs. cbn [app replicate exclusive_run].
    unfold exclusive.
    repeat split; vm_compute; first [apply NoDup_nil_2 | apply NoDup_singleton].
  - eexists. vm_compute. reflexivity.
  - vm_compute. lia.
  - exists t. split; [done|]. apply Hret.
    unfold started_once, no_songs. cbn [app replicate].
    repeat constructor.
Defined.

(** The bound is reached: with no song at all the call is still asleep
    after 40 wake-ups, in the pause of the tenth skipped round. *)
Lemma forty_wakes_are_not_enough :
  tasks (exec init (started_once ++ replicate 40 (wake 0 fetch_error)))
  = [sleeping_skip "001234" O]
  ∧ tasks (exec init (started_once ++ no_songs)) = [returned (Some O)].
Proof. by vm_compute. Qed.

(** *** The socket of a user *)

(** X13. [user_socket_map] holds one socket per user id, the one that
    joined last, whatever the room. A [leave] from any socket of a
    browser with that id, the registered one or another, removes the
    entry; the entries of the other users stay. A player without an
    entry gets no personal result when a round closes. A browser whose
    session has no [user_id] changes nothing in the map. *)
Theorem on_leave_forgets_any_socket sid sid2 sid3 room room2 room3 s (w : World) uid :
  truthy (Some uid) = true → user_id s = Some uid →
  let w1 := on_join sid room s w in
  let w2 := on_join sid2 room2 s w1 in
  let w3 := on_leave sid3 room3 s w2 in
  user_socket_map w1 = <[uid := sid]> (user_socket_map w)
  ∧ user_socket_map w2 = <[uid := sid2]> (user_socket_map w)
  ∧ user_socket_map w3 = delete uid (user_socket_map w)
  ∧ log w3 = log w ++ [JoinRoom sid room; JoinRoom sid2 room2;
                       LeaveRoom sid3 room3]
  ∧ (∀ round title results p,
       id p = uid → personal_emits (user_socket_map w3) round title results [p] = [])
  ∧ (∀ s0 : Session, user_id s0 = None →
       user_socket_map (on_join sid room s0 w) = user_socket_map w
       ∧ user_socket_map (on_leave sid room s0 w) = user_socket_map w).
Proof.
  intros Ht Hu. cbv zeta. unfold on_join, on_leave. rewrite Hu, Ht. unfold_world.
  split; [done|]. split; [by rewrite insert_insert_eq|].
  split; [by rewrite insert_insert_eq, delete_insert_eq|].
  split; [by rewrite <- !app_assoc|]. split.
  - intros round title results p <-. unfold personal_emits.
    cbn [omap list_omap]. cbv zeta.
    by rewrite insert_insert_eq, delete_insert_eq, lookup_delete_eq.
  - intros s0 ->. done.
Qed.

Lemma on_leave_forgets_any_socket_witness :
  user_socket_map
    (on_leave "tab2" "001234" (session_of one_lobby 0)
       (on_join "tab1" "001234" (session_of one_lobby 0)
          (on_join "tab0" "001234" (session_of one_lobby 0) one_lobby)))
  = delete "10005" (user_socket_map one_lobby).
Proof.
  assert (Hu : user_id (session_of one_lobby 0) = Some "10005")
    by (by vm_compute).
  pose proof (on_leave_forgets_any_socket "tab0" "tab1" "tab2"
                "001234" "001234" "001234"
                (session_of one_lobby 0) one_lobby "10005" eq_refl Hu) as H.
  cbv zeta in H. by destruct H as (_ & _ & H & _).
Defined.

(** *** Lengths and the similarity ratio *)

(** The ratio is at most twice the shorter length over the sum of the
    lengths. *)
Lemma ratio_ge_lengths {A} `{EqDecision A} (a b : list A) :
  Qle_bool (7 # 10) (Difflib.ratio a b) = true →
  (7 * length b ≤ 13 * length a ∧ 7 * length a ≤ 13 * length b)%nat.
Proof.
  intros H%Qle_bool_iff. revert H. unfold Difflib.ratio, Difflib.calculate_ratio.
  destruct (DifflibFacts.matches_le a b) as [Ha Hb].
  destruct (Nat.eqb_spec (length a + length b) 0) as [E|E]; [lia|].
  unfold Qle. cbn [Qnum Qden].
  rewrite <- (positive_nat_Z (Pos.of_nat (length a + length b))),
    Nat2Pos.id by done. lia.
Qed.

Lemma length_list_ascii_of_string s :
  length (list_ascii_of_string s) = String.length s.
Proof. induction s as [|c s IH]; [done|]. simpl. by rewrite IH. Qed.

(** X14. A guess is never judged correct when its normal form and that
    of the title differ too much in length: [is_close_match] answers
    true only if neither is longer than 13/7 of the other. So a guess
    that cleans to the empty text (blanks, or a remark in parentheses)
    is correct for the titles that clean to the empty text, where the
    ratio is 1 by convention, and for no other. *)
Theorem is_close_match_lengths guess correct_song :
  let n := String.length (clean_title guess) in
  let m := String.length (clean_title correct_song) in
  (is_close_match guess correct_song = true →
   (7 * m ≤ 13 * n ∧ 7 * n ≤ 13 * m)%nat)
  ∧ (clean_title guess = "" →
     (is_close_match guess correct_song = true ↔ clean_title correct_song = ""))
  ∧ (clean_title correct_song = "" →
     (is_close_match guess correct_song = true ↔ clean_title guess = "")).
Proof.
  intros n m. subst n m.
  assert (Hlen : is_close_match guess correct_song = true →
                 (7 * String.length (clean_title correct_song)
                  ≤ 13 * String.length (clean_title guess)
                  ∧ 7 * String.length (clean_title guess)
                    ≤ 13 * String.length (clean_title correct_song))%nat).
  { unfold is_close_match. cbv zeta. intros H%ratio_ge_lengths.
    by rewrite !length_list_ascii_of_string in H. }
  split; [done|]. split.
  - intros Hg. split.
    + intros H%Hlen. rewrite Hg in H. cbn [String.length] in H.
      destruct (clean_title correct_song); [done|]. cbn [String.length] in H. lia.
    + intros Hc. unfold is_close_match. by rewrite Hg, Hc.
  - intros Hc. split.
    + intros H%Hlen. rewrite Hc in H. cbn [String.length] in H.
      destruct (clean_title guess); [done|]. cbn [String.length] in H. lia.
    + intros Hg. unfold is_close_match. by rewrite Hg, Hc.
Qed.

Lemma is_close_match_lengths_witness :
  is_close_match " (live)" "(Intro)" = true
  ∧ is_close_match " (live)" "Intro" = false.
Proof.
  destruct (is_close_match_lengths " (live)" "(Intro)") as (_ & H & _).
  destruct (is_close_match_lengths " (live)" "Intro") as (_ & H' & _).
  specialize (H eq_refl). specialize (H' eq_refl). split.
  - by apply H.
  - apply not_true_is_false. intros E. apply H' in E. vm_compute in E.
    discriminate E.
Defined.

(** *** Cleaning a title twice *)

Lemma upto_close_sub_from s : ∀ skip,
  Text.upto_close s = None → Text.upto_close (Text.sub_from skip s) = None.
Proof.
  induction s as [|c r IH]; intros skip; [done|].
  cbn [Text.upto_close Text.sub_from].
  destruct (Ascii.eqb c ")") eqn:Ec; [done|]. intros H. apply fmap_None in H.
  destruct skip as [|k]; [|by apply IH].
  destruct (Text.match_paren (String c r)); [by apply IH|].
  cbn [Text.upto_close]. rewrite Ec. apply fmap_None. by apply IH.
Qed.

Lemma match_paren_sub_from s :
  Text.match_paren s = None → Text.match_paren (Text.sub_from 0 s) = None.
Proof.
  induction s as [|c r IH]; [done|]. intros H.
  cbn [Text.sub_from]. rewrite H. revert H. cbn [Text.match_paren].
  destruct (Text.is_space c).
  - intros H. apply fmap_None in H. apply fmap_None. by apply IH.
  - destruct (Ascii.eqb c "("); [|done].
    intros H. apply fmap_None in H. apply fmap_None.
    by apply upto_close_sub_from.
Qed.

(** What [re.sub] returns has no match left in it: the cut never brings
    an opening parenthesis in front of a closing one. *)
Lemma sub_from_no_parens s : ∀ skip, no_parens (Text.sub_from skip s).
Proof.
  induction s as [|c r IH]; intros skip; [done|].
  pose proof (match_paren_sub_from (String c r)) as Hm.
  cbn [Text.sub_from] in *.
  destruct skip as [|k]; [|apply IH].
  destruct (Text.match_paren (String c r)) eqn:E; [apply IH|].
  split; [by apply Hm|apply IH].
Qed.

Lemma no_parens_sub_from s : no_parens s → Text.sub_from 0 s = s.
Proof.
  induction s as [|c r IH]; [done|]. intros [Hm Hr].
  cbn [Text.sub_from]. rewrite Hm. by rewrite IH.
Qed.

Lemma upto_close_lower s :
  Text.upto_close (Text.lower s) = Text.upto_close s.
Proof.
  induction s as [|c r IH]; [done|]. cbn [Text.lower Text.upto_close].
  rewrite IH. by destruct c as [[] [] [] [] [] [] [] []].
Qed.

Lemma match_paren_lower s :
  Text.match_paren (Text.lower s) = Text.match_paren s.
Proof.
  induction s as [|c r IH]; [done|]. cbn [Text.lower Text.match_paren].
  rewrite IH, upto_close_lower, is_space_lower_char.
  by destruct c as [[] [] [] [] [] [] [] []].
Qed.

Lemma no_parens_lower s : no_parens s → no_parens (Text.lower s).
Proof.
  induction s as [|c r IH]; [done|]. intros [Hm Hr]. split; [|by apply IH].
  change (String (Text.lower_char c) (Text.lower r)) with (Text.lower (String c r)).
  by rewrite match_paren_lower.
Qed.

Lemma no_parens_lstrip s : no_parens s → no_parens (Text.lstrip s).
Proof.
  induction s as [|c r IH]; [done|]. intros [Hm Hr]. cbn [Text.lstrip].
  destruct (Text.is_space c); [by apply IH|done].
Qed.

(** A match that starts in a prefix and ends in it is a match of the
    whole. *)
Lemma upto_close_app s v n :
  Text.upto_close s = Some n → Text.upto_close (s +:+ v) = Some n.
Proof.
  revert n. induction s as [|c r IH]; intros n; [done|].
  simpl. destruct (Ascii.eqb c ")"); [done|].
  destruct (Text.upto_close r) as [m|] eqn:E; [|by simpl].
  by rewrite (IH m eq_refl).
Qed.

Lemma match_paren_app s v n :
  Text.match_paren s = Some n → Text.match_paren (s +:+ v) = Some n.
Proof.
  revert n. induction s as [|c r IH]; intros n; [done|].
  simpl. destruct (Text.is_space c).
  - destruct (Text.match_paren r) as [m|]; [|by simpl].
    by rewrite (IH m eq_refl).
  - destruct (Ascii.eqb c "("); [|done].
    destruct (Text.upto_close r) as [m|] eqn:E; [|by simpl].
    by rewrite (upto_close_app r v m E).
Qed.

Lemma no_parens_prefix s v : no_parens (s +:+ v) → no_parens s.
Proof.
  induction s as [|c r IH]; [done|]. simpl. intros [Hm Hr].
  split; [|by apply IH].
  destruct (Text.match_paren (String c r)) as [n|] eqn:E; [|done].
  apply (match_paren_app _ v) in E. simpl in E, Hm. congruence.
Qed.

Lemma rstrip_prefix s : ∃ v, s = Text.rstrip s +:+ v.
Proof.
  induction s as [|c r [v IH]]; [by exists ""|]. cbn [Text.rstrip].
  destruct (Text.rstrip r) as [|d r'] eqn:E.
  - destruct (Text.is_space c).
    + by exists (String c r).
    + exists v. cbn. by rewrite IH at 1.
  - exists v. simpl. by rewrite IH at 1.
Qed.

Lemma no_parens_rstrip s : no_parens s → no_parens (Text.rstrip s).
Proof.
  intros H. destruct (rstrip_prefix s) as [v Hv]. rewrite Hv in H.
  by apply no_parens_prefix in H.
Qed.

Lemma clean_title_no_parens title : no_parens (clean_title title).
Proof.
  unfold clean_title, Text.strip, Text.re_sub_parens.
  apply no_parens_lower, no_parens_rstrip, no_parens_lstrip, sub_from_no_parens.
Qed.

(** X15. [clean_title] is idempotent: what it returns has no
    parenthesised segment left that the pattern would match, no
    whitespace at either end and no capital letter, so cleaning it again
    changes nothing; and [is_close_match] gives the same verdict on a
    text and on its cleaned form. *)
Theorem clean_title_idempotent title :
  clean_title (clean_title title) = clean_title title
  ∧ Text.re_sub_parens (clean_title title) = clean_title title
  ∧ (∀ other, is_close_match (clean_title title) other = is_close_match title other
              ∧ is_close_match other (clean_title title) = is_close_match other title).
Proof.
  assert (Hsub : Text.re_sub_parens (clean_title title) = clean_title title).
  { apply no_parens_sub_from, clean_title_no_parens. }
  assert (Hid : clean_title (clean_title title) = clean_title title).
  { unfold clean_title at 1. cbv zeta. rewrite Hsub.
    destruct (clean_title_normal title) as [Hl Hs]. by rewrite Hs, Hl. }
  split; [done|]. split; [done|]. intros other.
  unfold is_close_match. cbv zeta. by rewrite Hid.
Qed.

(** *** What the clients are told about rounds *)

Lemma announced_snoc (w : World) e :
  Forall announced (log w) → announced e → Forall announced (log (perform e w)).
Proof.
  intros Hw He. unfold_world. apply Forall_app.
  by split; [|apply Forall_singleton].
Qed.

Lemma announced_set_lobby l lobby (w : World) :
  Forall announced (log w) → Forall announced (log (set_lobby l lobby w)).
Proof. done. Qed.

Lemma retry_loop_announced lobby_code l n f (w : World) :
  (1 ≤ round (heap w !!! l) ≤ 10)%Z →
  Forall announced (log w) →
  Forall announced (log (retry_loop lobby_code l n f w).1).
Proof.
  intros Hr Hw. unfold retry_loop, open_round, skip_round.
  destruct (n <? 3)%nat; [destruct (fetch_song f)|]; cbn [fst].
  - repeat apply announced_snoc; try done; cbn [announced]; [|tauto].
    split; [done|]. split; [done|]. by eexists.
  - apply announced_snoc; [done|]. cbn. tauto.
  - repeat apply announced_snoc; try done; cbn [announced]; [|tauto].
    split; [done|]. split; [done|]. by eexists.
Qed.

Lemma loop_head_announced lobby_code l f (w : World) :
  (1 ≤ round (heap w !!! l))%Z →
  Forall announced (log w) →
  Forall announced (log (loop_head lobby_code l f w).1).
Proof.
  intros Hr Hw. unfold loop_head.
  destruct (Z.leb_spec (round (heap w !!! l)) 10).
  - apply retry_loop_announced; [|done]. unfold_world.
    rewrite lookup_total_insert_eq. cbn [round set_guesses]. lia.
  - unfold end_game. cbn [fst]. by apply announced_snoc.
Qed.

Lemma personal_emits_announced usm r title results ps :
  (1 ≤ r ≤ 10)%Z →
  Forall announced (personal_emits usm r title results ps).
Proof.
  intros Hr. unfold personal_emits. apply Forall_forall. intros e He.
  apply list_elem_of_omap in He as (p & _ & He). cbv zeta in He.
  destruct (usm !! id p) as [sid|]; [|done]. injection He as <-.
  cbn [announced]. split; [done|]. by eexists.
Qed.

Lemma close_round_announced lobby_code l song_data (w : World) :
  (1 ≤ round (heap w !!! l) ≤ 10)%Z →
  Forall announced (log w) →
  Forall announced (log (close_round lobby_code l song_data w).1).
Proof.
  intros Hr Hw. unfold close_round.
  destruct (score_players _ _ _) as [ps [e|]]; cbn [fst]; [done|].
  repeat apply announced_snoc; cbn [announced]; [| |tauto].
  - rewrite log_perform_all. apply Forall_app. split; [done|].
    by apply personal_emits_announced.
  - split; [|split; [done|by eexists]].
    destruct (Z.ltb_spec (round (heap w !!! l)) 10); cbn [from_option]; [lia|done].
Qed.

(** A step of a call whose counter is where the call stands keeps the
    log as [announced] has it. *)
Lemma resume_announced f t (w : World) :
  (∀ l, held t = Some l → task_round t (round (heap w !!! l))) →
  Forall announced (log w) →
  Forall announced (log (resume f t w).1).
Proof.
  intros Hr Hw. destruct t; cbn [resume]; try done.
  - destruct (lobbies w !! lobby_code) as [l|]; [|done].
    apply loop_head_announced; [|done]. unfold_world.
    by rewrite lookup_total_insert_eq.
  - apply retry_loop_announced; [|done]. by apply (Hr l).
  - specialize (Hr l eq_refl). cbn [task_round] in Hr.
    apply loop_head_announced; [|done]. rewrite next_round_round. lia.
  - apply close_round_announced; [|done]. by apply (Hr l).
  - specialize (Hr l eq_refl). cbn [task_round] in Hr.
    apply loop_head_announced; [|done]. rewrite next_round_round. lia.
Qed.

Lemma route_announced r s (w : World) o s' w' :
  route r s w = Some (o, s', w') →
  Forall announced (log w) → Forall announced (log w').
Proof.
  intros E Hw. destruct r; cbn [route] in E.
  - unfold create_lobby in E.
    destruct (ensure_user_id _ _), (generate_lobby_code _ _); [|done].
    simpl in E. by injection E as _ _ <-.
  - revert E. route_world E. unfold join_lobby.
    repeat case_match; cbn [snd]; unfold_world; try done;
      (apply Forall_app; by split; [|apply Forall_singleton]).
  - revert E. route_world E. unfold leave_lobby.
    repeat case_match; cbn [snd]; unfold_world; try done;
      (apply Forall_app; by split; [|apply Forall_singleton]).
  - revert E. route_world E. unfold start_game.
    repeat case_match; cbn [snd]; unfold_world; try done;
      (apply Forall_app; by split; [|apply Forall_singleton]).
  - revert E. route_world E. unfold submit_guess.
    repeat case_match; cbn [snd]; unfold_world; try done;
      (apply Forall_app; by split; [|apply Forall_singleton]).
  - revert E. route_world E. by rewrite validate_guess_world.
  - unfold reset_score in E. by injection E as _ _ <-.
  - revert E. route_world E. by rewrite init_session_world.
Qed.

Lemma step_announced e (w : World) :
  rounds_ok w → Forall announced (log w) → Forall announced (log (step e w)).
Proof.
  intros (J1 & _) Hw. destruct e; cbn [step].
  - destruct (route r (session_of w client) w) as [[[o s] w']|] eqn:E; [|done].
    unfold_world. apply Forall_app. split; [|by apply Forall_singleton].
    by eapply route_announced.
  - unfold on_join. destruct (if truthy (user_id _) then _ else _);
      unfold_world; apply Forall_app; by split; [|apply Forall_singleton].
  - unfold on_leave. destruct (if truthy (user_id _) then _ else _);
      unfold_world; apply Forall_app; by split; [|apply Forall_singleton].
  - destruct (tasks w !! task) as [t|] eqn:Ht; [|done].
    assert (H : Forall announced (log (resume f t w).1)).
    { apply resume_announced; [|done]. intros l Hl. by apply (J1 task t l Ht Hl). }
    by destruct (resume f t w) as [w' t'].
Qed.

(** X16. What the clients are told about rounds stays within the ten
    rounds, although the counter itself goes on to 11. In a run of the
    server in which no lobby gets a second call of [run_game], every
    [round_started], with or without a song, carries a round from 1 to
    10 and a duration of 30 and goes to a lobby room; every
    [round_ended_personal] carries a round from 1 to 10 and goes to one
    socket; every [round_transition] announces a next round from 2 to
    10, or none, with a duration of 5; and every sleep of [run_game]
    is of 1, 5 or 30 seconds. *)
Theorem rounds_announced_are_one_to_ten es :
  exclusive_run init es → Forall announced (log (exec init es)).
Proof.
  induction es as [|e es IH] using rev_ind; intros Hx; [done|].
  pose proof (exclusive_run_prefix _ _ _ Hx) as Hes.
  rewrite exec_snoc. apply step_announced; [by apply run_rounds_ok|by apply IH].
Qed.

Lemma rounds_announced_are_one_to_ten_witness :
  Forall announced (log (exec init (started_once ++ no_songs))).
Proof.
  apply rounds_announced_are_one_to_ten.
  unfold started_once, no_songs. cbn [app replicate exclusive_run].
  unfold exclusive.
  repeat split; vm_compute; first [apply NoDup_nil_2 | apply NoDup_singleton].
Defined.
